(** * framed: the layered metabolic model and the reversibility transformation

    A shallow embedding of [framed/core/models.py] and
    [framed/core/transformation.py] (Python 2), with the properties of the
    model hierarchy and of [make_irreversible] proved over it.

    Python objects are mutated in place; here every method is a function
    from the model before the call to an [outcome]: the value returned
    together with the model after the call, or the exception raised
    together with the model as the exception left it. *)

From Stdlib Require Import Ascii String.
From stdpp Require Import base option list strings gmap.

Local Open Scope string_scope.
Local Open Scope list_scope.


(** ** Numbers

    Stoichiometric coefficients and flux bounds are Python numbers. The code
    modelled here never computes with them beyond writing the literal [0]
    and applying unary minus, so a number type is any type with these two. *)

Class Number (num : Type) := { zero : num; neg : num → num }.

#[export] Instance Z_Number : Number Z := {| zero := 0%Z; neg := Z.opp |}.

(** ** Exceptions raised by the modelled code *)

Inductive exn := KeyError | AttributeError | NameError.

(** ** collections.OrderedDict

    A dictionary that remembers insertion order: the list of its items, one
    per key, oldest first. [set] on a key already present keeps its place,
    [set] on a new key appends. *)

Module OrderedDict.
Section defs.
Context {K V : Type} `{EqDecision K}.

Fixpoint get (k : K) (d : list (K * V)) : option V :=
    match d with
    | [] => None
    | (k', v) :: d' => if decide (k' = k) then Some v else get k d'
    end.

  (** [k in d] *)
Definition mem (k : K) (d : list (K * V)) : bool :=
    match get k d with Some _ => true | None => false end.

  (** [d[k] = v] *)
Fixpoint set (k : K) (v : V) (d : list (K * V)) : list (K * V) :=
    match d with
    | [] => [(k, v)]
    | (k', v') :: d' =>
        if decide (k' = k) then (k, v) :: d' else (k', v') :: set k v d'
    end.

  (** [del d[k]] on a key that is present (the callers test or raise) *)
Definition del (k : K) (d : list (K * V)) : list (K * V) :=
    List.filter (λ kv, negb (bool_decide (kv.1 = k))) d.

Definition keys (d : list (K * V)) : list K := d.*1.
Definition items (d : list (K * V)) : list (K * V) := d.

  (** [OrderedDict(pairs)] *)
Definition of_list (pairs : list (K * V)) : list (K * V) :=
    foldl (λ d kv, set kv.1 kv.2 d) [] pairs.

  (** One entry per key: what every dictionary built by [set] and [del]
      from the empty one satisfies. *)
Definition wf (d : list (K * V)) : Prop := NoDup (keys d).
End defs.
End OrderedDict.

Abbreviation OrderedDict K V := (list (K * V)) (only parsing).

(** ** Entity records *)

Module Metabolite.
Record t := Metabolite
    { id : string; name : option string; compartment : option string }.
End Metabolite.

Module Reaction.
Record t := Reaction
    { id : string; name : option string; reversible : bool }.
End Reaction.

Module Gene.
Record t := Gene { id : string; name : option string }.
End Gene.

Module Compartment.
Record t := Compartment { id : string; name : option string }.
End Compartment.

(** Truth value of an optional string: [None] and [''] are false. *)
Definition truthy (s : option string) : bool :=
  match s with
  | None => false
  | Some s => negb (bool_decide (s = ""))
  end.

(** ** The Python primitives the model classes rely on *)

Module Python.

  (** [s.replace(old, new)]: the occurrences of [old] are found from the
      left and do not overlap. [skip] counts the characters of the current
      occurrence still to be passed over. [old] is never empty here. *)
Fixpoint replace_from (skip : nat) (old new s : string) : string :=
    match s with
    | "" => ""
    | String c s' =>
        match skip with
        | S k => replace_from k old new s'
        | O =>
            if String.prefix old s
            then new +:+ replace_from (String.length old - 1) old new s'
            else String c (replace_from O old new s')
        end
    end.

Definition replace (old new s : string) : string := replace_from O old new s.

  (** *** Expressions

      [eval] is given the text of a [lambda x: ...] whose body is, for a
      rule written in the rule language, a Boolean expression. The body is
      modelled on this fragment of Python's expression syntax: the constants
      [True] and [False], a free name, the subscription [x['k']] of the
      parameter by a string literal, [not], [and], [or] and parentheses.
      [eval] answers [None] on any other text: Python rejects some of these
      with a SyntaxError and compiles the others into functions that this
      model does not describe. *)

Inductive expr :=
  | Name (s : string)
  | Const (b : bool)
  | Lookup (k : string)
  | Not (e : expr)
  | And (a b : expr)
  | Or (a b : expr).

Inductive token :=
  | TName (s : string)
  | TStr (s : string)
  | TLPar | TRPar | TLBrack | TRBrack.

Definition is_ident (c : ascii) : bool :=
    let n := nat_of_ascii c in
    (((48 <=? n) && (n <=? 57)) || ((65 <=? n) && (n <=? 90))
     || ((97 <=? n) && (n <=? 122)) || (n =? 95))%nat.

Definition is_digit (c : ascii) : bool :=
    let n := nat_of_ascii c in ((48 <=? n) && (n <=? 57))%nat.

Definition snoc (s : string) (c : ascii) : string := s +:+ String c "".

Inductive lex_mode :=
  | Between                    (* outside any token *)
  | InName (acc : string)      (* inside a name, [acc] read so far *)
  | InStr (acc : string).      (* inside a '...' literal *)

  (** The effect of one character read outside any token: a token is
      emitted or not, and the mode that follows. *)
Definition lex_between (c : ascii) : option (list token * lex_mode) :=
    if bool_decide (c = " "%char) || bool_decide (c = "009"%char) then Some ([], Between)
    else if bool_decide (c = "("%char) then Some ([TLPar], Between)
    else if bool_decide (c = ")"%char) then Some ([TRPar], Between)
    else if bool_decide (c = "["%char) then Some ([TLBrack], Between)
    else if bool_decide (c = "]"%char) then Some ([TRBrack], Between)
    else if bool_decide (c = "'"%char) then Some ([], InStr "")
    else if is_ident c then Some ([], InName (String c ""))
    else None.

Fixpoint lex (mode : lex_mode) (s : string) : option (list token) :=
    match s with
    | "" =>
        match mode with
        | Between => Some []
        | InName acc => Some [TName acc]
        | InStr _ => None
        end
    | String c s' =>
        match mode with
        | InStr acc =>
            if bool_decide (c = "'"%char) then (TStr acc ::.) <$> lex Between s'
            else if bool_decide (c = "\"%char) || bool_decide (c = "010"%char) then None
            else lex (InStr (snoc acc c)) s'
        | InName acc =>
            if is_ident c then lex (InName (snoc acc c)) s'
            else
              match lex_between c with
              | Some (ts, mode') => (λ r, TName acc :: ts ++ r) <$> lex mode' s'
              | None => None
              end
        | Between =>
            match lex_between c with
            | Some (ts, mode') => (ts ++.) <$> lex mode' s'
            | None => None
            end
        end
    end.

Definition keywords : list string :=
    ["and"; "as"; "assert"; "break"; "class"; "continue"; "def"; "del";
     "elif"; "else"; "except"; "exec"; "finally"; "for"; "from"; "global";
     "if"; "import"; "in"; "is"; "lambda"; "not"; "or"; "pass"; "print";
     "raise"; "return"; "try"; "while"; "with"; "yield"].

  (** Names bound among Python 2.7's builtins or in the globals of the
      module [models]: as free names they evaluate to objects, not to
      Booleans, and are left out of the fragment. *)
Definition bound_names : list string :=
    ["ArithmeticError"; "AssertionError"; "AttributeError"; "BaseException";
     "BufferError"; "BytesWarning"; "DeprecationWarning"; "EOFError";
     "Ellipsis"; "EnvironmentError"; "Exception"; "FloatingPointError";
     "FutureWarning"; "GeneratorExit"; "IOError"; "ImportError";
     "ImportWarning"; "IndentationError"; "IndexError"; "KeyError";
     "KeyboardInterrupt"; "LookupError"; "MemoryError"; "NameError"; "None";
     "NotImplemented"; "NotImplementedError"; "OSError"; "OverflowError";
     "PendingDeprecationWarning"; "ReferenceError"; "RuntimeError";
     "RuntimeWarning"; "StandardError"; "StopIteration"; "SyntaxError";
     "SyntaxWarning"; "SystemError"; "SystemExit"; "TabError"; "TypeError";
     "UnboundLocalError"; "UnicodeDecodeError"; "UnicodeEncodeError";
     "UnicodeError"; "UnicodeTranslateError"; "UnicodeWarning";
     "UserWarning"; "ValueError"; "Warning"; "WindowsError";
     "ZeroDivisionError";
     "__builtins__"; "__debug__"; "__doc__"; "__file__"; "__import__";
     "__name__"; "__package__";
     "abs"; "all"; "any"; "apply"; "basestring"; "bin"; "bool"; "buffer";
     "bytearray"; "bytes"; "callable"; "chr"; "classmethod"; "cmp"; "coerce";
     "compile"; "complex"; "copyright"; "credits"; "delattr"; "dict"; "dir";
     "divmod"; "enumerate"; "eval"; "execfile"; "exit"; "file"; "filter";
     "float"; "format"; "frozenset"; "getattr"; "globals"; "hasattr"; "hash";
     "help"; "hex"; "id"; "input"; "int"; "intern"; "isinstance";
     "issubclass"; "iter"; "len"; "license"; "list"; "locals"; "long"; "map";
     "max"; "memoryview"; "min"; "next"; "object"; "oct"; "open"; "ord";
     "pow"; "property"; "quit"; "range"; "raw_input"; "reduce"; "reload";
     "repr"; "reversed"; "round"; "set"; "setattr"; "slice"; "sorted";
     "staticmethod"; "str"; "sum"; "super"; "tuple"; "type"; "unichr";
     "unicode"; "vars"; "xrange"; "zip";
     "OrderedDict"; "Metabolite"; "Reaction"; "Gene"; "Compartment";
     "StoichiometricModel"; "ConstraintBasedModel"; "GPRConstrainedModel"].

  (** A name token that stands for a free variable of the lambda. *)
Definition free_name (s : string) : bool :=
    match s with
    | "" => false
    | String c _ =>
        negb (is_digit c) && negb (bool_decide (s ∈ keywords))
        && negb (bool_decide (s ∈ bound_names))
    end.

  (** Python's grammar for Boolean operations, loosest first:
      [or_test: and_test ('or' and_test)*],
      [and_test: not_test ('and' not_test)*],
      [not_test: 'not' not_test | atom]. A chain [a or b or c] is nested to
      the right, which evaluates the operands in the same order and stops at
      the same operand as Python does. [n] bounds the depth of the
      descent. *)
Fixpoint parse_or (n : nat) (ts : list token) : option (expr * list token) :=
    match n with
    | O => None
    | S n =>
        match parse_and n ts with
        | Some (a, TName s :: ts') =>
            if bool_decide (s = "or")
            then match parse_or n ts' with
                 | Some (b, ts'') => Some (Or a b, ts'')
                 | None => None
                 end
            else Some (a, TName s :: ts')
        | r => r
        end
    end
with parse_and (n : nat) (ts : list token) : option (expr * list token) :=
    match n with
    | O => None
    | S n =>
        match parse_not n ts with
        | Some (a, TName s :: ts') =>
            if bool_decide (s = "and")
            then match parse_and n ts' with
                 | Some (b, ts'') => Some (And a b, ts'')
                 | None => None
                 end
            else Some (a, TName s :: ts')
        | r => r
        end
    end
with parse_not (n : nat) (ts : list token) : option (expr * list token) :=
    match n with
    | O => None
    | S n =>
        match ts with
        | TName s :: ts' =>
            if bool_decide (s = "not")
            then match parse_not n ts' with
                 | Some (a, ts'') => Some (Not a, ts'')
                 | None => None
                 end
            else parse_atom n ts
        | _ => parse_atom n ts
        end
    end
with parse_atom (n : nat) (ts : list token) : option (expr * list token) :=
    match n with
    | O => None
    | S n =>
        match ts with
        | TLPar :: ts' =>
            match parse_or n ts' with
            | Some (e, TRPar :: ts'') => Some (e, ts'')
            | _ => None
            end
        | TName s :: ts' =>
            if bool_decide (s = "x")
            then match ts' with
                 | TLBrack :: TStr k :: TRBrack :: ts'' => Some (Lookup k, ts'')
                 | _ => None
                 end
            else if bool_decide (s = "True") then Some (Const true, ts')
            else if bool_decide (s = "False") then Some (Const false, ts')
            else if free_name s then Some (Name s, ts')
            else None
        | _ => None
        end
    end.

Definition parse (ts : list token) : option expr :=
    match parse_or (4 * length ts + 4) ts with
    | Some (e, []) => Some e
    | _ => None
    end.

Fixpoint strip_prefix (p s : string) : option string :=
    match p, s with
    | "", _ => Some s
    | String a p', String b s' =>
        if bool_decide (a = b) then strip_prefix p' s' else None
    | _, _ => None
    end.

  (** [eval(src)] for [src] the text of a one-parameter lambda: the
      compiled body. *)
Definition eval (src : string) : option expr :=
    body ← strip_prefix "lambda x: " src;
    ts ← lex Between body;
    parse ts.

  (** [f(x)] for [f] a compiled lambda and [x] a dictionary from strings to
      Booleans. [and] and [or] evaluate their right operand only when the
      left one does not decide the result. *)
Fixpoint call (f : expr) (x : gmap string bool) : exn + bool :=
    match f with
    | Name _ => inl NameError
    | Const b => inr b
    | Lookup k =>
        match x !! k with
        | Some b => inr b
        | None => inl KeyError
        end
    | Not a =>
        match call a x with
        | inr b => inr (negb b)
        | inl e => inl e
        end
    | And a b =>
        match call a x with
        | inr true => call b x
        | r => r
        end
    | Or a b =>
        match call a x with
        | inr false => call b x
        | r => r
        end
    end.

(** [f(x)] returns [True]. *)
Definition holds (f : expr) (x : gmap string bool) : bool :=
  match call f x with
  | inr true => true
  | _ => false
  end.
End Python.

(** ** The model object

    One record stands for an instance of any of the three classes; [layer]
    is its class. The attributes [bounds], [genes], [rules] and
    [rule_functions] exist from the class that introduces them downwards;
    above it they stay empty and no method of the class reads them. *)

Inductive layer := Stoichiometric | ConstraintBased | GPRConstrained.

(** [isinstance(model, C)] along
    StoichiometricModel <- ConstraintBasedModel <- GPRConstrainedModel *)
Definition isinstance (l c : layer) : bool :=
  match c, l with
  | Stoichiometric, _ => true
  | ConstraintBased, (ConstraintBased | GPRConstrained) => true
  | GPRConstrained, GPRConstrained => true
  | _, _ => false
  end.

Record model {num : Type} := Model
  { cls : layer;
    model_id : string;
    metabolites : OrderedDict string Metabolite.t;
    reactions : OrderedDict string Reaction.t;
    compartments : OrderedDict string Compartment.t;
    stoichiometry : OrderedDict (string * string) num;
    bounds : OrderedDict string (option num * option num);
    genes : OrderedDict string Gene.t;
    rules : OrderedDict string (option string);
    rule_functions : OrderedDict string Python.expr }.
Arguments model : clear implicits.
Arguments Model {num}.

Section updates.
Context {num : Type}.
Implicit Types m : model num.

Definition with_metabolites (f : _ → _) m :=
    Model (cls m) (model_id m) (f (metabolites m)) (reactions m)
      (compartments m) (stoichiometry m) (bounds m) (genes m) (rules m)
      (rule_functions m).
Definition with_reactions (f : _ → _) m :=
    Model (cls m) (model_id m) (metabolites m) (f (reactions m))
      (compartments m) (stoichiometry m) (bounds m) (genes m) (rules m)
      (rule_functions m).
Definition with_compartments (f : _ → _) m :=
    Model (cls m) (model_id m) (metabolites m) (reactions m)
      (f (compartments m)) (stoichiometry m) (bounds m) (genes m) (rules m)
      (rule_functions m).
Definition with_stoichiometry (f : _ → _) m :=
    Model (cls m) (model_id m) (metabolites m) (reactions m)
      (compartments m) (f (stoichiometry m)) (bounds m) (genes m) (rules m)
      (rule_functions m).
Definition with_bounds (f : _ → _) m :=
    Model (cls m) (model_id m) (metabolites m) (reactions m)
      (compartments m) (stoichiometry m) (f (bounds m)) (genes m) (rules m)
      (rule_functions m).
Definition with_genes (f : _ → _) m :=
    Model (cls m) (model_id m) (metabolites m) (reactions m)
      (compartments m) (stoichiometry m) (bounds m) (f (genes m)) (rules m)
      (rule_functions m).
Definition with_rules (f : _ → _) m :=
    Model (cls m) (model_id m) (metabolites m) (reactions m)
      (compartments m) (stoichiometry m) (bounds m) (genes m) (f (rules m))
      (rule_functions m).
Definition with_rule_functions (f : _ → _) m :=
    Model (cls m) (model_id m) (metabolites m) (reactions m)
      (compartments m) (stoichiometry m) (bounds m) (genes m) (rules m)
      (f (rule_functions m)).
End updates.

(** ** Methods: state and exceptions

    A method maps the object before the call to the outcome of the call.
    [Unmodelled] marks a call that leaves the fragment of Python described
    by [Python.eval]. *)

Inductive outcome (S A : Type) :=
| Returned (a : A) (s : S)
| Raised (e : exn) (s : S)
| Unmodelled.
Arguments Returned {S A}.
Arguments Raised {S A}.
Arguments Unmodelled {S A}.

Definition method (S A : Type) := S → outcome S A.

Section method.
Context {S : Type}.

Definition ret {A} (a : A) : method S A := λ s, Returned a s.

Definition bind {A B} (c : method S A) (k : A → method S B) : method S B :=
    λ s, match c s with
         | Returned a s' => k a s'
         | Raised e s' => Raised e s'
         | Unmodelled => Unmodelled
         end.

Definition raise {A} (e : exn) : method S A := λ s, Raised e s.
Definition unmodelled {A} : method S A := λ _, Unmodelled.
Definition self : method S S := λ s, Returned s s.
Definition update (f : S → S) : method S unit := λ s, Returned () (f s).

  (** [for x in xs: body(x)] over a list fixed before the loop starts *)
Fixpoint for_each {A} (xs : list A) (body : A → method S unit) : method S unit :=
    match xs with
    | [] => ret ()
    | x :: xs' => bind (body x) (λ _, for_each xs' body)
    end.

  (** the same loop carrying a local variable *)
Fixpoint for_fold {A B} (xs : list A) (acc : B) (body : B → A → method S B)
      : method S B :=
    match xs with
    | [] => ret acc
    | x :: xs' => bind (body acc x) (λ acc', for_fold xs' acc' body)
    end.

Definition when (b : bool) (c : method S unit) : method S unit :=
    if b then c else ret ().

  (** [d[k]] *)
Definition subscript {K V} `{EqDecision K} (d : OrderedDict K V) (k : K)
      : method S V :=
    match OrderedDict.get k d with
    | Some v => ret v
    | None => raise KeyError
    end.
End method.

Notation "x <- c ;; k" := (bind c (λ x, k))
  (at level 100, c at next level, right associativity).
Notation "c ;; k" := (bind c (λ _, k))
  (at level 100, right associativity).

(** ** class StoichiometricModel *)

Module StoichiometricModel.
Section methods.
Context {num : Type}.
Abbreviation M := (method (model num)).

Definition init (model_id : string) : model num :=
    Model Stoichiometric model_id [] [] [] [] [] [] [] [].

Definition add_metabolite (metabolite : Metabolite.t) : M unit :=
    m <- self ;;
    when (match Metabolite.compartment metabolite with
          | Some c => OrderedDict.mem c (compartments m)
          | None => false
          end || negb (truthy (Metabolite.compartment metabolite)))
      (update (with_metabolites
                 (OrderedDict.set (Metabolite.id metabolite) metabolite))).

Definition add_metabolites (metabolites : list Metabolite.t) : M unit :=
    for_each metabolites add_metabolite.

Definition add_reaction (reaction : Reaction.t) : M unit :=
    update (with_reactions (OrderedDict.set (Reaction.id reaction) reaction)).

Definition add_compartment (compartment : Compartment.t) : M unit :=
    update (with_compartments
              (OrderedDict.set (Compartment.id compartment) compartment)).

Definition add_compartments (compartments : list Compartment.t) : M unit :=
    for_each compartments add_compartment.

Definition add_stoichiometry (stoichiometry : list (string * string * num))
      : M unit :=
    for_each stoichiometry (λ '(m_id, r_id, coeff),
      m <- self ;;
      when (OrderedDict.mem m_id (metabolites m)
            && OrderedDict.mem r_id (reactions m))
        (update (with_stoichiometry (OrderedDict.set (m_id, r_id) coeff)))).

  (** The second loop of [remove_metabolites] and of [remove_reactions]
      walks [self.stoichiometry] and deletes the key it stands on. Python
      2.7's OrderedDict iterates over a linked list whose unlinked node
      keeps its forward pointer, so the walk reaches every key that was in
      the dictionary when it started. *)
Definition remove_metabolites (id_list : list string) : M unit :=
    for_each id_list (λ m_id,
      m <- self ;;
      when (OrderedDict.mem m_id (metabolites m))
        (update (with_metabolites (OrderedDict.del m_id)))) ;;
    m <- self ;;
    for_each (OrderedDict.keys (stoichiometry m)) (λ '(m2_id, r_id),
      when (bool_decide (m2_id ∈ id_list))
        (update (with_stoichiometry (OrderedDict.del (m2_id, r_id))))).

Definition remove_metabolite (m_id : string) : M unit :=
    remove_metabolites [m_id].

Definition remove_reactions (id_list : list string) : M unit :=
    for_each id_list (λ r_id,
      m <- self ;;
      when (OrderedDict.mem r_id (reactions m))
        (update (with_reactions (OrderedDict.del r_id)))) ;;
    m <- self ;;
    for_each (OrderedDict.keys (stoichiometry m)) (λ '(m_id, r2_id),
      when (bool_decide (r2_id ∈ id_list))
        (update (with_stoichiometry (OrderedDict.del (m_id, r2_id))))).

Definition remove_compartment (c_id : string) (delete_metabolites : bool)
      : M unit :=
    m <- self ;;
    when (OrderedDict.mem c_id (compartments m))
      (update (with_compartments (OrderedDict.del c_id)) ;;
       when delete_metabolites
         (m <- self ;;
          remove_metabolites
            ((List.filter
                (λ kv, bool_decide (Metabolite.compartment kv.2 = Some c_id))
                (OrderedDict.items (metabolites m))).*1))).

  (** [table[r_id][m_id] = coeff] raises KeyError when [r_id] is not a
      reaction of the model. *)
Definition reaction_metabolite_lookup_table
      : M (OrderedDict string (OrderedDict string num)) :=
    m <- self ;;
    for_fold (OrderedDict.items (stoichiometry m))
      (OrderedDict.of_list ((λ r_id, (r_id, [])) <$> OrderedDict.keys (reactions m)))
      (λ table '((m_id, r_id), coeff),
        row <- subscript table r_id ;;
        ret (OrderedDict.set r_id (OrderedDict.set m_id coeff row) table)).

Definition metabolite_reaction_lookup_table
      : M (OrderedDict string (OrderedDict string num)) :=
    m <- self ;;
    for_fold (OrderedDict.items (stoichiometry m))
      (OrderedDict.of_list ((λ m_id, (m_id, [])) <$> OrderedDict.keys (metabolites m)))
      (λ table '((m_id, r_id), coeff),
        row <- subscript table m_id ;;
        ret (OrderedDict.set m_id (OrderedDict.set r_id coeff row) table)).

  (** One row per metabolite, one column per reaction; the literal [0] of
      the source is the [zero] of the numbers. *)
Definition stoichiometric_matrix `{!Number num} : M (list (list num)) :=
    m <- self ;;
    ret ((λ m_id,
            (λ r_id,
               if OrderedDict.mem (m_id, r_id) (stoichiometry m)
               then default zero (OrderedDict.get (m_id, r_id) (stoichiometry m))
               else zero) <$> OrderedDict.keys (reactions m))
           <$> OrderedDict.keys (metabolites m)).
End methods.
End StoichiometricModel.

(** ** class ConstraintBasedModel(StoichiometricModel) *)

Module ConstraintBasedModel.
Section methods.
Context {num : Type}.
Abbreviation M := (method (model num)).

Definition init (model_id : string) : model num :=
    Model ConstraintBased model_id [] [] [] [] [] [] [] [].

Definition set_flux_bounds (r_id : string) (lb ub : option num) : M unit :=
    m <- self ;;
    when (OrderedDict.mem r_id (reactions m))
      (update (with_bounds (OrderedDict.set r_id (lb, ub)))).

Definition set_bounds (bounds_list : list (string * option num * option num))
      : M unit :=
    for_each bounds_list (λ '(r_id, lb, ub), set_flux_bounds r_id lb ub).

Definition set_lower_bound (r_id : string) (lb : option num) : M unit :=
    m <- self ;;
    when (OrderedDict.mem r_id (reactions m))
      (old <- subscript (bounds m) r_id ;;
       update (with_bounds (OrderedDict.set r_id (lb, old.2)))).

Definition set_upper_bound (r_id : string) (ub : option num) : M unit :=
    m <- self ;;
    when (OrderedDict.mem r_id (reactions m))
      (old <- subscript (bounds m) r_id ;;
       update (with_bounds (OrderedDict.set r_id (old.1, ub)))).

Definition add_reaction (reaction : Reaction.t) (lb ub : option num) : M unit :=
    StoichiometricModel.add_reaction reaction ;;
    update (with_bounds (OrderedDict.set (Reaction.id reaction) (lb, ub))).

Definition remove_reactions (id_list : list string) : M unit :=
    StoichiometricModel.remove_reactions id_list ;;
    for_each id_list (λ r_id,
      m <- self ;;
      if OrderedDict.mem r_id (bounds m)
      then update (with_bounds (OrderedDict.del r_id))
      else raise KeyError).
End methods.
End ConstraintBasedModel.

(** ** class GPRConstrainedModel(ConstraintBasedModel) *)

Module GPRConstrainedModel.
Section methods.
Context {num : Type}.
Abbreviation M := (method (model num)).

Definition init (model_id : string) : model num :=
    Model GPRConstrained model_id [] [] [] [] [] [] [] [].

Definition add_gene (gene : Gene.t) : M unit :=
    update (with_genes (OrderedDict.set (Gene.id gene) gene)).

Definition add_genes (genes : list Gene.t) : M unit :=
    for_each genes add_gene.

  (** The text handed to [eval], without its [lambda x: ] head. *)
Definition rule_source (gene_ids : list string) (rule : option string) : string :=
    match rule with
    | Some text =>
        if truthy rule
        then foldl (λ rule gene,
                      Python.replace (" " +:+ gene +:+ " ")
                        (" x['" +:+ gene +:+ "'] ") rule)
               (" " +:+ Python.replace ")" " )" (Python.replace "(" "( " text) +:+ " ")
               gene_ids
        else "True"
    | None => "True"
    end.

Definition _rule_to_function (rule : option string) : M Python.expr :=
    m <- self ;;
    match Python.eval ("lambda x: " +:+ rule_source (OrderedDict.keys (genes m)) rule) with
    | Some f => ret f
    | None => unmodelled
    end.

Definition set_rule (r_id : string) (rule : option string) : M unit :=
    m <- self ;;
    when (OrderedDict.mem r_id (reactions m))
      (update (with_rules (OrderedDict.set r_id rule)) ;;
       f <- _rule_to_function rule ;;
       update (with_rule_functions (OrderedDict.set r_id f))).

Definition set_rules (rules : list (string * option string)) : M unit :=
    for_each rules (λ '(r_id, rule), set_rule r_id rule).

Definition add_reaction (reaction : Reaction.t) (lb ub : option num)
      (rule : option string) : M unit :=
    ConstraintBasedModel.add_reaction reaction lb ub ;;
    set_rule (Reaction.id reaction) rule.

Definition remove_reactions (id_list : list string) : M unit :=
    ConstraintBasedModel.remove_reactions id_list ;;
    for_each id_list (λ r_id,
      m <- self ;;
      (if OrderedDict.mem r_id (rules m)
       then update (with_rules (OrderedDict.del r_id))
       else raise KeyError) ;;
      m <- self ;;
      if OrderedDict.mem r_id (rule_functions m)
      then update (with_rule_functions (OrderedDict.del r_id))
      else raise KeyError).

  (** [{gene: gene in active_genes for gene in self.genes}] *)
Definition genes_state (gene_ids active_genes : list string) : gmap string bool :=
    list_to_map ((λ gene, (gene, bool_decide (gene ∈ active_genes))) <$> gene_ids).

  (** The calls [f(genes_state)] of the comprehension, in order; the first
      one that raises ends it. *)
Fixpoint active_reactions (fs : list (string * Python.expr))
      (state : gmap string bool) : exn + list string :=
    match fs with
    | [] => inr []
    | (r_id, f) :: fs' =>
        match Python.call f state with
        | inl e => inl e
        | inr b =>
            match active_reactions fs' state with
            | inl e => inl e
            | inr rs => inr (if b then r_id :: rs else rs)
            end
        end
    end.

Definition eval_GPR (active_genes : list string) : M (list string) :=
    m <- self ;;
    match active_reactions (OrderedDict.items (rule_functions m))
            (genes_state (OrderedDict.keys (genes m)) active_genes) with
    | inr rs => ret rs
    | inl e => raise e
    end.
End methods.
End GPRConstrainedModel.

(** ** Method resolution

    [self.add_reaction] and [self.remove_reactions] are overridden in every
    class: the call runs the method of the object's class, with the default
    arguments [lb=None, ub=None, rule=None] where the caller gives none. *)

Section dispatch.
Context {num : Type}.
Abbreviation M := (method (model num)).

Definition add_reaction (reaction : Reaction.t) : M unit :=
    m <- self ;;
    match cls m with
    | Stoichiometric => StoichiometricModel.add_reaction reaction
    | ConstraintBased => ConstraintBasedModel.add_reaction reaction None None
    | GPRConstrained => GPRConstrainedModel.add_reaction reaction None None None
    end.

Definition add_reactions (reactions : list Reaction.t) : M unit :=
    for_each reactions add_reaction.

Definition remove_reactions (id_list : list string) : M unit :=
    m <- self ;;
    match cls m with
    | Stoichiometric => StoichiometricModel.remove_reactions id_list
    | ConstraintBased => ConstraintBasedModel.remove_reactions id_list
    | GPRConstrained => GPRConstrainedModel.remove_reactions id_list
    end.

Definition remove_reaction (r_id : string) : M unit :=
    remove_reactions [r_id].
End dispatch.

(** ** transformation.make_irreversible *)

Section transformation.
Context {num : Type} `{!Number num}.
Abbreviation M := (method (model num)).

  (** The body of the loop for one reversible reaction. No class of the
      hierarchy defines [add_rule]: on a GPRConstrainedModel the attribute
      lookup [model.add_rule] raises AttributeError. *)
Definition split_reaction (table : OrderedDict string (OrderedDict string num))
      (r_id : string) (reaction : Reaction.t) : M (string * string) :=
    let fwd_id := Reaction.id reaction +:+ "_f" in
    let bwd_id := Reaction.id reaction +:+ "_b" in
    add_reaction (Reaction.Reaction fwd_id (Reaction.name reaction) false) ;;
    add_reaction (Reaction.Reaction bwd_id (Reaction.name reaction) false) ;;
    row <- subscript table r_id ;;
    for_each (OrderedDict.items row) (λ '(m_id, coeff),
      update (with_stoichiometry (OrderedDict.set (m_id, fwd_id) coeff)) ;;
      update (with_stoichiometry (OrderedDict.set (m_id, bwd_id) (neg coeff)))) ;;
    m <- self ;;
    when (isinstance (cls m) ConstraintBased)
      (m <- self ;;
       b <- subscript (bounds m) r_id ;;
       ConstraintBasedModel.set_flux_bounds fwd_id (Some zero) b.2 ;;
       ConstraintBasedModel.set_flux_bounds bwd_id (Some zero) (neg <$> b.1)) ;;
    when (isinstance (cls m) GPRConstrained) (raise AttributeError) ;;
    remove_reaction r_id ;;
    ret (fwd_id, bwd_id).

  (** [model.reactions.items()] is a list built before the loop starts. *)
Definition make_irreversible : M (gmap string (string * string)) :=
    table <- StoichiometricModel.reaction_metabolite_lookup_table ;;
    m <- self ;;
    for_fold (OrderedDict.items (reactions m)) ∅ (λ mapping '(r_id, reaction),
      if Reaction.reversible reaction
      then ids <- split_reaction table r_id reaction ;;
           ret (<[r_id := ids]> mapping)
      else ret mapping).
End transformation.

(** * Vocabulary of the statements *)

(** ** Well-formed models *)

Section well_formed.
Context {num : Type}.
Implicit Types m : model num.

(** Each reaction is stored under its own id, as [add_reaction] does. *)
Definition reactions_keyed m : Prop :=
  Forall (λ kr, Reaction.id kr.2 = kr.1) (reactions m).

(** Every edge ends in a reaction of the model, as [add_stoichiometry]
    checks and [remove_reactions] maintains. *)
Definition edges_bound m : Prop :=
  Forall (λ e, OrderedDict.mem e.1.2 (reactions m) = true) (stoichiometry m).

(** From ConstraintBasedModel downwards every reaction has a bounds entry,
    as the overridden [add_reaction] installs. *)
Definition bounds_present m : Prop :=
  isinstance (cls m) ConstraintBased = true →
  Forall (λ kr, OrderedDict.mem kr.1 (bounds m) = true) (reactions m).

Definition model_wf m : Prop :=
  OrderedDict.wf (reactions m) ∧ OrderedDict.wf (stoichiometry m)
  ∧ reactions_keyed m ∧ edges_bound m ∧ bounds_present m.

(** No reaction of the model already bears the id that the transformation
    gives to the forward or backward half of a reversible reaction. *)
Definition split_ids_fresh m : Prop :=
  Forall (λ kr, Reaction.reversible kr.2 = true →
                OrderedDict.mem (kr.1 +:+ "_f") (reactions m) = false
                ∧ OrderedDict.mem (kr.1 +:+ "_b") (reactions m) = false)
    (reactions m).
End well_formed.


(** ** What the transformation leaves behind *)

(** The model [m] with its reactions, edges and bounds replaced. *)
Definition rewired {num} (m : model num) rs st bs : model num :=
  Model (cls m) (model_id m) (metabolites m) rs (compartments m) st bs
    (genes m) (rules m) (rule_functions m).


Section transformation_vocabulary.
Context {num : Type} `{!Number num}.
Implicit Types m : model num.

Definition split_post m (r : string)
    (name : option string) (row : OrderedDict string num)
    (rs : OrderedDict string Reaction.t) (st : OrderedDict (string * string) num)
    (bs : OrderedDict string (option num * option num)) : Prop :=
  (∀ k, k ≠ r → k ≠ r +:+ "_f" → k ≠ r +:+ "_b" →
        OrderedDict.get k rs = OrderedDict.get k (reactions m)
        ∧ OrderedDict.get k bs = OrderedDict.get k (bounds m)
        ∧ ∀ a, OrderedDict.get (a, k) st = OrderedDict.get (a, k) (stoichiometry m))
  ∧ OrderedDict.get r rs = None
  ∧ OrderedDict.get (r +:+ "_f") rs
    = Some (Reaction.Reaction (r +:+ "_f") name false)
  ∧ OrderedDict.get (r +:+ "_b") rs
    = Some (Reaction.Reaction (r +:+ "_b") name false)
  ∧ (∀ a c, OrderedDict.get a row = Some c →
            OrderedDict.get (a, r +:+ "_f") st = Some c
            ∧ OrderedDict.get (a, r +:+ "_b") st = Some (neg c))
  ∧ (cls m = ConstraintBased → ∀ b, OrderedDict.get r (bounds m) = Some b →
       OrderedDict.get (r +:+ "_f") bs = Some (Some zero, b.2)
       ∧ OrderedDict.get (r +:+ "_b") bs = Some (Some zero, neg <$> b.1)).


Definition untouched (r k : string) : Prop :=
  k ≠ r ∧ k ≠ r +:+ "_f" ∧ k ≠ r +:+ "_b".

Definition loop_body (table : OrderedDict string (OrderedDict string num))
    (mapping : gmap string (string * string)) (item : string * Reaction.t)
    : method (model num) (gmap string (string * string)) :=
  let '(r_id, reaction) := item in
  if Reaction.reversible reaction
  then ids <- split_reaction table r_id reaction ;;
       ret (<[r_id := ids]> mapping)
  else ret mapping.

Definition loop_post (table : OrderedDict string (OrderedDict string num))
    (l : list (string * Reaction.t)) m
    (acc acc' : gmap string (string * string)) rs st bs : Prop :=
  (∀ k, (∀ r rx, (r, rx) ∈ l → Reaction.reversible rx = true → untouched r k) →
        OrderedDict.get k rs = OrderedDict.get k (reactions m)
        ∧ OrderedDict.get k bs = OrderedDict.get k (bounds m)
        ∧ ∀ a, OrderedDict.get (a, k) st = OrderedDict.get (a, k) (stoichiometry m))
  ∧ (∀ k, (∀ r rx, (r, rx) ∈ l → Reaction.reversible rx = true → k ≠ r) →
          acc' !! k = acc !! k)
  ∧ (∀ r rx, (r, rx) ∈ l → Reaction.reversible rx = true →
       acc' !! r = Some (r +:+ "_f", r +:+ "_b")
       ∧ OrderedDict.get r rs = None
       ∧ OrderedDict.get (r +:+ "_f") rs
         = Some (Reaction.Reaction (r +:+ "_f") (Reaction.name rx) false)
       ∧ OrderedDict.get (r +:+ "_b") rs
         = Some (Reaction.Reaction (r +:+ "_b") (Reaction.name rx) false)
       ∧ (∀ row a c, OrderedDict.get r table = Some row →
            OrderedDict.get a row = Some c →
            OrderedDict.get (a, r +:+ "_f") st = Some c
            ∧ OrderedDict.get (a, r +:+ "_b") st = Some (neg c))
       ∧ (cls m = ConstraintBased → ∀ b, OrderedDict.get r (bounds m) = Some b →
            OrderedDict.get (r +:+ "_f") bs = Some (Some zero, b.2)
            ∧ OrderedDict.get (r +:+ "_b") bs = Some (Some zero, neg <$> b.1))).


Definition split_result m (mapping : gmap string (string * string)) rs st bs : Prop :=
  (∀ r rx, OrderedDict.get r (reactions m) = Some rx →
     Reaction.reversible rx = true →
     mapping !! r = Some (r +:+ "_f", r +:+ "_b")
     ∧ OrderedDict.get r rs = None
     ∧ OrderedDict.get (r +:+ "_f") rs
       = Some (Reaction.Reaction (r +:+ "_f") (Reaction.name rx) false)
     ∧ OrderedDict.get (r +:+ "_b") rs
       = Some (Reaction.Reaction (r +:+ "_b") (Reaction.name rx) false)
     ∧ (∀ a c, OrderedDict.get (a, r) (stoichiometry m) = Some c →
          OrderedDict.get (a, r +:+ "_f") st = Some c
          ∧ OrderedDict.get (a, r +:+ "_b") st = Some (neg c))
     ∧ (cls m = ConstraintBased → ∀ b, OrderedDict.get r (bounds m) = Some b →
          OrderedDict.get (r +:+ "_f") bs = Some (Some zero, b.2)
          ∧ OrderedDict.get (r +:+ "_b") bs = Some (Some zero, neg <$> b.1)))
  ∧ (∀ k, (∀ rx, OrderedDict.get k (reactions m) = Some rx →
                 Reaction.reversible rx = false) →
          mapping !! k = None)
  ∧ (∀ k rx, OrderedDict.get k (reactions m) = Some rx →
       Reaction.reversible rx = false →
       OrderedDict.get k rs = Some rx
       ∧ OrderedDict.get k bs = OrderedDict.get k (bounds m)
       ∧ ∀ a, OrderedDict.get (a, k) st = OrderedDict.get (a, k) (stoichiometry m)).

End transformation_vocabulary.

(** ** Gene rules *)

(** A predicate without [not] whose names are all lookups of the given
    genes. *)
Fixpoint positive (gene_ids : list string) (f : Python.expr) : Prop :=
  match f with
  | Python.Name _ => False
  | Python.Const _ => True
  | Python.Lookup k => k ∈ gene_ids
  | Python.Not _ => False
  | Python.And a b | Python.Or a b => positive gene_ids a ∧ positive gene_ids b
  end.


(** [f] is what [_rule_to_function] compiles [rule] to in a model whose
    gene ids are [gene_ids]. *)
Definition compiled_from (gene_ids : list string) (rule : option string)
    (f : Python.expr) : Prop :=
  Python.eval ("lambda x: " +:+ GPRConstrainedModel.rule_source gene_ids rule)
  = Some f.

Section gene_rule_vocabulary.
Context {num : Type}.
Implicit Types m : model num.

(** [rules] and [rule_functions] in step: every rule has the predicate it
    was compiled to, under the genes known when [set_rule] stored it. *)
Definition rules_in_sync m : Prop :=
  ∀ r rule, OrderedDict.get r (rules m) = Some rule →
    ∃ gene_ids f, compiled_from gene_ids rule f
                  ∧ OrderedDict.get r (rule_functions m) = Some f.

(** Every compiled rule combines lookups of the model's genes with [and]
    and [or] only. *)
Definition positive_rules m : Prop :=
  Forall (λ rf, positive (OrderedDict.keys (genes m)) rf.2) (rule_functions m).

(** A metabolite's compartment, when it names one, is a compartment of the
    model: the condition [add_metabolite] tests. *)
Definition compartments_resolved m : Prop :=
  Forall (λ kv, truthy (Metabolite.compartment kv.2) = true →
                ∃ c, Metabolite.compartment kv.2 = Some c
                     ∧ OrderedDict.mem c (compartments m) = true)
    (metabolites m).
End gene_rule_vocabulary.

(** * Example models *)

(** The scenario of the specification: metabolites A and B, a reversible
    reaction R turning A into B, and an irreversible reaction EX_B. *)
Definition toy_stoichiometric : model Z :=
  Model Stoichiometric "toy"
    [("A", Metabolite.Metabolite "A" None None);
     ("B", Metabolite.Metabolite "B" None None)]
    [("R", Reaction.Reaction "R" (Some "conversion") true);
     ("EX_B", Reaction.Reaction "EX_B" (Some "export") false)]
    []
    [(("A", "R"), (-1)%Z); (("B", "R"), 1%Z); (("B", "EX_B"), (-1)%Z)]
    [] [] [] [].

Definition toy_constrained : model Z :=
  Model ConstraintBased "toy"
    [("A", Metabolite.Metabolite "A" None None);
     ("B", Metabolite.Metabolite "B" None None)]
    [("R", Reaction.Reaction "R" (Some "conversion") true);
     ("EX_B", Reaction.Reaction "EX_B" (Some "export") false)]
    []
    [(("A", "R"), (-1)%Z); (("B", "R"), 1%Z); (("B", "EX_B"), (-1)%Z)]
    [("R", (Some (-10)%Z, Some 10%Z)); ("EX_B", (Some 0%Z, None))]
    [] [] [].

(** The same network with genes and rules, as
    [add_genes] followed by [add_reaction(..., rule=...)] build it. *)
Definition toy_gpr : model Z :=
  Model GPRConstrained "toy"
    [("A", Metabolite.Metabolite "A" None None);
     ("B", Metabolite.Metabolite "B" None None)]
    [("R", Reaction.Reaction "R" (Some "conversion") true);
     ("EX_B", Reaction.Reaction "EX_B" (Some "export") false)]
    []
    [(("A", "R"), (-1)%Z); (("B", "R"), 1%Z); (("B", "EX_B"), (-1)%Z)]
    [("R", (Some (-10)%Z, Some 10%Z)); ("EX_B", (Some 0%Z, None))]
    [("g1", Gene.Gene "g1" None); ("g2", Gene.Gene "g2" None);
     ("g3", Gene.Gene "g3" None)]
    [("R", Some "g1 and (g2 or g3)"); ("EX_B", None)]
    [("R", Python.And (Python.Lookup "g1")
             (Python.Or (Python.Lookup "g2") (Python.Lookup "g3")));
     ("EX_B", Python.Const true)].

(** Two reversible reactions, the id of the second being the id that the
    transformation gives to the forward half of the first. *)
Definition clash_reversible : model Z :=
  Model Stoichiometric "clash"
    [("A", Metabolite.Metabolite "A" None None)]
    [("R", Reaction.Reaction "R" (Some "exchange") true);
     ("R_f", Reaction.Reaction "R_f" (Some "transport") true)]
    []
    [(("A", "R"), (-1)%Z)]
    [] [] [] [].

Definition clash_constrained : model Z :=
  Model ConstraintBased "clash"
    [("A", Metabolite.Metabolite "A" None None)]
    [("R", Reaction.Reaction "R" (Some "exchange") true);
     ("R_f", Reaction.Reaction "R_f" (Some "transport") true)]
    []
    [(("A", "R"), (-1)%Z)]
    [("R", (Some (-10)%Z, Some 10%Z)); ("R_f", (Some (-5)%Z, Some 5%Z))]
    [] [] [].

(** The same clash with an irreversible second reaction. *)
Definition clash_irreversible : model Z :=
  Model Stoichiometric "clash"
    [("A", Metabolite.Metabolite "A" None None)]
    [("R", Reaction.Reaction "R" (Some "exchange") true);
     ("R_f", Reaction.Reaction "R_f" (Some "transport") false)]
    []
    [(("A", "R"), (-1)%Z)]
    [] [] [] [].

(** A metabolite in a compartment. *)
Definition toy_compartment : model Z :=
  Model Stoichiometric "cell"
    [("A", Metabolite.Metabolite "A" None (Some "cytosol"))]
    [] [("cytosol", Compartment.Compartment "cytosol" None)]
    [] [] [] [] [].

(** * Vocabulary of the further properties *)

(** ** The names of a rule text

    The maximal runs of identifier characters of a text, left to right;
    [acc] is the run being read. *)
Definition flush (acc : string) : list string :=
  match acc with "" => [] | _ => [acc] end.

Fixpoint names_from (acc s : string) : list string :=
  match s with
  | "" => flush acc
  | String c s' =>
      if Python.is_ident c then names_from (Python.snoc acc c) s'
      else flush acc ++ names_from "" s'
  end.

Definition rule_names (text : string) : list string := names_from "" text.

Fixpoint no_not (f : Python.expr) : Prop :=
  match f with
  | Python.Not _ => False
  | Python.And a b | Python.Or a b => no_not a ∧ no_not b
  | _ => True
  end.


(** What a parser of the descent does with a token list without [not]:
    the expression has no [Not] and the tokens left over were in the
    list. *)
Definition parser_keeps_no_not
    (parse : list Python.token → option (Python.expr * list Python.token)) : Prop :=
  ∀ ts e rest, parse ts = Some (e, rest) → Python.TName "not" ∉ ts →
    no_not e ∧ ∀ t, t ∈ rest → t ∈ ts.


(** A text whose first and last characters are not identifier characters. *)
Inductive delimited : string → Prop :=
| delimited_one c : Python.is_ident c = false → delimited (String c "")
| delimited_two c v d :
    Python.is_ident c = false → Python.is_ident d = false →
    delimited (String c (v +:+ String d "")).


Section further_vocabulary.
Context {num : Type}.
Implicit Types m : model num.

(** Every compiled predicate of the model comes from the rule stored under
    the same reaction id, compiled under some table of genes. *)
Definition compiled_rules m : Prop :=
  ∀ r f, (r, f) ∈ OrderedDict.items (rule_functions m) →
    ∃ gene_ids rule, OrderedDict.get r (rules m) = Some rule
                     ∧ compiled_from gene_ids rule f.

(** Every edge joins a metabolite of the model to a reaction of the model:
    the condition [add_stoichiometry] tests. *)
Definition edges_resolved m : Prop :=
  Forall (λ e : string * string * num,
            OrderedDict.mem e.1.1 (metabolites m) = true
            ∧ OrderedDict.mem e.1.2 (reactions m) = true)
    (stoichiometry m).

(** [P] holds of the model that a call leaves, whether the call returned
    or raised. *)
Definition leaves {A} (P : model num → Prop) (o : outcome (model num) A) : Prop :=
  match o with
  | Returned _ m' | Raised _ m' => P m'
  | Unmodelled => True
  end.

(** [P] is an invariant of the method [c]. *)
Definition preserves {A} (P : model num → Prop) (c : method (model num) A) : Prop :=
  ∀ m, P m → leaves P (c m).

(** The invariant that carries the loops of [remove_reactions]: the
    reactions that are left have bounds and are not among the ids. *)
Definition bounds_present_outside (ids : list string) m : Prop :=
  bounds_present m ∧ Forall (λ kr : string * Reaction.t, kr.1 ∉ ids) (reactions m).

(** An edge read from its reaction to its metabolite. *)
Definition transposed (e : string * string * num) : string * string * num :=
  ((e.1.2, e.1.1), e.2).

(** [remove_reactions] at the stoichiometric layer, as filters. *)
Definition without_reactions (id_list : list string) m : model num :=
  with_stoichiometry
    (List.filter (λ e, negb (bool_decide (e.1.2 ∈ id_list))))
    (with_reactions
       (List.filter (λ kr, negb (bool_decide (kr.1 ∈ id_list)))) m).

(** [remove_metabolites], as filters. *)
Definition without_metabolites (id_list : list string) m : model num :=
  with_stoichiometry
    (List.filter (λ e, negb (bool_decide (e.1.1 ∈ id_list))))
    (with_metabolites
       (List.filter (λ kv, negb (bool_decide (kv.1 ∈ id_list)))) m).
End further_vocabulary.

(** ** The effect of one step of the transformation, written out *)

Section split_effect.
Context {num : Type} `{!Number num}.

(** [stoichiometry] after the edges of [row] were installed on the two
    halves. *)
Definition install_edges (fwd bwd : string) (row : OrderedDict string num)
    (st : OrderedDict (string * string) num) : OrderedDict (string * string) num :=
  foldl (λ st ac, OrderedDict.set (ac.1, bwd) (neg ac.2)
                    (OrderedDict.set (ac.1, fwd) ac.2 st)) st row.

(** [reactions] and [stoichiometry] after [remove_reactions(id_list)]. *)
Definition drop_reactions (id_list : list string)
    (rs : OrderedDict string Reaction.t) : OrderedDict string Reaction.t :=
  foldl (λ d k, OrderedDict.del k d) rs id_list.

Definition drop_edges (id_list : list string)
    (st : OrderedDict (string * string) num) : OrderedDict (string * string) num :=
  foldl (λ d e, if bool_decide (e.2 ∈ id_list) then OrderedDict.del e d else d)
    st (OrderedDict.keys st).

Definition split_reactions (r : string) (name : option string)
    (rs : OrderedDict string Reaction.t) : OrderedDict string Reaction.t :=
  OrderedDict.del r
    (OrderedDict.set (r +:+ "_b") (Reaction.Reaction (r +:+ "_b") name false)
       (OrderedDict.set (r +:+ "_f") (Reaction.Reaction (r +:+ "_f") name false) rs)).

Definition split_edges (r : string) (row : OrderedDict string num)
    (st : OrderedDict (string * string) num) : OrderedDict (string * string) num :=
  drop_edges [r] (install_edges (r +:+ "_f") (r +:+ "_b") row st).

Definition split_bounds (r : string) (b : option num * option num)
    (bs : OrderedDict string (option num * option num))
    : OrderedDict string (option num * option num) :=
  OrderedDict.del r
    (OrderedDict.set (r +:+ "_b") (Some zero, neg <$> b.1)
       (OrderedDict.set (r +:+ "_f") (Some zero, b.2)
          (OrderedDict.set (r +:+ "_b") (None, None)
             (OrderedDict.set (r +:+ "_f") (None, None) bs)))).
End split_effect.

(** * Properties *)

(** ** Dictionaries *)

Section OrderedDict_facts.
Context {K V : Type} `{EqDecision K}.
Implicit Types (k : K) (v : V) (d : list (K * V)).

Lemma od_mem_get k d : OrderedDict.mem k d = true ↔ is_Some (OrderedDict.get k d).
Proof.
  unfold OrderedDict.mem. destruct (OrderedDict.get k d); split; intros Hx;
    try done; try (by eexists); by destruct Hx.
Qed.

Lemma od_mem_false k d : OrderedDict.mem k d = false ↔ OrderedDict.get k d = None.
Proof. unfold OrderedDict.mem. by destruct (OrderedDict.get k d). Qed.

Lemma od_get_set_eq k v d : OrderedDict.get k (OrderedDict.set k v d) = Some v.
Proof.
  induction d as [|[k' v'] d IH]; simpl.
  - by rewrite decide_True.
  - destruct (decide (k' = k)) as [->|Hne]; simpl.
    + by rewrite decide_True.
    + by rewrite decide_False.
Qed.

Lemma od_get_set_ne k k' v d :
  k ≠ k' → OrderedDict.get k' (OrderedDict.set k v d) = OrderedDict.get k' d.
Proof.
  intros Hne. induction d as [|[k0 v0] d IH]; simpl.
  - by rewrite decide_False.
  - destruct (decide (k0 = k)) as [->|Hne0]; simpl.
    + by rewrite !decide_False.
    + by rewrite IH.
Qed.

Lemma od_get_set k k' v d :
  OrderedDict.get k' (OrderedDict.set k v d)
  = if decide (k = k') then Some v else OrderedDict.get k' d.
Proof.
  destruct (decide (k = k')) as [->|Hne];
    [apply od_get_set_eq | by apply od_get_set_ne].
Qed.

Lemma od_get_del_eq k d : OrderedDict.get k (OrderedDict.del k d) = None.
Proof.
  induction d as [|[k' v'] d IH]; simpl; [done|].
  destruct (decide (k' = k)) as [->|Hne].
  - by rewrite bool_decide_eq_true_2.
  - rewrite bool_decide_eq_false_2 by done. simpl. by rewrite decide_False.
Qed.

Lemma od_get_del_ne k k' d :
  k ≠ k' → OrderedDict.get k' (OrderedDict.del k d) = OrderedDict.get k' d.
Proof.
  intros Hne. induction d as [|[k0 v0] d IH]; simpl; [done|].
  destruct (decide (k0 = k)) as [->|Hne0].
  - rewrite bool_decide_eq_true_2 by done. simpl. by rewrite decide_False.
  - rewrite bool_decide_eq_false_2 by done. simpl. by rewrite IH.
Qed.

Lemma od_get_del k k' d :
  OrderedDict.get k' (OrderedDict.del k d)
  = if decide (k = k') then None else OrderedDict.get k' d.
Proof.
  destruct (decide (k = k')) as [->|Hne];
    [apply od_get_del_eq | by apply od_get_del_ne].
Qed.

Lemma od_get_None k d : OrderedDict.get k d = None ↔ k ∉ OrderedDict.keys d.
Proof.
  unfold OrderedDict.keys. induction d as [|[k' v'] d IH]; simpl.
  - split; [intros _; apply not_elem_of_nil | done].
  - rewrite not_elem_of_cons. destruct (decide (k' = k)) as [->|Hne].
    + split; [done | intros [? _]; done].
    + rewrite IH. split; [intros ?; split; [congruence | done] | by intros [_ ?]].
Qed.

Lemma od_get_Some_keys k v d : OrderedDict.get k d = Some v → k ∈ OrderedDict.keys d.
Proof.
  intros Hg. destruct (decide (k ∈ OrderedDict.keys d)) as [|Hn]; [done|].
  apply od_get_None in Hn. congruence.
Qed.

Lemma od_get_Some_items k v d : OrderedDict.get k d = Some v → (k, v) ∈ d.
Proof.
  induction d as [|[k' v'] d IH]; simpl; [done|].
  destruct (decide (k' = k)) as [->|Hne].
  - intros [= ->]. apply list_elem_of_here.
  - intros Hg. apply list_elem_of_further. by apply IH.
Qed.

Lemma od_items_get k v d :
  OrderedDict.wf d → (k, v) ∈ d → OrderedDict.get k d = Some v.
Proof.
  unfold OrderedDict.wf, OrderedDict.keys.
  induction d as [|[k' v'] d IH]; simpl; intros Hnd Hel.
  - by apply elem_of_nil in Hel.
  - apply NoDup_cons in Hnd as [Hnotin Hnd].
    apply elem_of_cons in Hel as [[= <- <-]|Hel].
    + by rewrite decide_True.
    + rewrite decide_False; [by apply IH|].
      intros ->. apply Hnotin. apply list_elem_of_fmap. by exists (k, v).
Qed.

Lemma od_keys_set k v d :
  OrderedDict.keys (OrderedDict.set k v d)
  = if OrderedDict.mem k d then OrderedDict.keys d else OrderedDict.keys d ++ [k].
Proof.
  unfold OrderedDict.keys, OrderedDict.mem.
  induction d as [|[k' v'] d IH]; [done|].
  cbn [OrderedDict.set OrderedDict.get].
  destruct (decide (k' = k)) as [->|Hne]; [done|].
  rewrite !fmap_cons, IH. by destruct (OrderedDict.get k d).
Qed.

Lemma od_wf_set k v d : OrderedDict.wf d → OrderedDict.wf (OrderedDict.set k v d).
Proof.
  unfold OrderedDict.wf. intros Hnd. rewrite od_keys_set.
  destruct (OrderedDict.mem k d) eqn:Hm; [done|].
  apply od_mem_false, od_get_None in Hm.
  apply NoDup_app. split_and!; [done| |apply NoDup_singleton].
  intros x Hx Hx'. apply list_elem_of_singleton in Hx'. by subst.
Qed.

Lemma od_keys_del k d :
  OrderedDict.keys (OrderedDict.del k d)
  = List.filter (λ k', negb (bool_decide (k' = k))) (OrderedDict.keys d).
Proof.
  unfold OrderedDict.keys, OrderedDict.del.
  induction d as [|[k' v'] d IH]; [done|].
  rewrite fmap_cons. cbn [List.filter fst].
  destruct (bool_decide (k' = k)); cbn [negb]; by rewrite ?fmap_cons, IH.
Qed.

Lemma od_wf_del k d : OrderedDict.wf d → OrderedDict.wf (OrderedDict.del k d).
Proof.
  unfold OrderedDict.wf. rewrite od_keys_del.
  induction (OrderedDict.keys d) as [|k' ks IH]; simpl; [done|].
  intros [Hnotin Hnd]%NoDup_cons.
  destruct (bool_decide (k' = k)); simpl; [by apply IH|].
  apply NoDup_cons. split; [|by apply IH].
  intros Hin. apply Hnotin. apply list_elem_of_In, filter_In in Hin as [Hin _].
  by apply list_elem_of_In.
Qed.

Lemma od_del_absent k d : OrderedDict.get k d = None → OrderedDict.del k d = d.
Proof.
  unfold OrderedDict.del. induction d as [|[k' v'] d IH]; simpl; [done|].
  destruct (decide (k' = k)) as [->|Hne]; [done|].
  intros Hg. rewrite bool_decide_eq_false_2 by done. simpl. by rewrite IH.
Qed.

(** [OrderedDict(pairs)] holds, for each key, the value of its last pair. *)
Lemma od_get_of_list_const (ks : list K) v k :
  OrderedDict.get k (OrderedDict.of_list ((λ k', (k', v)) <$> ks))
  = if decide (k ∈ ks) then Some v else None.
Proof.
  unfold OrderedDict.of_list.
  assert (Hgen : ∀ d,
    OrderedDict.get k (foldl (λ d kv, OrderedDict.set kv.1 kv.2 d) d ((λ k', (k', v)) <$> ks))
    = if decide (k ∈ ks) then Some v else OrderedDict.get k d).
  { induction ks as [|k0 ks IH]; intros d.
    - rewrite decide_False; [done | apply not_elem_of_nil].
    - rewrite fmap_cons. cbn [foldl fst snd]. rewrite IH. destruct (decide (k ∈ ks)) as [Hin|Hnin].
      + rewrite decide_True; [done | by apply list_elem_of_further].
      + rewrite od_get_set. destruct (decide (k0 = k)) as [->|Hne].
        * rewrite decide_True; [done | apply list_elem_of_here].
        * rewrite decide_False; [done|].
          intros [?|?]%elem_of_cons; congruence. }
  by rewrite Hgen.
Qed.
End OrderedDict_facts.

(** ** Reaction ids and their suffixes *)

Lemma string_length_app (s t : string) :
  String.length (s +:+ t) = String.length s + String.length t.
Proof. induction s as [|c s IH]; simpl; [done | by rewrite IH]. Qed.

Lemma string_app_inj_same_length (s t u v : string) :
  String.length u = String.length v → s +:+ u = t +:+ v → s = t ∧ u = v.
Proof.
  intros Hlen Heq.
  assert (Hst : String.length s = String.length t).
  { apply (f_equal String.length) in Heq. rewrite !string_length_app in Heq. lia. }
  clear Hlen. revert t Heq Hst.
  induction s as [|c s IH]; intros [|c' t] Heq Hst; simpl in *; try done.
  injection Heq as -> Heq. destruct (IH t Heq) as [-> ->]; [lia | done].
Qed.

Lemma fwd_id_inj (r r' : string) : r +:+ "_f" = r' +:+ "_f" → r = r'.
Proof. intros Heq. by apply string_app_inj_same_length in Heq as [? _]. Qed.

Lemma bwd_id_inj (r r' : string) : r +:+ "_b" = r' +:+ "_b" → r = r'.
Proof. intros Heq. by apply string_app_inj_same_length in Heq as [? _]. Qed.

Lemma fwd_id_ne_bwd_id (r r' : string) : r +:+ "_f" ≠ r' +:+ "_b".
Proof. intros Heq. by apply string_app_inj_same_length in Heq as [_ ?]. Qed.

Lemma id_ne_suffixed (r u : string) : u ≠ "" → r ≠ r +:+ u.
Proof.
  intros Hu Heq. apply (f_equal String.length) in Heq.
  rewrite string_length_app in Heq. destruct u; [done | simpl in Heq; lia].
Qed.

(** ** Loops that cannot raise *)

Section loops.
Context {S : Type}.

Lemma for_each_update {A} (xs : list A) (body : A → method S unit) (f : A → S → S) s :
  (∀ x s, body x s = Returned () (f x s)) →
  for_each xs body s = Returned () (foldl (λ s x, f x s) s xs).
Proof.
  intros Hbody. revert s. induction xs as [|x xs IH]; intros s; simpl; [done|].
  unfold bind. by rewrite Hbody, IH.
Qed.
End loops.

(** ** Removing reactions *)

Section removal.
Context {num : Type}.
Implicit Types m : model num.

Lemma od_get_del_all {K V} `{EqDecision K} (ks : list K) (d : list (K * V)) k :
  OrderedDict.get k (foldl (λ d k', OrderedDict.del k' d) d ks)
  = if decide (k ∈ ks) then None else OrderedDict.get k d.
Proof.
  revert d. induction ks as [|k0 ks IH]; intros d; cbn [foldl].
  - rewrite decide_False; [done | apply not_elem_of_nil].
  - rewrite IH. destruct (decide (k ∈ ks)) as [Hin|Hnin].
    + rewrite decide_True; [done | by apply list_elem_of_further].
    + rewrite od_get_del. destruct (decide (k0 = k)) as [->|Hne].
      * rewrite decide_True; [done | apply list_elem_of_here].
      * rewrite decide_False; [done|]. intros [?|?]%elem_of_cons; congruence.
Qed.

Lemma od_get_del_edges {V} (P : string * string → bool)
    (ks : list (string * string)) (d : list (string * string * V)) e :
  OrderedDict.get e
    (foldl (λ d e', if P e' then OrderedDict.del e' d else d) d ks)
  = if decide (e ∈ ks ∧ P e = true) then None else OrderedDict.get e d.
Proof.
  revert d. induction ks as [|e0 ks IH]; intros d; cbn [foldl].
  - rewrite decide_False; [done | intros [[]%elem_of_nil _]].
  - rewrite IH. destruct (decide (e ∈ ks ∧ P e = true)) as [[Hin HP]|Hnin].
    + rewrite decide_True; [done | split; [by apply list_elem_of_further | done]].
    + destruct (decide (e0 = e)) as [->|Hne].
      * destruct (P e) eqn:HP.
        -- rewrite od_get_del_eq, decide_True; [done|].
           split; [apply list_elem_of_here | done].
        -- rewrite decide_False; [done | by intros [_ ?]].
      * rewrite decide_False.
        -- destruct (P e0); [by rewrite od_get_del_ne | done].
        -- intros [[?|?]%elem_of_cons HP]; [congruence | by apply Hnin].
Qed.

Lemma StoichiometricModel_remove_reactions_spec (ids : list string) m :
  ∃ rs st,
    StoichiometricModel.remove_reactions ids m
    = Returned () (rewired m rs st (bounds m))
    ∧ (∀ k, OrderedDict.get k rs
            = if decide (k ∈ ids) then None else OrderedDict.get k (reactions m))
    ∧ (∀ a k, OrderedDict.get (a, k) st
              = if decide (k ∈ ids) then None
                else OrderedDict.get (a, k) (stoichiometry m)).
Proof.
  destruct m as [c i me rs co st bs gs rl rf].
  exists (foldl (λ d k', OrderedDict.del k' d) rs ids),
    (foldl (λ d e', if bool_decide (e'.2 ∈ ids) then OrderedDict.del e' d else d)
       st (OrderedDict.keys st)).
  split; [|split].
  - unfold StoichiometricModel.remove_reactions, bind.
    rewrite (for_each_update _ _
      (λ r_id m, if OrderedDict.mem r_id (reactions m)
                 then with_reactions (OrderedDict.del r_id) m else m)).
    2:{ intros x s. unfold self, when. by destruct (OrderedDict.mem _ _). }
    assert (Hl1 : ∀ rs0,
      foldl (λ s x, if OrderedDict.mem x (reactions s)
                    then with_reactions (OrderedDict.del x) s else s)
        (Model c i me rs0 co st bs gs rl rf) ids
      = Model c i me (foldl (λ d k', OrderedDict.del k' d) rs0 ids) co st bs gs rl rf).
    { induction ids as [|x xs IH]; intros rs0; cbn [foldl]; [done|].
      rewrite <- IH. f_equal. cbn.
      destruct (OrderedDict.mem x rs0) eqn:Hm; [done|].
      apply od_mem_false in Hm. by rewrite od_del_absent. }
    rewrite Hl1. unfold self. cbn [stoichiometry].
    rewrite (for_each_update _ _
      (λ e m, if bool_decide (e.2 ∈ ids)
              then with_stoichiometry (OrderedDict.del e) m else m)).
    2:{ intros [a k] s. unfold when, update, ret. cbn [snd].
        by destruct (bool_decide _). }
    f_equal.
    cbv [rewired cls model_id metabolites compartments bounds genes rules
         rule_functions].
    generalize (OrderedDict.keys st). intros ks.
    generalize (foldl (λ d k', OrderedDict.del k' d) rs ids). intros rs1.
    clear Hl1. revert st. induction ks as [|e ks IH]; intros st; cbn [foldl]; [done|].
    destruct (bool_decide (e.2 ∈ ids)); cbn; apply IH.
  - intros k. apply od_get_del_all.
  - intros a k. rewrite (od_get_del_edges (λ e, bool_decide (e.2 ∈ ids))).
    cbn [snd]. destruct (decide (k ∈ ids)) as [Hin|Hnin].
    + destruct (decide (_ ∧ _)) as [|Hn]; [done|].
      destruct (OrderedDict.get (a, k) st) eqn:Hg; [|done].
      exfalso. apply Hn. split; [by eapply od_get_Some_keys | by apply bool_decide_eq_true_2].
    + rewrite decide_False; [done|]. intros [_ Hx%bool_decide_eq_true_1]. done.
Qed.
End removal.

(** ** One step of the transformation *)

Section split.
Context {num : Type} `{!Number num}.
Implicit Types m : model num.

Lemma remove_reaction_spec (r : string) m :
  cls m ≠ GPRConstrained →
  (cls m = ConstraintBased → is_Some (OrderedDict.get r (bounds m))) →
  ∃ rs st bs,
    remove_reaction r m = Returned () (rewired m rs st bs)
    ∧ (∀ k, OrderedDict.get k rs
            = if decide (k = r) then None else OrderedDict.get k (reactions m))
    ∧ (∀ a k, OrderedDict.get (a, k) st
              = if decide (k = r) then None
                else OrderedDict.get (a, k) (stoichiometry m))
    ∧ (∀ k, k ≠ r → OrderedDict.get k bs = OrderedDict.get k (bounds m)).
Proof.
  intros Hcls Hb.
  destruct (StoichiometricModel_remove_reactions_spec [r] m)
    as (rs & st & Hrun & Hrs & Hst).
  assert (Hrs' : ∀ k, OrderedDict.get k rs
            = if decide (k = r) then None else OrderedDict.get k (reactions m)).
  { intros k. rewrite Hrs. destruct (decide (k = r)) as [->|Hne].
    - rewrite decide_True; [done | apply list_elem_of_here].
    - rewrite decide_False; [done | by intros ?%list_elem_of_singleton]. }
  assert (Hst' : ∀ a k, OrderedDict.get (a, k) st
            = if decide (k = r) then None
              else OrderedDict.get (a, k) (stoichiometry m)).
  { intros a k. rewrite Hst. destruct (decide (k = r)) as [->|Hne].
    - rewrite decide_True; [done | apply list_elem_of_here].
    - rewrite decide_False; [done | by intros ?%list_elem_of_singleton]. }
  unfold remove_reaction, remove_reactions, bind, self.
  destruct (cls m) eqn:Hc; [| |done].
  - exists rs, st, (bounds m). by rewrite Hrun.
  - exists rs, st, (OrderedDict.del r (bounds m)).
    unfold ConstraintBasedModel.remove_reactions, bind. rewrite Hrun.
    cbn [for_each]. unfold bind, self. cbn [bounds rewired].
    destruct (Hb eq_refl) as [b Hbr].
    unfold OrderedDict.mem. rewrite Hbr. cbn.
    split_and!; [done..|]. intros k Hne. by rewrite od_get_del_ne.
Qed.

Lemma add_reaction_spec (rx : Reaction.t) m :
  cls m ≠ GPRConstrained →
  add_reaction rx m
  = Returned ()
      (rewired m (OrderedDict.set (Reaction.id rx) rx (reactions m))
         (stoichiometry m)
         (if isinstance (cls m) ConstraintBased
          then OrderedDict.set (Reaction.id rx) (None, None) (bounds m)
          else bounds m)).
Proof.
  intros Hcls. destruct m as [c i me rs co st bs gs rl rf].
  cbn in Hcls. by destruct c.
Qed.

Lemma install_edges_spec (fwd bwd : string) (row : OrderedDict string num) m :
  fwd ≠ bwd → OrderedDict.wf row →
  ∃ st,
    for_each (OrderedDict.items row) (λ '(m_id, coeff),
      update (with_stoichiometry (OrderedDict.set (m_id, fwd) coeff)) ;;
      update (with_stoichiometry (OrderedDict.set (m_id, bwd) (neg coeff)))) m
    = Returned () (rewired m (reactions m) st (bounds m))
    ∧ (∀ a k, OrderedDict.get (a, k) st
         = match OrderedDict.get a row with
           | Some c =>
               if decide (k = fwd) then Some c
               else if decide (k = bwd) then Some (neg c)
               else OrderedDict.get (a, k) (stoichiometry m)
           | None => OrderedDict.get (a, k) (stoichiometry m)
           end).
Proof.
  intros Hne Hwf. destruct m as [c i me rs co st bs gs rl rf].
  cbv [rewired cls model_id metabolites reactions compartments bounds genes
       rules rule_functions stoichiometry].
  revert st. unfold OrderedDict.items.
  induction row as [|[a0 c0] row IH]; intros st.
  - exists st. done.
  - apply NoDup_cons in Hwf as [Hnotin Hwf].
    destruct (IH Hwf (OrderedDict.set (a0, bwd) (neg c0)
                        (OrderedDict.set (a0, fwd) c0 st))) as (st' & Hrun & Hst').
    exists st'. split.
    + cbn [for_each]. unfold bind at 1. unfold bind at 1. cbn. apply Hrun.
    + intros a k. rewrite Hst'. cbn [OrderedDict.get].
      destruct (decide (a0 = a)) as [->|Hna].
      * assert (OrderedDict.get a row = None) as -> by by apply od_get_None.
        rewrite !od_get_set. repeat case_decide; simplify_eq; done.
      * destruct (OrderedDict.get a row);
          rewrite !od_get_set; repeat case_decide; simplify_eq; done.
Qed.
End split.

Ltac model_simpl :=
  cbn [Reaction.id Reaction.name Reaction.reversible cls model_id metabolites
       reactions compartments stoichiometry bounds genes rules rule_functions
       rewired with_metabolites with_reactions with_compartments
       with_stoichiometry with_bounds with_genes with_rules
       with_rule_functions isinstance when fst snd] in *.

Section split_step.
Context {num : Type} `{!Number num}.
Implicit Types m : model num.

Lemma split_reaction_spec table (r : string) (rx : Reaction.t) row m :
  cls m ≠ GPRConstrained →
  Reaction.id rx = r →
  OrderedDict.get r table = Some row →
  OrderedDict.wf row →
  (cls m = ConstraintBased → is_Some (OrderedDict.get r (bounds m))) →
  ∃ rs st bs,
    split_reaction table r rx m
    = Returned (r +:+ "_f", r +:+ "_b") (rewired m rs st bs)
    ∧ split_post m r (Reaction.name rx) row rs st bs.
Proof.
  intros Hcls Hid Hrow Hwf Hb.
  set (nm := Reaction.name rx).
  assert (Hrf : r ≠ r +:+ "_f") by by apply id_ne_suffixed.
  assert (Hrb : r ≠ r +:+ "_b") by by apply id_ne_suffixed.
  assert (Hfb : r +:+ "_f" ≠ r +:+ "_b") by apply fwd_id_ne_bwd_id.
  unfold split_reaction. rewrite Hid. fold nm.
  unfold bind at 1. rewrite add_reaction_spec by done.
  unfold bind at 1. rewrite add_reaction_spec by done.
  model_simpl.
  unfold bind at 1. unfold subscript at 1. rewrite Hrow. unfold ret at 1.
  unfold bind at 1.
  match goal with
  | |- context [for_each _ _ ?M] =>
      destruct (install_edges_spec (r +:+ "_f") (r +:+ "_b") row M Hfb Hwf)
        as (st1 & Hrun1 & Hst1)
  end.
  rewrite Hrun1. clear Hrun1.
  model_simpl.
  unfold bind at 1. unfold self at 1.
  model_simpl.
  destruct (cls m) eqn:Hc; [| |done].
  - (* StoichiometricModel *)
    model_simpl. unfold bind at 1. unfold ret at 1.
    unfold bind at 1. unfold ret at 1. unfold bind at 1.
    match goal with
    | |- context [remove_reaction r ?M] =>
        destruct (remove_reaction_spec r M) as (rs2 & st2 & bs2 & Hrun2 & Hrs2 & Hst2 & Hbs2);
          [by cbn; rewrite Hc | by cbn; rewrite Hc |]
    end.
    rewrite Hrun2. clear Hrun2.
    model_simpl.
    exists rs2, st2, bs2. split; [done|].
    unfold split_post. split_and!.
    + intros k H1 H2 H3. split_and!.
      * rewrite Hrs2, decide_False by done. by rewrite !od_get_set_ne.
      * by rewrite Hbs2.
      * intros a. rewrite Hst2, decide_False, Hst1 by done.
        destruct (OrderedDict.get a row); [|done]. by rewrite !decide_False.
    + by rewrite Hrs2, decide_True.
    + rewrite Hrs2, decide_False by done.
      rewrite od_get_set_ne by done. by rewrite od_get_set_eq.
    + rewrite Hrs2, decide_False by done. by rewrite od_get_set_eq.
    + intros a c Ha. rewrite !Hst2, !decide_False, !Hst1, Ha by done.
      rewrite decide_True by done. rewrite decide_False by done.
      by rewrite decide_True.
    + intros Hx. congruence.
  - (* ConstraintBasedModel *)
    destruct (Hb eq_refl) as [b Hbr].
    model_simpl. unfold bind at 1. unfold bind at 1.
    unfold self at 1. unfold bind at 1.
    model_simpl.
    unfold subscript at 1. rewrite !od_get_set_ne, Hbr by done.
    unfold ret at 1.
    unfold ConstraintBasedModel.set_flux_bounds, bind, self, when, update, ret.
    model_simpl.
    unfold OrderedDict.mem.
    rewrite od_get_set_ne, !od_get_set_eq by done.
    model_simpl.
    rewrite od_get_set_eq.
    model_simpl.
    match goal with
    | |- context [remove_reaction r ?M] =>
        destruct (remove_reaction_spec r M) as (rs2 & st2 & bs2 & Hrun2 & Hrs2 & Hst2 & Hbs2);
          [by cbn; rewrite Hc | |]
    end.
    { intros _. model_simpl. rewrite !od_get_set_ne by done. by eexists. }
    rewrite Hrun2. clear Hrun2.
    model_simpl.
    exists rs2, st2, bs2. split; [done|].
    unfold split_post. split_and!.
    + intros k H1 H2 H3. split_and!.
      * rewrite Hrs2, decide_False by done. by rewrite !od_get_set_ne.
      * rewrite Hbs2 by done. by rewrite !od_get_set_ne.
      * intros a. rewrite Hst2, decide_False, Hst1 by done.
        destruct (OrderedDict.get a row); [|done]. by rewrite !decide_False.
    + by rewrite Hrs2, decide_True.
    + rewrite Hrs2, decide_False by done.
      rewrite od_get_set_ne by done. by rewrite od_get_set_eq.
    + rewrite Hrs2, decide_False by done. by rewrite od_get_set_eq.
    + intros a c Ha. rewrite !Hst2, !decide_False, !Hst1, Ha by done.
      rewrite decide_True by done. rewrite decide_False by done.
      by rewrite decide_True.
    + intros _ b' Hb'. assert (b' = b) as -> by congruence.
      rewrite !Hbs2 by done. rewrite od_get_set_eq.
      rewrite od_get_set_ne by done. by rewrite od_get_set_eq.
Qed.
End split_step.

Section lookup_table.
Context {num : Type}.
Implicit Types m : model num.

Lemma table_fold_spec (es : OrderedDict (string * string) num)
    (table : OrderedDict string (OrderedDict string num)) m :
  OrderedDict.wf es →
  Forall (λ e : string * string * num, is_Some (OrderedDict.get e.1.2 table)) es →
  (∀ r row, OrderedDict.get r table = Some row → OrderedDict.wf row) →
  ∃ table',
    for_fold (OrderedDict.items es) table
      (λ table '((m_id, r_id), coeff),
        row <- subscript table r_id ;;
        ret (OrderedDict.set r_id (OrderedDict.set m_id coeff row) table)) m
    = Returned table' m
    ∧ ∀ r row, OrderedDict.get r table = Some row →
        ∃ row', OrderedDict.get r table' = Some row' ∧ OrderedDict.wf row'
          ∧ ∀ a, OrderedDict.get a row'
                 = match OrderedDict.get (a, r) es with
                   | Some c => Some c
                   | None => OrderedDict.get a row
                   end.
Proof.
  unfold OrderedDict.items. revert table.
  induction es as [|[[a0 r0] c0] es IH]; intros table Hwf Hdom Hrows.
  - exists table. split; [done|]. intros r row Hr. exists row. eauto.
  - apply NoDup_cons in Hwf as [Hnotin Hwf].
    apply Forall_cons in Hdom as [[row0 Hrow0] Hdom]. cbn [fst snd] in Hrow0.
    destruct (IH (OrderedDict.set r0 (OrderedDict.set a0 c0 row0) table)) 
      as (table' & Hrun & Hspec); [done| | |].
    { eapply Forall_impl; [exact Hdom|]. intros [[a r] c] [row Hrow]. cbn [fst snd] in *.
      rewrite od_get_set. case_decide; by eexists. }
    { intros r row. rewrite od_get_set. case_decide.
      - intros [= <-]. apply od_wf_set. by eapply Hrows.
      - apply Hrows. }
    exists table'. split.
    + cbn [for_fold]. unfold bind at 1. unfold bind at 1. unfold subscript.
      rewrite Hrow0. unfold ret at 1. unfold ret at 1. apply Hrun.
    + intros r row Hr.
      destruct (Hspec r (if decide (r0 = r) then OrderedDict.set a0 c0 row0 else row))
        as (row' & Hrow' & Hwf' & Hget).
      { rewrite od_get_set. by case_decide. }
      exists row'. split_and!; [done..|].
      intros a. rewrite Hget. cbn [OrderedDict.get].
      destruct (decide ((a0, r0) = (a, r))) as [[= -> ->]|Hne].
      * assert (OrderedDict.get (a, r) es = None) as ->.
        { apply od_get_None. exact Hnotin. }
        rewrite decide_True by done. by rewrite od_get_set_eq.
      * destruct (OrderedDict.get (a, r) es); [done|].
        case_decide; [|done]. subst r0.
        assert (row0 = row) as -> by congruence.
        rewrite od_get_set_ne; [done | congruence].
Qed.

Lemma reaction_metabolite_lookup_table_spec m :
  OrderedDict.wf (stoichiometry m) → edges_bound m →
  ∃ table,
    StoichiometricModel.reaction_metabolite_lookup_table m = Returned table m
    ∧ ∀ r, is_Some (OrderedDict.get r (reactions m)) →
        ∃ row, OrderedDict.get r table = Some row ∧ OrderedDict.wf row
          ∧ ∀ a, OrderedDict.get a row = OrderedDict.get (a, r) (stoichiometry m).
Proof.
  intros Hwf Hedges.
  unfold StoichiometricModel.reaction_metabolite_lookup_table, bind, self.
  set (table0 := OrderedDict.of_list _).
  assert (Ht0 : ∀ r, OrderedDict.get r table0
                     = if decide (r ∈ OrderedDict.keys (reactions m))
                       then Some [] else None).
  { intros r. apply od_get_of_list_const. }
  destruct (table_fold_spec (stoichiometry m) table0 m) as (table & Hrun & Hspec).
  - done.
  - eapply Forall_impl; [exact Hedges|]. intros [[a r] c] Hm. cbn [fst snd] in *.
    rewrite Ht0. apply od_mem_get in Hm as [x Hx].
    rewrite decide_True; [by eexists | by eapply od_get_Some_keys].
  - intros r row. rewrite Ht0. case_decide; [|done]. intros [= <-].
    apply NoDup_nil_2.
  - exists table. split; [exact Hrun|].
    intros r [x Hx]. destruct (Hspec r []) as (row & Hrow & Hwfr & Hget).
    { rewrite Ht0, decide_True; [done | by eapply od_get_Some_keys]. }
    exists row. split_and!; [done..|]. intros a. rewrite Hget.
    by destruct (OrderedDict.get (a, r) (stoichiometry m)).
Qed.
End lookup_table.

(** ** The loop of the transformation *)

Section split_loop.
Context {num : Type} `{!Number num}.
Implicit Types m : model num.

Lemma untouched_other (r r' k : string) :
  r ≠ r' → k ≠ r +:+ "_f" → k ≠ r +:+ "_b" →
  r ≠ r' +:+ "_f" → r ≠ r' +:+ "_b" →
  k = r' ∨ k = r' +:+ "_f" ∨ k = r' +:+ "_b" → untouched r k.
Proof.
  intros Hne Hf Hb Hf' Hb' Hk. unfold untouched. split_and!; [|done..].
  destruct Hk as [-> | [-> | ->]]; congruence.
Qed.

Lemma loop_spec table (l : list (string * Reaction.t)) m acc :
  cls m ≠ GPRConstrained →
  NoDup l.*1 →
  Forall (λ kr, Reaction.id kr.2 = kr.1) l →
  (∀ r rx, (r, rx) ∈ l → Reaction.reversible rx = true →
     ∃ row, OrderedDict.get r table = Some row ∧ OrderedDict.wf row) →
  (cls m = ConstraintBased → ∀ r rx, (r, rx) ∈ l →
     Reaction.reversible rx = true → is_Some (OrderedDict.get r (bounds m))) →
  (∀ r rx k, (r, rx) ∈ l → Reaction.reversible rx = true → k ∈ l.*1 →
     k ≠ r +:+ "_f" ∧ k ≠ r +:+ "_b") →
  ∃ acc' rs st bs,
    for_fold l acc (loop_body table) m = Returned acc' (rewired m rs st bs)
    ∧ loop_post table l m acc acc' rs st bs.
Proof.
  revert m acc. induction l as [|[r0 rx0] l IH];
    intros m acc Hcls Hnd Hkeyed Hrows Hbounds Hfresh.
  - exists acc, (reactions m), (stoichiometry m), (bounds m). split.
    + by destruct m.
    + split_and!; [done..|]. by intros r rx Hin%elem_of_nil.
  - rewrite fmap_cons in Hnd. apply NoDup_cons in Hnd as [Hr0 Hnd].
    apply Forall_cons in Hkeyed as [Hid0 Hkeyed]. cbn [fst snd] in *.
    assert (Hne_tail : ∀ r rx, (r, rx) ∈ l → r ≠ r0).
    { intros r rx Hin ->. apply Hr0. apply list_elem_of_fmap. by exists (r0, rx). }
    assert (Hkey_tail : ∀ r rx, (r, rx) ∈ l → r ∈ ((r0, rx0) :: l).*1).
    { intros r rx Hin. rewrite fmap_cons. apply list_elem_of_further.
      apply list_elem_of_fmap. by exists (r, rx). }
    assert (Hkey_head : r0 ∈ ((r0, rx0) :: l).*1).
    { rewrite fmap_cons. apply list_elem_of_here. }
    cbn [for_fold]. unfold bind at 1. unfold loop_body at 1.
    destruct (Reaction.reversible rx0) eqn:Hrev0.
    + (* the head is reversible: it is split *)
      destruct (Hrows r0 rx0) as (row0 & Hrow0 & Hwf0); [apply list_elem_of_here | done |].
      destruct (split_reaction_spec table r0 rx0 row0 m)
        as (rs1 & st1 & bs1 & Hrun1 & Hpost1); [done..| |].
      { intros Hc. eapply Hbounds; [done | apply list_elem_of_here | done]. }
      unfold bind at 1. rewrite Hrun1. unfold ret at 1.
      destruct Hpost1 as (Hframe1 & Hr1 & Hf1 & Hb1 & He1 & Hbd1).
      assert (Hunt1 : ∀ r rx, (r, rx) ∈ l → untouched r0 r).
      { intros r rx Hin. unfold untouched. split_and!.
        - by eapply Hne_tail.
        - eapply Hfresh; [apply list_elem_of_here | done | by eapply Hkey_tail].
        - eapply Hfresh; [apply list_elem_of_here | done | by eapply Hkey_tail]. }
      destruct (IH (rewired m rs1 st1 bs1) (<[r0 := (r0 +:+ "_f", r0 +:+ "_b")]> acc))
        as (acc' & rs & st & bs & Hrun & Hframe & Hmap & Hsplit); [done..| | | |].
      { intros r rx Hin Hrev. eapply Hrows; [by apply list_elem_of_further | done]. }
      { intros Hc r rx Hin Hrev. cbn [bounds rewired].
        destruct (Hunt1 r rx Hin) as (? & ? & ?).
        destruct (Hframe1 r) as (_ & -> & _); [done..|].
        eapply Hbounds; [done | by apply list_elem_of_further | done]. }
      { intros r rx k Hin Hrev Hk. eapply Hfresh;
          [by apply list_elem_of_further | done |].
        rewrite fmap_cons. by apply list_elem_of_further. }
      exists acc', rs, st, bs. split; [exact Hrun|].
      cbn [reactions stoichiometry bounds cls rewired] in Hframe, Hsplit.
      assert (Hunt_head : ∀ r rx k, (r, rx) ∈ l → Reaction.reversible rx = true →
                k = r0 ∨ k = r0 +:+ "_f" ∨ k = r0 +:+ "_b" → untouched r k).
      { intros r rx k Hin Hrev Hk.
        destruct (Hfresh r rx r0) as [? ?]; [by apply list_elem_of_further | done..|].
        destruct (Hfresh r0 rx0 r) as [? ?];
          [apply list_elem_of_here | done | by eapply Hkey_tail |].
        eapply (untouched_other r r0 k); [by eapply Hne_tail | | | done..].
        - destruct Hk as [-> | [-> | ->]]; [done| |].
          + intros Heq%fwd_id_inj. symmetry in Heq. by eapply Hne_tail.
          + intros Heq. symmetry in Heq. by eapply fwd_id_ne_bwd_id.
        - destruct Hk as [-> | [-> | ->]]; [done| |].
          + apply fwd_id_ne_bwd_id.
          + intros Heq%bwd_id_inj. symmetry in Heq. by eapply Hne_tail. }
      split_and!.
      * intros k Hk.
        destruct (Hk r0 rx0) as (? & ? & ?); [apply list_elem_of_here | done |].
        destruct (Hframe k) as (-> & -> & Hst).
        { intros r rx Hin Hrev. apply (Hk r rx); [by apply list_elem_of_further | done]. }
        destruct (Hframe1 k) as (-> & -> & Hst1); [done..|].
        split_and!; [done..|]. intros a. by rewrite Hst, Hst1.
      * intros k Hk. rewrite Hmap.
        -- rewrite lookup_insert_ne; [done|]. intros <-.
           eapply (Hk r0 rx0); [apply list_elem_of_here | done | done].
        -- intros r rx Hin Hrev. apply (Hk r rx); [by apply list_elem_of_further | done].
      * intros r rx [[= -> ->]|Hin]%elem_of_cons Hrev.
        -- destruct (Hframe r0) as (-> & _ & _).
           { intros r rx Hin Hrev'. eapply Hunt_head; eauto. }
           destruct (Hframe (r0 +:+ "_f")) as (-> & -> & Hstf).
           { intros r rx Hin Hrev'. eapply Hunt_head; eauto. }
           destruct (Hframe (r0 +:+ "_b")) as (-> & -> & Hstb).
           { intros r rx Hin Hrev'. eapply Hunt_head; eauto. }
           split_and!; [|done..| |done].
           ++ rewrite Hmap; [by rewrite lookup_insert_eq|].
              intros r rx Hin _ ->. by eapply Hne_tail.
           ++ intros row a c Hrow Ha. rewrite Hstf, Hstb.
              assert (row = row0) as -> by congruence. by apply He1.
        -- destruct (Hsplit r rx Hin Hrev) as (? & ? & ? & ? & ? & Hbd).
           split_and!; [done..|].
           intros Hc b Hb. apply Hbd; [done|].
           destruct (Hunt1 r rx Hin) as (? & ? & ?).
           destruct (Hframe1 r) as (_ & -> & _); done.
    + (* the head is irreversible: it is skipped *)
      unfold ret at 1.
      destruct (IH m acc) as (acc' & rs & st & bs & Hrun & Hframe & Hmap & Hsplit);
        [done..| | | |].
      { intros r rx Hin Hrev. eapply Hrows; [by apply list_elem_of_further | done]. }
      { intros Hc r rx Hin Hrev.
        eapply Hbounds; [done | by apply list_elem_of_further | done]. }
      { intros r rx k Hin Hrev Hk. eapply Hfresh;
          [by apply list_elem_of_further | done |].
        rewrite fmap_cons. by apply list_elem_of_further. }
      exists acc', rs, st, bs. split; [exact Hrun|]. split_and!.
      * intros k Hk. apply Hframe. intros r rx Hin Hrev.
        apply (Hk r rx); [by apply list_elem_of_further | done].
      * intros k Hk. apply Hmap. intros r rx Hin Hrev.
        apply (Hk r rx); [by apply list_elem_of_further | done].
      * intros r rx [[= -> ->]|Hin]%elem_of_cons Hrev; [congruence|].
        by apply Hsplit.
Qed.
End split_loop.

(** ** The transformation on the stoichiometric and constraint-based layers *)

Section make_irreversible_facts.
Context {num : Type} `{!Number num}.
Implicit Types m : model num.

Lemma make_irreversible_spec m :
  cls m ≠ GPRConstrained → model_wf m → split_ids_fresh m →
  ∃ mapping rs st bs,
    make_irreversible m = Returned mapping (rewired m rs st bs)
    ∧ split_result m mapping rs st bs.
Proof.
  intros Hcls (Hwfr & Hwfs & Hkeyed & Hedges & Hbounds) Hfresh.
  destruct (reaction_metabolite_lookup_table_spec m Hwfs Hedges)
    as (table & Htable & Hrows).
  unfold make_irreversible. unfold bind at 1. rewrite Htable.
  unfold bind at 1. unfold self at 1. unfold OrderedDict.items.
  change (for_fold (reactions m) ∅ _ m)
    with (for_fold (reactions m) ∅ (loop_body table) m).
  assert (Hfresh' : ∀ r rx k, (r, rx) ∈ reactions m →
            Reaction.reversible rx = true → k ∈ (reactions m).*1 →
            k ≠ r +:+ "_f" ∧ k ≠ r +:+ "_b").
  { intros r rx k Hin Hrev Hk.
    unfold split_ids_fresh in Hfresh. rewrite Forall_forall in Hfresh.
    destruct (Hfresh (r, rx) Hin Hrev) as [Hf Hb]. cbn [fst snd] in *.
    apply od_mem_false, od_get_None in Hf, Hb.
    split; intros ->; [by apply Hf | by apply Hb]. }
  destruct (loop_spec table (reactions m) m ∅)
    as (mapping & rs & st & bs & Hrun & Hframe & Hmap & Hsplit); [done..| | | |].
  { intros r rx Hin Hrev. destruct (Hrows r) as (row & ? & ? & _); [|by eauto].
    exists rx. by apply od_items_get. }
  { intros Hc r rx Hin Hrev. apply od_mem_get.
    unfold bounds_present in Hbounds. rewrite Hc in Hbounds.
    specialize (Hbounds eq_refl). rewrite Forall_forall in Hbounds.
    apply (Hbounds (r, rx) Hin). }
  { exact Hfresh'. }
  exists mapping, rs, st, bs. split; [exact Hrun|].
  assert (Hirr : ∀ k rx, OrderedDict.get k (reactions m) = Some rx →
            Reaction.reversible rx = false →
            ∀ r rx', (r, rx') ∈ reactions m → Reaction.reversible rx' = true →
            untouched r k).
  { intros k rx Hk Hirr r rx' Hin Hrev.
    destruct (Hfresh' r rx' k Hin Hrev) as [? ?]; [by eapply od_get_Some_keys|].
    unfold untouched. split_and!; [|done..].
    intros ->. apply od_items_get in Hin; [|done]. congruence. }
  split_and!.
  - intros r rx Hr Hrev.
    destruct (Hsplit r rx) as (? & ? & ? & ? & Hedge & ?);
      [by apply od_get_Some_items | done |].
    split_and!; [done..| |done].
    intros a c Hc. destruct (Hrows r) as (row & Hrow & _ & Hget); [by eauto|].
    eapply Hedge; [done|]. by rewrite Hget.
  - intros k Hk. rewrite Hmap; [apply lookup_empty|].
    intros r rx Hin Hrev ->. apply od_items_get in Hin; [|done].
    specialize (Hk rx Hin). congruence.
  - intros k rx Hk Hirr'. destruct (Hframe k) as (-> & -> & Hst); [by eapply Hirr|].
    done.
Qed.
End make_irreversible_facts.

(** ** Gene rules *)

Section gene_rules.

Lemma genes_state_lookup (gene_ids active_genes : list string) (g : string) :
  GPRConstrainedModel.genes_state gene_ids active_genes !! g
  = if decide (g ∈ gene_ids) then Some (bool_decide (g ∈ active_genes)) else None.
Proof.
  unfold GPRConstrainedModel.genes_state.
  induction gene_ids as [|g0 gs IH].
  - rewrite decide_False; [apply lookup_empty | apply not_elem_of_nil].
  - rewrite fmap_cons, list_to_map_cons, lookup_insert. destruct (decide (g0 = g)) as [->|Hne].
    + rewrite decide_True; [done | apply list_elem_of_here].
    + rewrite IH. destruct (decide (g ∈ gs)) as [Hin|Hnin].
      * rewrite decide_True; [done | by apply list_elem_of_further].
      * rewrite decide_False; [done|]. intros [?|?]%elem_of_cons; congruence.
Qed.

Lemma active_reactions_returns (fs : list (string * Python.expr)) state rs :
  GPRConstrainedModel.active_reactions fs state = inr rs →
  Forall (λ rf, ∃ b, Python.call rf.2 state = inr b) fs
  ∧ rs = (List.filter (λ rf, Python.holds rf.2 state) fs).*1.
Proof.
  revert rs. induction fs as [|[r f] fs IH]; intros rs; cbn [GPRConstrainedModel.active_reactions].
  - intros [= <-]. split; [constructor | done].
  - destruct (Python.call f state) as [e|b] eqn:Hf; [done|].
    destruct (GPRConstrainedModel.active_reactions fs state) as [e|rs'] eqn:Hfs; [done|].
    intros [= <-]. destruct (IH rs' eq_refl) as [Hall ->].
    split; [constructor; [by exists b | done]|].
    cbn [List.filter snd].
    assert (Python.holds f state = b) as ->
      by (unfold Python.holds; rewrite Hf; by destruct b).
    by destruct b.
Qed.

Lemma active_reactions_total (fs : list (string * Python.expr)) state :
  Forall (λ rf, ∃ b, Python.call rf.2 state = inr b) fs →
  ∃ rs, GPRConstrainedModel.active_reactions fs state = inr rs.
Proof.
  induction fs as [|[r f] fs IH]; cbn [GPRConstrainedModel.active_reactions].
  - by eexists.
  - intros [[b Hb] [rs Hrs]%IH]%Forall_cons. cbn [snd] in Hb.
    rewrite Hb, Hrs. by eexists.
Qed.

Lemma positive_call_total gene_ids f (x : gmap string bool) :
  positive gene_ids f → (∀ k, k ∈ gene_ids → is_Some (x !! k)) →
  ∃ b, Python.call f x = inr b.
Proof.
  intros Hpos Hdom. induction f as [s|b|k|a IHa|a IHa b IHb|a IHa b IHb];
    cbn [positive Python.call] in *; try done.
  - by eexists.
  - destruct (Hdom k Hpos) as [b ->]. by eexists.
  - destruct Hpos as [Ha Hb]. destruct (IHa Ha) as [[] ->]; [by apply IHb | by eexists].
  - destruct Hpos as [Ha Hb]. destruct (IHa Ha) as [[] ->]; [by eexists | by apply IHb].
Qed.

Lemma positive_call_monotone gene_ids f (x y : gmap string bool) :
  positive gene_ids f →
  (∀ k, k ∈ gene_ids → is_Some (y !! k)) →
  (∀ k, x !! k = Some true → y !! k = Some true) →
  Python.call f x = inr true → Python.call f y = inr true.
Proof.
  intros Hpos Hdom Hle. induction f as [s|b|k|a IHa|a IHa b IHb|a IHa b IHb];
    cbn [positive Python.call] in *; try done.
  - destruct (x !! k) as [[]|] eqn:Hx; try done. intros _. by rewrite (Hle k Hx).
  - destruct Hpos as [Ha Hb].
    destruct (Python.call a x) as [|[]] eqn:Hax; try done.
    intros Hbx. by rewrite IHa, IHb.
  - destruct Hpos as [Ha Hb].
    destruct (Python.call a x) as [|[]] eqn:Hax; try done.
    + intros _. by rewrite IHa.
    + intros Hbx. destruct (positive_call_total gene_ids a y Ha Hdom) as [[] ->];
        [done | by apply IHb].
Qed.
End gene_rules.

(** * The claims *)

Section claims.
Context {num : Type} `{!Number num}.
Implicit Types m : model num.

(** ** make_irreversible on the stoichiometric and constraint-based layers *)

(** C2 (as amended). On a well-formed model of the stoichiometric or
    constraint-based layer in which no reaction bears the id [<r>_f] or
    [<r>_b] of a reversible reaction [r], [make_irreversible] returns; after
    it every reaction [r] that was reversible is absent, [<r>_f] and [<r>_b]
    are present and irreversible, and the returned mapping maps exactly the
    reversible reaction ids, each to its pair [(<r>_f, <r>_b)]. *)
Theorem make_irreversible_splits m :
  cls m ≠ GPRConstrained → model_wf m → split_ids_fresh m →
  ∃ mapping m',
    make_irreversible m = Returned mapping m'
    ∧ (∀ r rx, OrderedDict.get r (reactions m) = Some rx →
         Reaction.reversible rx = true →
         OrderedDict.get r (reactions m') = None
         ∧ (∃ fwd, OrderedDict.get (r +:+ "_f") (reactions m') = Some fwd
                   ∧ Reaction.reversible fwd = false)
         ∧ (∃ bwd, OrderedDict.get (r +:+ "_b") (reactions m') = Some bwd
                   ∧ Reaction.reversible bwd = false))
    ∧ (∀ k ids, mapping !! k = Some ids ↔
         ids = (k +:+ "_f", k +:+ "_b")
         ∧ ∃ rx, OrderedDict.get k (reactions m) = Some rx
                 ∧ Reaction.reversible rx = true).
Proof.
  intros Hcls Hwf Hfresh.
  destruct (make_irreversible_spec m Hcls Hwf Hfresh)
    as (mapping & rs & st & bs & Hrun & Hrev & Hnone & Hirr).
  exists mapping, (rewired m rs st bs). split; [exact Hrun|].
  cbn [reactions rewired]. split.
  - intros r rx Hr Hx. destruct (Hrev r rx Hr Hx) as (_ & ? & ? & ? & _).
    split_and!; [done | by eexists | by eexists].
  - intros k ids. split.
    + intros Hk. destruct (OrderedDict.get k (reactions m)) as [rx|] eqn:Hr.
      * destruct (Reaction.reversible rx) eqn:Hx.
        -- destruct (Hrev k rx Hr Hx) as (Hm & _). split; [congruence | by eexists].
        -- rewrite Hnone in Hk; [done|]. intros rx' Hr'. congruence.
      * rewrite Hnone in Hk; [done|]. intros rx'. by rewrite Hr.
    + intros [-> (rx & Hr & Hx)]. by destruct (Hrev k rx Hr Hx) as (? & _).
Qed.

(** C3 (as amended). On a well-formed ConstraintBasedModel in which no
    reaction bears the id [<r>_f] or [<r>_b] of a reversible reaction [r],
    [make_irreversible] returns, and for every reversible reaction with
    bounds [(lb, ub)] before the call the bounds of [<r>_f] are [(0, ub)]
    afterwards and those of [<r>_b] are [(0, -lb)] when [lb] is a number
    and [(0, None)] when [lb] is [None]. *)
Theorem make_irreversible_bounds m :
  cls m = ConstraintBased → model_wf m → split_ids_fresh m →
  ∃ mapping m',
    make_irreversible m = Returned mapping m'
    ∧ ∀ r rx lb ub, OrderedDict.get r (reactions m) = Some rx →
        Reaction.reversible rx = true →
        OrderedDict.get r (bounds m) = Some (lb, ub) →
        OrderedDict.get (r +:+ "_f") (bounds m') = Some (Some zero, ub)
        ∧ OrderedDict.get (r +:+ "_b") (bounds m')
          = Some (Some zero, match lb with
                             | Some v => Some (neg v)
                             | None => None
                             end).
Proof.
  intros Hcls Hwf Hfresh.
  destruct (make_irreversible_spec m) as (mapping & rs & st & bs & Hrun & Hrev & _);
    [congruence | done..|].
  exists mapping, (rewired m rs st bs). split; [exact Hrun|].
  cbn [bounds rewired]. intros r rx lb ub Hr Hx Hb.
  destruct (Hrev r rx Hr Hx) as (_ & _ & _ & _ & _ & Hbd).
  destruct (Hbd Hcls _ Hb) as [-> ->]. by destruct lb.
Qed.

(** C4 (as amended). On a well-formed model of the stoichiometric or
    constraint-based layer in which no reaction bears the id [<r>_f] or
    [<r>_b] of a reversible reaction [r], [make_irreversible] returns, and
    for every edge [(a, r)] of coefficient [c] on a reversible reaction [r]
    the edge [(a, <r>_f)] has coefficient [c] and the edge [(a, <r>_b)] has
    coefficient [-c] afterwards. *)
Theorem make_irreversible_edges m :
  cls m ≠ GPRConstrained → model_wf m → split_ids_fresh m →
  ∃ mapping m',
    make_irreversible m = Returned mapping m'
    ∧ ∀ a r c rx, OrderedDict.get r (reactions m) = Some rx →
        Reaction.reversible rx = true →
        OrderedDict.get (a, r) (stoichiometry m) = Some c →
        OrderedDict.get (a, r +:+ "_f") (stoichiometry m') = Some c
        ∧ OrderedDict.get (a, r +:+ "_b") (stoichiometry m') = Some (neg c).
Proof.
  intros Hcls Hwf Hfresh.
  destruct (make_irreversible_spec m Hcls Hwf Hfresh)
    as (mapping & rs & st & bs & Hrun & Hrev & _).
  exists mapping, (rewired m rs st bs). split; [exact Hrun|].
  cbn [stoichiometry rewired]. intros a r c rx Hr Hx Hc.
  destruct (Hrev r rx Hr Hx) as (_ & _ & _ & _ & Hedge & _). by apply Hedge.
Qed.

(** C9 (as amended). On a well-formed model of the stoichiometric or
    constraint-based layer in which no reaction bears the id [<r>_f] or
    [<r>_b] of a reversible reaction [r], [make_irreversible] returns and
    leaves every irreversible reaction as it was: the reaction object, its
    edges, its bounds entry and the rule dictionaries are unchanged, and its
    id is not a key of the returned mapping. *)
Theorem make_irreversible_frame m :
  cls m ≠ GPRConstrained → model_wf m → split_ids_fresh m →
  ∃ mapping m',
    make_irreversible m = Returned mapping m'
    ∧ rules m' = rules m ∧ rule_functions m' = rule_functions m
    ∧ ∀ k rx, OrderedDict.get k (reactions m) = Some rx →
        Reaction.reversible rx = false →
        OrderedDict.get k (reactions m') = Some rx
        ∧ (∀ a, OrderedDict.get (a, k) (stoichiometry m')
                = OrderedDict.get (a, k) (stoichiometry m))
        ∧ OrderedDict.get k (bounds m') = OrderedDict.get k (bounds m)
        ∧ mapping !! k = None.
Proof.
  intros Hcls Hwf Hfresh.
  destruct (make_irreversible_spec m Hcls Hwf Hfresh)
    as (mapping & rs & st & bs & Hrun & _ & Hnone & Hirr).
  exists mapping, (rewired m rs st bs). split; [exact Hrun|].
  cbn [reactions stoichiometry bounds rules rule_functions rewired].
  split_and!; [done..|]. intros k rx Hr Hx.
  destruct (Hirr k rx Hr Hx) as (? & ? & ?). split_and!; [done..|].
  apply Hnone. intros rx' Hr'. congruence.
Qed.
End claims.

Ltac by_computation :=
  unfold model_wf, OrderedDict.wf, reactions_keyed, edges_bound,
    bounds_present, split_ids_fresh;
  repeat split; apply (bool_decide_unpack _); vm_compute; exact I.

Lemma toy_stoichiometric_wf : model_wf toy_stoichiometric.
Proof. by_computation. Defined.

Lemma toy_stoichiometric_fresh : split_ids_fresh toy_stoichiometric.
Proof. by_computation. Defined.

Lemma toy_constrained_wf : model_wf toy_constrained.
Proof. by_computation. Defined.

Lemma toy_constrained_fresh : split_ids_fresh toy_constrained.
Proof. by_computation. Defined.

(** C2, an instance: the scenario of the specification. *)
Lemma make_irreversible_splits_witness :
  cls toy_stoichiometric ≠ GPRConstrained
  ∧ model_wf toy_stoichiometric ∧ split_ids_fresh toy_stoichiometric
  ∧ ∃ mapping m',
      make_irreversible toy_stoichiometric = Returned mapping m'
      ∧ OrderedDict.get "R" (reactions m') = None
      ∧ mapping !! "R" = Some ("R_f", "R_b")
      ∧ mapping !! "EX_B" = None.
Proof.
  split_and!; [done | exact toy_stoichiometric_wf | exact toy_stoichiometric_fresh |].
  destruct (make_irreversible_splits toy_stoichiometric)
    as (mapping & m' & Hrun & Hsplit & Hmap);
    [done | exact toy_stoichiometric_wf | exact toy_stoichiometric_fresh |].
  exists mapping, m'. split_and!; [exact Hrun | | |].
  - by destruct (Hsplit "R" (Reaction.Reaction "R" (Some "conversion") true))
      as (? & _).
  - apply Hmap. split; [done|]. by eexists.
  - destruct (mapping !! "EX_B") as [ids|] eqn:Hk; [|done].
    apply Hmap in Hk as (_ & rx & Hr & Hx). by injection Hr as <-.
Defined.

(** C2, as stated, fails where the id of the forward half is taken: R and
    R_f are reversible, and after the call no reaction R_f exists. *)
Lemma make_irreversible_forward_id_clash :
  model_wf clash_reversible
  ∧ ∃ mapping m',
      make_irreversible clash_reversible = Returned mapping m'
      ∧ OrderedDict.get "R" (reactions clash_reversible)
        = Some (Reaction.Reaction "R" (Some "exchange") true)
      ∧ OrderedDict.get ("R" +:+ "_f") (reactions m') = None.
Proof.
  split; [by_computation|].
  eexists _, _. split; [vm_compute; reflexivity|]. split; vm_compute; reflexivity.
Qed.

(** C3, an instance: bounds (-10, 10) become (0, 10) and (0, 10). *)
Lemma make_irreversible_bounds_witness :
  cls toy_constrained = ConstraintBased
  ∧ model_wf toy_constrained ∧ split_ids_fresh toy_constrained
  ∧ ∃ mapping m',
      make_irreversible toy_constrained = Returned mapping m'
      ∧ OrderedDict.get "R_f" (bounds m') = Some (Some 0%Z, Some 10%Z)
      ∧ OrderedDict.get "R_b" (bounds m') = Some (Some 0%Z, Some 10%Z).
Proof.
  split_and!; [done | exact toy_constrained_wf | exact toy_constrained_fresh |].
  destruct (make_irreversible_bounds toy_constrained)
    as (mapping & m' & Hrun & Hb);
    [done | exact toy_constrained_wf | exact toy_constrained_fresh |].
  exists mapping, m'. split; [exact Hrun|].
  by apply (Hb "R" (Reaction.Reaction "R" (Some "conversion") true)
              (Some (-10)%Z) (Some 10%Z)).
Defined.

(** C3, as stated, fails where the id of the forward half is taken: R has
    bounds (-10, 10), and after the call R_f has no bounds entry. *)
Lemma make_irreversible_bounds_id_clash :
  model_wf clash_constrained
  ∧ ∃ mapping m',
      make_irreversible clash_constrained = Returned mapping m'
      ∧ OrderedDict.get "R" (reactions clash_constrained)
        = Some (Reaction.Reaction "R" (Some "exchange") true)
      ∧ OrderedDict.get "R" (bounds clash_constrained)
        = Some (Some (-10)%Z, Some 10%Z)
      ∧ OrderedDict.get ("R" +:+ "_f") (bounds m') = None.
Proof.
  split; [by_computation|].
  eexists _, _. split; [vm_compute; reflexivity|]. repeat split; vm_compute; reflexivity.
Qed.

(** C4, an instance: the edges of R are copied to R_f and negated on R_b. *)
Lemma make_irreversible_edges_witness :
  cls toy_constrained ≠ GPRConstrained
  ∧ model_wf toy_constrained ∧ split_ids_fresh toy_constrained
  ∧ ∃ mapping m',
      make_irreversible toy_constrained = Returned mapping m'
      ∧ OrderedDict.get ("A", "R_f") (stoichiometry m') = Some (-1)%Z
      ∧ OrderedDict.get ("A", "R_b") (stoichiometry m') = Some 1%Z
      ∧ OrderedDict.get ("B", "R_f") (stoichiometry m') = Some 1%Z
      ∧ OrderedDict.get ("B", "R_b") (stoichiometry m') = Some (-1)%Z.
Proof.
  split_and!; [done | exact toy_constrained_wf | exact toy_constrained_fresh |].
  destruct (make_irreversible_edges toy_constrained)
    as (mapping & m' & Hrun & He);
    [done | exact toy_constrained_wf | exact toy_constrained_fresh |].
  exists mapping, m'. split; [exact Hrun|].
  destruct (He "A" "R" (-1)%Z (Reaction.Reaction "R" (Some "conversion") true))
    as [? ?]; [done..|].
  destruct (He "B" "R" 1%Z (Reaction.Reaction "R" (Some "conversion") true))
    as [? ?]; [done..|].
  done.
Defined.

(** C4, as stated, fails where the id of the forward half is taken: the
    edge (A, R) has coefficient -1, and after the call there is no edge
    (A, R_f). *)
Lemma make_irreversible_edges_id_clash :
  model_wf clash_reversible
  ∧ ∃ mapping m',
      make_irreversible clash_reversible = Returned mapping m'
      ∧ OrderedDict.get "R" (reactions clash_reversible)
        = Some (Reaction.Reaction "R" (Some "exchange") true)
      ∧ OrderedDict.get ("A", "R") (stoichiometry clash_reversible)
        = Some (-1)%Z
      ∧ OrderedDict.get ("A", "R" +:+ "_f") (stoichiometry m') = None.
Proof.
  split; [by_computation|].
  eexists _, _. split; [vm_compute; reflexivity|]. repeat split; vm_compute; reflexivity.
Qed.

(** C9, an instance: the irreversible reaction EX_B is left as it was. *)
Lemma make_irreversible_frame_witness :
  cls toy_constrained ≠ GPRConstrained
  ∧ model_wf toy_constrained ∧ split_ids_fresh toy_constrained
  ∧ ∃ mapping m',
      make_irreversible toy_constrained = Returned mapping m'
      ∧ OrderedDict.get "EX_B" (reactions m')
        = Some (Reaction.Reaction "EX_B" (Some "export") false)
      ∧ OrderedDict.get ("B", "EX_B") (stoichiometry m') = Some (-1)%Z
      ∧ OrderedDict.get "EX_B" (bounds m') = Some (Some 0%Z, None)
      ∧ mapping !! "EX_B" = None.
Proof.
  split_and!; [done | exact toy_constrained_wf | exact toy_constrained_fresh |].
  destruct (make_irreversible_frame toy_constrained)
    as (mapping & m' & Hrun & _ & _ & Hf);
    [done | exact toy_constrained_wf | exact toy_constrained_fresh |].
  exists mapping, m'. split; [exact Hrun|].
  destruct (Hf "EX_B" (Reaction.Reaction "EX_B" (Some "export") false))
    as (-> & Hst & -> & ->); [done..|].
  by rewrite Hst.
Defined.

(** C9, as stated, fails where an irreversible reaction bears the id of a
    forward half: the irreversible R_f is replaced by the forward half of R
    and acquires the edge (A, R_f). *)
Lemma make_irreversible_frame_id_clash :
  model_wf clash_irreversible
  ∧ ∃ mapping m',
      make_irreversible clash_irreversible = Returned mapping m'
      ∧ OrderedDict.get "R_f" (reactions clash_irreversible)
        = Some (Reaction.Reaction "R_f" (Some "transport") false)
      ∧ OrderedDict.get "R_f" (reactions m')
        = Some (Reaction.Reaction "R_f" (Some "exchange") false)
      ∧ OrderedDict.get ("A", "R_f") (stoichiometry clash_irreversible) = None
      ∧ OrderedDict.get ("A", "R_f") (stoichiometry m') = Some (-1)%Z.
Proof.
  split; [by_computation|].
  eexists _, _. split; [vm_compute; reflexivity|]. repeat split; vm_compute; reflexivity.
Qed.

(** ** make_irreversible on the gene-rule layer *)

(** C1. The copy of the rule is never made: on the GPRConstrainedModel of
    the example, whose reversible reaction R has the rule
    [g1 and (g2 or g3)], [make_irreversible] raises AttributeError at
    [model.add_rule]; R_f and R_b are left with the empty rule that
    [add_reaction] gave them, and R itself is still a reaction. *)
Theorem make_irreversible_gpr_attribute_error :
  ∃ m',
    make_irreversible toy_gpr = Raised AttributeError m'
    ∧ OrderedDict.get "R" (rules toy_gpr) = Some (Some "g1 and (g2 or g3)")
    ∧ OrderedDict.get "R_f" (rules m') = Some None
    ∧ OrderedDict.get "R_b" (rules m') = Some None
    ∧ OrderedDict.get "R_f" (rule_functions m') = Some (Python.Const true)
    ∧ OrderedDict.mem "R" (reactions m') = true.
Proof.
  eexists. split; [vm_compute; reflexivity|].
  repeat split; vm_compute; reflexivity.
Qed.

(** ** Removal of reactions *)

(** C5. [remove_reactions] is not atomic below the stoichiometric layer:
    with an id list naming the reaction R and the unknown id X, the call on
    the ConstraintBasedModel of the example raises KeyError after R, its
    edges and its bounds were removed, and the call on the
    GPRConstrainedModel raises KeyError after R, its edges and its bounds
    were removed while its rule stays. *)
Theorem remove_reactions_partial_on_unknown_id :
  (∃ m',
     remove_reactions ["R"; "X"] toy_constrained = Raised KeyError m'
     ∧ OrderedDict.mem "R" (reactions toy_constrained) = true
     ∧ OrderedDict.mem "R" (reactions m') = false
     ∧ OrderedDict.mem ("A", "R") (stoichiometry m') = false
     ∧ OrderedDict.mem "R" (bounds m') = false)
  ∧ (∃ m',
       remove_reactions ["R"; "X"] toy_gpr = Raised KeyError m'
       ∧ OrderedDict.mem "R" (reactions m') = false
       ∧ OrderedDict.mem "R" (bounds m') = false
       ∧ OrderedDict.mem "R" (rules m') = true
       ∧ OrderedDict.mem "R" (rule_functions m') = true).
Proof.
  split; (eexists; split; [vm_compute; reflexivity|];
          repeat split; vm_compute; reflexivity).
Qed.

Section bounds_and_compartments.
Context {num : Type}.
Implicit Types m : model num.

(** ** Partial updates of bounds *)

(** C8 (as amended). For an id that is a reaction of the model,
    [set_lower_bound] and [set_upper_bound] raise KeyError, leaving the
    model as it was, when the reaction has no bounds entry; when it has one
    they replace that side of the pair, keep the other side and keep every
    other entry. For an id that is not a reaction of the model both return
    without changing the model. *)
Theorem set_bound_one_side m (r : string) (v : option num) :
  (OrderedDict.mem r (reactions m) = false →
     ConstraintBasedModel.set_lower_bound r v m = Returned () m
     ∧ ConstraintBasedModel.set_upper_bound r v m = Returned () m)
  ∧ (OrderedDict.mem r (reactions m) = true →
     OrderedDict.get r (bounds m) = None →
     ConstraintBasedModel.set_lower_bound r v m = Raised KeyError m
     ∧ ConstraintBasedModel.set_upper_bound r v m = Raised KeyError m)
  ∧ (OrderedDict.mem r (reactions m) = true →
     ∀ lb ub, OrderedDict.get r (bounds m) = Some (lb, ub) →
     ∃ lower upper,
       ConstraintBasedModel.set_lower_bound r v m
       = Returned () (with_bounds (λ _, lower) m)
       ∧ ConstraintBasedModel.set_upper_bound r v m
         = Returned () (with_bounds (λ _, upper) m)
       ∧ OrderedDict.get r lower = Some (v, ub)
       ∧ OrderedDict.get r upper = Some (lb, v)
       ∧ ∀ k, k ≠ r →
           OrderedDict.get k lower = OrderedDict.get k (bounds m)
           ∧ OrderedDict.get k upper = OrderedDict.get k (bounds m)).
Proof.
  unfold ConstraintBasedModel.set_lower_bound,
    ConstraintBasedModel.set_upper_bound, bind, self, when, subscript.
  split_and!.
  - by intros ->.
  - by intros -> ->.
  - intros -> lb ub ->.
    exists (OrderedDict.set r (v, ub) (bounds m)),
      (OrderedDict.set r (lb, v) (bounds m)).
    split_and!; [done | done | apply od_get_set_eq | apply od_get_set_eq |].
    intros k Hne. by rewrite !od_get_set_ne.
Qed.

(** ** Removal of a compartment without its metabolites *)

(** C10. [remove_compartment(c, delete_metabolites=False)] returns with
    only the compartment dictionary changed: [c] is no longer a key of it
    and every other compartment is kept, while metabolites, reactions and
    stoichiometry (and every other attribute) are as before. A metabolite
    assigned to [c] is therefore still in the model and names a compartment
    that is absent: the condition that [add_metabolite] tests no longer
    holds of the model. *)
Theorem remove_compartment_keeps_metabolites m (c : string) :
  ∃ m',
    StoichiometricModel.remove_compartment c false m = Returned () m'
    ∧ cls m' = cls m ∧ model_id m' = model_id m
    ∧ metabolites m' = metabolites m ∧ reactions m' = reactions m
    ∧ stoichiometry m' = stoichiometry m ∧ bounds m' = bounds m
    ∧ genes m' = genes m ∧ rules m' = rules m
    ∧ rule_functions m' = rule_functions m
    ∧ OrderedDict.get c (compartments m') = None
    ∧ (∀ k, k ≠ c →
         OrderedDict.get k (compartments m') = OrderedDict.get k (compartments m))
    ∧ (∀ k x, OrderedDict.get k (metabolites m) = Some x →
         Metabolite.compartment x = Some c → c ≠ "" →
         OrderedDict.get k (metabolites m') = Some x
         ∧ ¬ compartments_resolved m').
Proof.
  exists (with_compartments (OrderedDict.del c) m).
  split_and!; try done.
  - unfold StoichiometricModel.remove_compartment, bind, self, when, update, ret.
    destruct (OrderedDict.mem c (compartments m)) eqn:Hm; [done|].
    apply od_mem_false in Hm. destruct m. unfold with_compartments.
    model_simpl. by rewrite od_del_absent.
  - apply od_get_del_eq.
  - intros k Hne. by apply od_get_del_ne.
  - intros k x Hk Hc Hne. split; [done|].
    intros Hres. unfold compartments_resolved in Hres.
    rewrite Forall_forall in Hres.
    destruct (Hres (k, x)) as (c' & Hc' & Hmem).
    + by apply od_get_Some_items.
    + cbn [snd]. rewrite Hc. cbn. by rewrite bool_decide_eq_false_2.
    + cbn [snd] in Hc'. assert (c' = c) as -> by congruence.
      apply od_mem_get in Hmem as [? Hget]. cbn in Hget.
      by rewrite od_get_del_eq in Hget.
Qed.
End bounds_and_compartments.

(** C8, an instance: among the bounds (-10, 10) of R the lower one is
    replaced. *)
Lemma set_bound_one_side_witness :
  OrderedDict.mem "R" (reactions toy_constrained) = true
  ∧ OrderedDict.get "R" (bounds toy_constrained) = Some (Some (-10)%Z, Some 10%Z)
  ∧ ∃ lower,
      ConstraintBasedModel.set_lower_bound "R" (Some 0%Z) toy_constrained
      = Returned () (with_bounds (λ _, lower) toy_constrained)
      ∧ OrderedDict.get "R" lower = Some (Some 0%Z, Some 10%Z)
      ∧ OrderedDict.get "EX_B" lower = Some (Some 0%Z, None).
Proof.
  split_and!; [done..|].
  destruct (set_bound_one_side toy_constrained "R" (Some 0%Z)) as (_ & _ & Hset).
  destruct (Hset eq_refl (Some (-10)%Z) (Some 10%Z) eq_refl)
    as (lower & upper & Hl & _ & Hr & _ & Hother).
  exists lower. split_and!; [exact Hl | exact Hr |].
  by destruct (Hother "EX_B") as [-> _].
Defined.

(** C8, as stated, fails for an id that is not a reaction of the model: X
    has no bounds entry, and [set_lower_bound] and [set_upper_bound] return
    without raising. *)
Lemma set_bound_unknown_id_returns :
  OrderedDict.get "X" (bounds toy_constrained) = None
  ∧ ConstraintBasedModel.set_lower_bound "X" (Some 1%Z) toy_constrained
    = Returned () toy_constrained
  ∧ ConstraintBasedModel.set_upper_bound "X" (Some 1%Z) toy_constrained
    = Returned () toy_constrained.
Proof. repeat split; vm_compute; reflexivity. Qed.

(** C10, an instance: the cytosol is removed and metabolite A still names
    it. *)
Lemma remove_compartment_keeps_metabolites_witness :
  compartments_resolved toy_compartment
  ∧ ∃ m',
      StoichiometricModel.remove_compartment "cytosol" false toy_compartment
      = Returned () m'
      ∧ OrderedDict.get "A" (metabolites m')
        = Some (Metabolite.Metabolite "A" None (Some "cytosol"))
      ∧ OrderedDict.get "cytosol" (compartments m') = None
      ∧ ¬ compartments_resolved m'.
Proof.
  split.
  - unfold compartments_resolved. repeat constructor. intros _.
    exists "cytosol". by split.
  - destruct (remove_compartment_keeps_metabolites toy_compartment "cytosol")
      as (m' & Hrun & _ & _ & _ & _ & _ & _ & _ & _ & _ & Hgone & _ & Hmet).
    exists m'. split; [exact Hrun|].
    destruct (Hmet "A" (Metabolite.Metabolite "A" None (Some "cytosol")))
      as [? ?]; done.
Defined.

(** ** Evaluation of gene rules *)

#[export] Instance positive_dec gene_ids f : Decision (positive gene_ids f).
Proof. induction f; cbn [positive]; apply _. Defined.

Lemma compiled_from_unset gene_ids (rule : option string) f :
  truthy rule = false → compiled_from gene_ids rule f → f = Python.Const true.
Proof.
  unfold compiled_from, GPRConstrainedModel.rule_source.
  intros Hrule. destruct rule as [text|]; rewrite ?Hrule;
    vm_compute; congruence.
Qed.

Section gene_rule_claims.
Context {num : Type}.
Implicit Types m : model num.

(** [set_rule] keeps [rules] and [rule_functions] in step. *)
Lemma set_rule_in_sync m (r : string) (rule : option string) m' :
  rules_in_sync m →
  GPRConstrainedModel.set_rule r rule m = Returned () m' →
  rules_in_sync m'.
Proof.
  intros Hsync. unfold GPRConstrainedModel.set_rule, bind, self, when.
  destruct (OrderedDict.mem r (reactions m)); [|by intros [= <-]].
  unfold update at 1, GPRConstrainedModel._rule_to_function, bind, self.
  cbn [genes with_rules].
  destruct (Python.eval _) as [f|] eqn:Hf; [|done].
  unfold ret, update. intros [= <-]. intros r0 rule0.
  cbn [rules rule_functions with_rules with_rule_functions].
  rewrite !od_get_set. case_decide.
  - intros [= <-]. by exists (OrderedDict.keys (genes m)), f.
  - apply Hsync.
Qed.

(** C6. [eval_GPR] evaluates the compiled predicates against the
    dictionary that holds, for each gene id of the model and for no other
    key, whether the id is among the active genes; when it returns, the
    model is unchanged and the result lists, in the order of
    [rule_functions], exactly the reaction ids whose predicate returns
    [True]; it returns whenever no predicate raises; and a reaction whose
    rule is [None] or [''] is in every result. *)
Theorem eval_GPR_spec m (active_genes : list string) :
  (∀ g, GPRConstrainedModel.genes_state (OrderedDict.keys (genes m)) active_genes !! g
        = if decide (g ∈ OrderedDict.keys (genes m))
          then Some (bool_decide (g ∈ active_genes)) else None)
  ∧ (∀ rs m', GPRConstrainedModel.eval_GPR active_genes m = Returned rs m' →
       m' = m
       ∧ rs = (List.filter
                 (λ rf, Python.holds rf.2
                          (GPRConstrainedModel.genes_state
                             (OrderedDict.keys (genes m)) active_genes))
                 (OrderedDict.items (rule_functions m))).*1)
  ∧ ((∀ r f, (r, f) ∈ OrderedDict.items (rule_functions m) →
        ∃ b, Python.call f
               (GPRConstrainedModel.genes_state
                  (OrderedDict.keys (genes m)) active_genes) = inr b) →
     ∃ rs, GPRConstrainedModel.eval_GPR active_genes m = Returned rs m)
  ∧ (rules_in_sync m →
     ∀ r rule rs m', OrderedDict.get r (rules m) = Some rule →
       truthy rule = false →
       GPRConstrainedModel.eval_GPR active_genes m = Returned rs m' →
       r ∈ rs).
Proof.
  set (state := GPRConstrainedModel.genes_state _ _).
  assert (Hret : ∀ rs m',
    GPRConstrainedModel.eval_GPR active_genes m = Returned rs m' →
    m' = m
    ∧ rs = (List.filter (λ rf, Python.holds rf.2 state)
              (OrderedDict.items (rule_functions m))).*1).
  { intros rs m'. unfold GPRConstrainedModel.eval_GPR, bind, self.
    fold state.
    destruct (GPRConstrainedModel.active_reactions _ state) as [e|rs0] eqn:Hact;
      [done|].
    intros [= <- <-]. split; [done|].
    by destruct (active_reactions_returns _ _ _ Hact) as [_ ->]. }
  split_and!.
  - intros g. apply genes_state_lookup.
  - exact Hret.
  - intros Hcalls. unfold GPRConstrainedModel.eval_GPR, bind, self. fold state.
    destruct (active_reactions_total (OrderedDict.items (rule_functions m)) state)
      as [rs ->]; [|by eexists].
    apply Forall_forall. intros [r f] Hin. by apply (Hcalls r f).
  - intros Hsync r rule rs m' Hr Hunset Hrun.
    destruct (Hret rs m' Hrun) as [_ ->].
    destruct (Hsync r rule Hr) as (gene_ids & f & Hf & Hrf).
    apply (compiled_from_unset _ _ _ Hunset) in Hf as ->.
    apply list_elem_of_fmap. exists (r, Python.Const true). split; [done|].
    apply list_elem_of_In, filter_In. split; [|done].
    apply list_elem_of_In. by apply od_get_Some_items.
Qed.

(** C7. In a model whose compiled rules combine lookups of its genes with
    [and] and [or] only, [eval_GPR] returns for every set of active genes,
    and a larger set never loses a reaction: for active sets [A] included
    in [B], every reaction id of [eval_GPR(A)] is in [eval_GPR(B)]. *)
Theorem eval_GPR_monotone m (A B : list string) :
  positive_rules m → (∀ g, g ∈ A → g ∈ B) →
  ∃ ra rb,
    GPRConstrainedModel.eval_GPR A m = Returned ra m
    ∧ GPRConstrainedModel.eval_GPR B m = Returned rb m
    ∧ ∀ r, r ∈ ra → r ∈ rb.
Proof.
  intros Hpos Hsub.
  set (ids := OrderedDict.keys (genes m)).
  assert (Hdom : ∀ C k, k ∈ ids →
            is_Some (GPRConstrainedModel.genes_state ids C !! k)).
  { intros C k Hk. rewrite genes_state_lookup, decide_True by done. by eexists. }
  assert (Hle : ∀ k, GPRConstrainedModel.genes_state ids A !! k = Some true →
                     GPRConstrainedModel.genes_state ids B !! k = Some true).
  { intros k. rewrite !genes_state_lookup. case_decide; [|done].
    intros [= HA%bool_decide_eq_true_1]. f_equal.
    apply bool_decide_eq_true_2. by apply Hsub. }
  unfold positive_rules in Hpos. rewrite Forall_forall in Hpos.
  destruct (eval_GPR_spec m A) as (_ & HretA & HtotA & _).
  destruct (eval_GPR_spec m B) as (_ & HretB & HtotB & _).
  destruct HtotA as [ra HA].
  { intros r f Hin. eapply positive_call_total; [apply (Hpos (r, f) Hin) | apply Hdom]. }
  destruct HtotB as [rb HB].
  { intros r f Hin. eapply positive_call_total; [apply (Hpos (r, f) Hin) | apply Hdom]. }
  exists ra, rb. split_and!; [done..|].
  destruct (HretA ra m HA) as [_ ->]. destruct (HretB rb m HB) as [_ ->].
  intros r ([r' f] & -> & Hin)%list_elem_of_fmap.
  apply list_elem_of_In, filter_In in Hin as [Hin Hholds].
  apply list_elem_of_fmap. exists (r', f). split; [done|].
  apply list_elem_of_In, filter_In. split; [done|].
  cbn [snd] in *. unfold Python.holds in *. fold ids in Hholds |- *.
  destruct (Python.call f (GPRConstrainedModel.genes_state ids A))
    as [|[]] eqn:HfA; try done.
  rewrite (positive_call_monotone ids f _ _ (Hpos (r', f) ltac:(by apply list_elem_of_In))
             (Hdom B) Hle HfA). done.
Qed.
End gene_rule_claims.

Lemma toy_gpr_in_sync : rules_in_sync toy_gpr.
Proof.
  intros r rule Hr%od_get_Some_items. unfold compiled_from.
  repeat (apply elem_of_cons in Hr as [[= -> ->]|Hr];
          [exists ["g1"; "g2"; "g3"]; eexists; split; vm_compute; reflexivity|]).
  by apply elem_of_nil in Hr.
Defined.

(** C6, an instance: with g1 and g3 active both reactions of the example
    are active; EX_B, which has no rule, is among them. *)
Lemma eval_GPR_spec_witness :
  rules_in_sync toy_gpr
  ∧ OrderedDict.get "EX_B" (rules toy_gpr) = Some None
  ∧ ∃ rs,
      GPRConstrainedModel.eval_GPR ["g1"; "g3"] toy_gpr = Returned rs toy_gpr
      ∧ "EX_B" ∈ rs.
Proof.
  split_and!; [exact toy_gpr_in_sync | done |].
  destruct (eval_GPR_spec toy_gpr ["g1"; "g3"]) as (_ & _ & Htotal & Hunset).
  destruct Htotal as [rs Hrs].
  { intros r f Hin. cbn in Hin.
    repeat (apply elem_of_cons in Hin as [[= -> ->]|Hin]; [by eexists|]).
    by apply elem_of_nil in Hin. }
  exists rs. split; [exact Hrs|].
  by apply (Hunset toy_gpr_in_sync "EX_B" None rs toy_gpr).
Defined.

(** C7, an instance: activating g3 besides g1 keeps every active reaction
    and adds R. *)
Lemma eval_GPR_monotone_witness :
  positive_rules toy_gpr
  ∧ (∀ g : string, g ∈ ["g1"] → g ∈ ["g1"; "g3"])
  ∧ ∃ ra rb,
      GPRConstrainedModel.eval_GPR ["g1"] toy_gpr = Returned ra toy_gpr
      ∧ GPRConstrainedModel.eval_GPR ["g1"; "g3"] toy_gpr = Returned rb toy_gpr
      ∧ ∀ r, r ∈ ra → r ∈ rb.
Proof.
  assert (Hpos : positive_rules toy_gpr).
  { unfold positive_rules. apply (bool_decide_unpack _). vm_compute. exact I. }
  assert (Hsub : ∀ g : string, g ∈ ["g1"] → g ∈ ["g1"; "g3"]).
  { intros g ->%list_elem_of_singleton. apply list_elem_of_here. }
  split_and!; [exact Hpos | exact Hsub |].
  exact (eval_GPR_monotone toy_gpr ["g1"] ["g1"; "g3"] Hpos Hsub).
Defined.

(** * Further properties *)

(** ** Names of a rule text and the compiled predicate *)

Section lexical.

Lemma flush_elem (acc w : string) : w ≠ "" → w = acc → w ∈ flush acc.
Proof. intros Hw <-. destruct w; [done|]. apply list_elem_of_here. Qed.

Lemma names_from_nonident (acc : string) c s :
  Python.is_ident c = false →
  names_from acc (String c s) = flush acc ++ names_from "" s.
Proof. intros Hc. cbn [names_from]. by rewrite Hc. Qed.

Lemma lex_between_spec c ts mode :
  Python.lex_between c = Some (ts, mode) →
  (∀ w, Python.TName w ∉ ts)
  ∧ match mode with
    | Python.Between | Python.InStr _ => Python.is_ident c = false
    | Python.InName acc => Python.is_ident c = true ∧ acc = String c ""
    end.
Proof.
  unfold Python.lex_between.
  repeat (match goal with
          | |- context [bool_decide (c = ?d)] =>
              destruct (bool_decide_reflect (c = d)) as [->|?]
          end; cbn [orb];
          [intros [= <- <-]; split; [intros w Hx; repeat (apply elem_of_cons in Hx as [?|Hx]; [done|]);
              by apply elem_of_nil in Hx | reflexivity]|]).
  destruct (Python.is_ident c) eqn:Hc; [|done].
  intros [= <- <-]. split; [intros w Hx; repeat (apply elem_of_cons in Hx as [?|Hx]; [done|]);
              by apply elem_of_nil in Hx | done].
Qed.

Lemma lex_names (s : string) : ∀ mode ts w,
  Python.lex mode s = Some ts → w ≠ "" → Python.TName w ∈ ts →
  match mode with
  | Python.Between => w ∈ names_from "" s
  | Python.InName acc => w ∈ names_from acc s
  | Python.InStr _ => ∀ a, w ∈ names_from a s
  end.
Proof.
  induction s as [|c s IH]; intros mode ts w Hlex Hw Hin.
  - destruct mode as [|acc|acc]; cbn in Hlex; simplify_eq.
    + by apply elem_of_nil in Hin.
    + apply list_elem_of_singleton in Hin as [= ->]. by apply flush_elem.
  - destruct mode as [|acc|acc]; cbn [Python.lex] in Hlex.
    + destruct (Python.lex_between c) as [[ts0 mode']|] eqn:Hb; [|done].
      destruct (Python.lex mode' s) as [rest|] eqn:Hrest; [|done].
      cbn in Hlex. simplify_eq.
      apply lex_between_spec in Hb as [Hno Hmode].
      apply elem_of_app in Hin as [Hin|Hin]; [by apply Hno in Hin|].
      specialize (IH mode' rest w Hrest Hw Hin).
      destruct mode' as [|acc'|acc'].
      * rewrite names_from_nonident by done. by apply elem_of_app; right.
      * destruct Hmode as [Hc ->]. cbn [names_from]. by rewrite Hc.
      * rewrite names_from_nonident by done. apply elem_of_app; right. apply IH.
    + destruct (Python.is_ident c) eqn:Hc.
      * cbn [names_from]. rewrite Hc. by apply (IH (Python.InName _) ts).
      * destruct (Python.lex_between c) as [[ts0 mode']|] eqn:Hb; [|done].
        destruct (Python.lex mode' s) as [rest|] eqn:Hrest; [|done].
        cbn in Hlex. simplify_eq.
        apply lex_between_spec in Hb as [Hno Hmode].
        rewrite names_from_nonident by done.
        apply elem_of_cons in Hin as [[= ->]|Hin].
        { apply elem_of_app; left. by apply flush_elem. }
        apply elem_of_app in Hin as [Hin|Hin]; [by apply Hno in Hin|].
        specialize (IH mode' rest w Hrest Hw Hin).
        apply elem_of_app; right.
        destruct mode' as [|acc'|acc']; [done| |apply IH].
        destruct Hmode as [Hc' _]. congruence.
    + intros a.
      destruct (bool_decide_reflect (c = "'"%char)) as [->|Hq].
      * destruct (Python.lex Python.Between s) as [rest|] eqn:Hrest; [|done].
        cbn in Hlex. simplify_eq.
        apply elem_of_cons in Hin as [[=]|Hin].
        rewrite names_from_nonident by done. apply elem_of_app; right.
        by apply (IH Python.Between rest).
      * destruct (bool_decide _ || bool_decide _); [done|].
        pose proof (IH (Python.InStr _) ts w Hlex Hw Hin) as Hall.
        cbn [names_from]. destruct (Python.is_ident c).
        -- apply Hall.
        -- apply elem_of_app; right. apply Hall.
Qed.
End lexical.

Section parser_facts.

Lemma parse_no_not (n : nat) :
  parser_keeps_no_not (Python.parse_or n)
  ∧ parser_keeps_no_not (Python.parse_and n)
  ∧ parser_keeps_no_not (Python.parse_not n)
  ∧ parser_keeps_no_not (Python.parse_atom n).
Proof.
  unfold parser_keeps_no_not.
  induction n as [|n (IHor & IHand & IHnot & IHatom)]; [by split_and!|].
  split_and!; intros ts e rest Hp Hno; cbn in Hp.
  - (* or_test *)
    destruct (Python.parse_and n ts) as [[a ts1]|] eqn:Ha; [|done].
    destruct (IHand _ _ _ Ha Hno) as [Hna Hsub1].
    destruct ts1 as [|[s| | | | |] ts1]; simplify_eq; try done.
    case_bool_decide; simplify_eq; [|done].
    destruct (Python.parse_or n ts1) as [[b ts2]|] eqn:Hb; simplify_eq.
    destruct (IHor _ _ _ Hb) as [Hnb Hsub2].
    { intros Hin. apply Hno, Hsub1. by apply list_elem_of_further. }
    split; [done|]. intros t Ht. apply Hsub1. apply list_elem_of_further. by apply Hsub2.
  - (* and_test *)
    destruct (Python.parse_not n ts) as [[a ts1]|] eqn:Ha; [|done].
    destruct (IHnot _ _ _ Ha Hno) as [Hna Hsub1].
    destruct ts1 as [|[s| | | | |] ts1]; simplify_eq; try done.
    case_bool_decide; simplify_eq; [|done].
    destruct (Python.parse_and n ts1) as [[b ts2]|] eqn:Hb; simplify_eq.
    destruct (IHand _ _ _ Hb) as [Hnb Hsub2].
    { intros Hin. apply Hno, Hsub1. by apply list_elem_of_further. }
    split; [done|]. intros t Ht. apply Hsub1. apply list_elem_of_further. by apply Hsub2.
  - (* not_test *)
    destruct ts as [|[s| | | | |] ts]; try by apply IHatom.
    case_bool_decide; [|by apply IHatom]. subst s.
    exfalso. apply Hno. apply list_elem_of_here.
  - (* atom *)
    destruct ts as [|[s| | | | |] ts]; try done.
    + repeat case_bool_decide; simplify_eq.
      * destruct ts as [|[| | | | |] [|[| | | | |] [|[| | | | |] ts]]]; simplify_eq.
        split; [done|]. intros t Ht. by do 4 apply list_elem_of_further.
      * split; [done|]. intros t Ht. by apply list_elem_of_further.
      * split; [done|]. intros t Ht. by apply list_elem_of_further.
      * destruct (Python.free_name s); simplify_eq.
        split; [done|]. intros t Ht. by apply list_elem_of_further.
    + destruct (Python.parse_or n ts) as [[e' ts1]|] eqn:He; [|done].
      destruct (IHor _ _ _ He) as [Hne Hsub].
      { intros Hin. apply Hno. by apply list_elem_of_further. }
      destruct ts1 as [|[| | | | |] ts1]; simplify_eq.
      split; [done|]. intros t Ht. apply list_elem_of_further, Hsub.
      by apply list_elem_of_further.
Qed.

Lemma eval_no_not (src : string) f :
  Python.eval ("lambda x: " +:+ src) = Some f →
  "not" ∉ rule_names src → no_not f.
Proof.
  unfold Python.eval.
  assert (Python.strip_prefix "lambda x: " ("lambda x: " +:+ src) = Some src)
    as -> by reflexivity.
  cbn [mbind option_bind].
  destruct (Python.lex Python.Between src) as [ts|] eqn:Hlex; [|done].
  cbn [mbind option_bind]. unfold Python.parse.
  destruct (Python.parse_or _ ts) as [[e rest]|] eqn:Hp; [|done].
  destruct rest; [|done]. intros [= <-] Hno.
  destruct (parse_no_not (4 * length ts + 4)) as (Hor & _).
  apply (Hor _ _ _ Hp). intros Hin. apply Hno.
  by apply (lex_names src Python.Between ts "not" Hlex).
Qed.
End parser_facts.

Section replace_facts.

Lemma string_app_nil (b : string) : "" +:+ b = b.
Proof. reflexivity. Qed.

Lemma string_app_cons c (a b : string) : String c a +:+ b = String c (a +:+ b).
Proof. reflexivity. Qed.

Lemma string_app_assoc (a b c : string) : (a +:+ b) +:+ c = a +:+ (b +:+ c).
Proof.
  induction a as [|x a IH]; rewrite ?string_app_cons, ?string_app_nil;
    [done | by f_equal].
Qed.

Lemma prefix_app (old s : string) :
  String.prefix old s = true → ∃ rest, s = old +:+ rest.
Proof.
  revert s. induction old as [|a old IH]; intros s;
    rewrite ?string_app_cons, ?string_app_nil; cbn [String.prefix].
  - intros _. by exists s.
  - destruct s as [|b s]; cbn [String.prefix]; [done|].
    destruct (ascii_dec a b) as [->|]; [|done].
    intros [rest ->]%IH. exists rest. by rewrite string_app_cons.
Qed.

Lemma prefix_app_true (old rest : string) : String.prefix old (old +:+ rest) = true.
Proof.
  induction old as [|a old IH]; rewrite ?string_app_cons, ?string_app_nil;
    cbn [String.prefix]; [by destruct rest|].
  destruct (ascii_dec a a); [exact IH | done].
Qed.

Lemma replace_from_skip (u old new rest : string) :
  Python.replace_from (String.length u) old new (u +:+ rest)
  = Python.replace old new rest.
Proof.
  induction u as [|c u IH]; rewrite ?string_app_cons, ?string_app_nil;
    cbn [String.length Python.replace_from]; [done | exact IH].
Qed.

Lemma replace_match (c : ascii) (old new rest : string) :
  Python.replace (String c old) new (String c old +:+ rest)
  = new +:+ Python.replace (String c old) new rest.
Proof.
  unfold Python.replace at 1. rewrite string_app_cons.
  cbn [Python.replace_from].
  pose proof (prefix_app_true (String c old) rest) as Hp.
  rewrite string_app_cons in Hp. rewrite Hp.
  replace (String.length (String c old) - 1) with (String.length old)
    by (cbn [String.length]; lia).
  by rewrite replace_from_skip.
Qed.

Lemma replace_no_match (c : ascii) (old new s : string) :
  String.prefix old (String c s) = false →
  Python.replace old new (String c s) = String c (Python.replace old new s).
Proof. intros Hp. unfold Python.replace. cbn [Python.replace_from]. by rewrite Hp. Qed.

Lemma names_from_app_nonident (v : string) c t acc :
  Python.is_ident c = false →
  names_from acc (v +:+ String c t) = names_from acc v ++ names_from "" t.
Proof.
  intros Hc. revert acc. induction v as [|d v IH]; intros acc.
  - rewrite string_app_nil. cbn [names_from]. by rewrite Hc.
  - rewrite string_app_cons. cbn [names_from].
    destruct (Python.is_ident d); [apply IH|]. by rewrite IH, app_assoc.
Qed.

Lemma names_from_delimited (u t acc : string) :
  delimited u →
  names_from acc (u +:+ t) = flush acc ++ rule_names u ++ names_from "" t.
Proof.
  unfold rule_names. intros [c Hc|c v d Hc Hd].
  - rewrite string_app_cons, string_app_nil. cbn [names_from]. by rewrite Hc.
  - rewrite string_app_cons. cbn [names_from]. rewrite Hc, string_app_assoc.
    rewrite string_app_cons, string_app_nil.
    rewrite !names_from_app_nonident by done.
    cbn [names_from flush]. by rewrite app_nil_r.
Qed.

Lemma delimited_nonempty u : delimited u → ∃ c u', u = String c u'.
Proof. intros [c ?|c v d ? ?]; by eexists _, _. Qed.

Lemma replace_names (old new : string) (Q : string → Prop) (w : string) :
  delimited old → delimited new →
  (w ∈ rule_names new → w ∈ rule_names old ∨ Q w) →
  ∀ s acc, w ∈ names_from acc (Python.replace old new s) →
           w ∈ names_from acc s ∨ Q w.
Proof.
  intros Hold Hnew HQ s.
  destruct (delimited_nonempty old Hold) as (c0 & old' & Heq).
  remember (String.length s) as n eqn:Hn. revert s Hn.
  induction (lt_wf n) as [n _ IH]. intros s Hn acc.
  destruct s as [|c s]; [intros Hw; left; exact Hw|].
  destruct (String.prefix old (String c s)) eqn:Hp.
  - destruct (prefix_app _ _ Hp) as [rest Hs]. rewrite Hs.
    rewrite Heq at 1 2. rewrite replace_match. rewrite <- Heq.
    rewrite !names_from_delimited by done.
    rewrite !elem_of_app. intros [?|[Hw|Hw]]; [by left; left| |].
    + destruct (HQ Hw) as [?|?]; [left; right; by left | by right].
    + destruct (IH (String.length rest)) with (s := rest) (acc := "") as [?|?];
        [|done|done|by left; right; right|by right].
      rewrite Hn, Hs, string_length_app, Heq. cbn [String.length]. lia.
  - rewrite replace_no_match by done. cbn [names_from].
    destruct (Python.is_ident c).
    + apply (IH (String.length s)); [subst n; cbn [String.length]; lia | done].
    + rewrite !elem_of_app. intros [?|Hw]; [by left; left|].
      destruct (IH (String.length s)) with (s := s) (acc := "") as [?|?];
        [subst n; cbn [String.length]; lia | done | done | by left; right | by right].
Qed.
End replace_facts.

Section rule_source_facts.

Lemma gene_pattern_delimited (g : string) : delimited (" " +:+ g +:+ " ").
Proof. rewrite string_app_cons, string_app_nil. by apply delimited_two. Qed.

Lemma gene_lookup_delimited (g : string) : delimited (" x['" +:+ g +:+ "'] ").
Proof.
  assert (" x['" +:+ g +:+ "'] " = String " " (("x['" +:+ g +:+ "']") +:+ String " " ""))
    as ->.
  { rewrite !string_app_cons, !string_app_nil. do 4 f_equal.
    rewrite string_app_assoc. by rewrite !string_app_cons, !string_app_nil. }
  by apply delimited_two.
Qed.

Lemma gene_lookup_names (g w : string) :
  w ∈ rule_names (" x['" +:+ g +:+ "'] ") →
  w ∈ rule_names (" " +:+ g +:+ " ") ∨ w = "x".
Proof.
  unfold rule_names. rewrite !string_app_cons, !string_app_nil.
  cbn [names_from]. change (Python.is_ident " ") with false.
  change (Python.is_ident "x") with true. change (Python.is_ident "[") with false.
  change (Python.is_ident "'") with false. cbn [flush app].
  change (Python.snoc "" "x"%char) with "x". cbn [flush app].
  rewrite !names_from_app_nonident by done.
  rewrite elem_of_cons, !elem_of_app. intros [->|[?|Hw]]; [by right | by left; left|].
  by vm_compute in Hw; apply elem_of_nil in Hw.
Qed.

Lemma substituted_names (gene_ids : list string) (w : string) : ∀ text,
  w ∈ rule_names
        (foldl (λ rule gene,
                  Python.replace (" " +:+ gene +:+ " ") (" x['" +:+ gene +:+ "'] ") rule)
           text gene_ids) →
  w ∈ rule_names text ∨ w = "x".
Proof.
  induction gene_ids as [|g gs IH]; intros text; cbn [foldl]; [by left|].
  intros [Hw|?]%IH; [|by right].
  apply (replace_names _ _ (λ w, w = "x") w) in Hw;
    [done | apply gene_pattern_delimited | apply gene_lookup_delimited
    | apply gene_lookup_names].
Qed.

Lemma padded_names (text w : string) :
  w ∈ rule_names (" " +:+ Python.replace ")" " )" (Python.replace "(" "( " text) +:+ " ") →
  w ∈ rule_names text.
Proof.
  unfold rule_names. rewrite string_app_cons, string_app_nil.
  cbn [names_from]. change (Python.is_ident " ") with false. cbn [flush app].
  rewrite names_from_app_nonident by done. cbn [names_from flush].
  rewrite app_nil_r. intros Hw.
  apply (replace_names _ _ (λ _, False) w) in Hw as [Hw|[]].
  - apply (replace_names _ _ (λ _, False) w) in Hw as [Hw|[]]; [done| | |].
    + by apply delimited_one.
    + by apply (delimited_two "(" "" " ").
    + intros Hx. by vm_compute in Hx; apply elem_of_nil in Hx.
  - by apply delimited_one.
  - by apply (delimited_two " " "" ")").
  - intros Hx. by vm_compute in Hx; apply elem_of_nil in Hx.
Qed.

Lemma rule_source_names (gene_ids : list string) (text w : string) :
  text ≠ "" →
  w ∈ rule_names (GPRConstrainedModel.rule_source gene_ids (Some text)) →
  w ∈ rule_names text ∨ w = "x".
Proof.
  intros Htext. unfold GPRConstrainedModel.rule_source, truthy.
  rewrite bool_decide_eq_false_2 by done. cbn [negb].
  intros [Hw|?]%substituted_names; [|by right]. left. by apply padded_names.
Qed.

Lemma compiled_no_not (gene_ids : list string) (rule : option string) f :
  compiled_from gene_ids rule f →
  (∀ text, rule = Some text → "not" ∉ rule_names text) →
  no_not f.
Proof.
  intros Hf Hno. destruct (truthy rule) eqn:Htruthy.
  - destruct rule as [text|]; [|done].
    apply (eval_no_not _ _ Hf). intros Hin.
    apply rule_source_names in Hin as [Hin|[=]]; [by apply (Hno text)|].
    intros ->. by vm_compute in Htruthy.
  - by rewrite (compiled_from_unset _ _ _ Htruthy Hf).
Qed.

Lemma no_not_call_monotone f (x y : gmap string bool) :
  no_not f →
  (∀ k, x !! k = Some true → y !! k = Some true) →
  Python.call f x = inr true → ∀ b, Python.call f y = inr b → b = true.
Proof.
  intros Hno Hle. induction f as [s|c|k|a IHa|a IHa b IHb|a IHa b IHb];
    cbn [no_not Python.call] in *; try done.
  - intros [= ->] b [= <-]. done.
  - destruct (x !! k) as [[]|] eqn:Hx; try done. intros _ b.
    rewrite (Hle k Hx). by intros [= <-].
  - destruct Hno as [Ha Hb].
    destruct (Python.call a x) as [|[]] eqn:Hax; try done.
    intros Hbx v. destruct (Python.call a y) as [|[]] eqn:Hay; try done.
    + by apply IHb.
    + by specialize (IHa Ha eq_refl false eq_refl).
  - destruct Hno as [Ha Hb].
    destruct (Python.call a x) as [|[]] eqn:Hax; try done.
    + intros _ v. destruct (Python.call a y) as [|[]] eqn:Hay; try done.
      * by intros [= <-].
      * by specialize (IHa Ha eq_refl false eq_refl).
    + intros Hbx v. destruct (Python.call a y) as [|[]] eqn:Hay; try done.
      * by intros [= <-].
      * by apply IHb.
Qed.
End rule_source_facts.

(** ** Gene rules without [not] *)

Section gene_rule_extras.
Context {num : Type}.
Implicit Types m : model num.



(** The calls of [eval_GPR] stop at the first predicate that raises. *)
Lemma active_reactions_raises (fs : list (string * Python.expr)) state e :
  GPRConstrainedModel.active_reactions fs state = inl e ↔
  ∃ pre r f post,
    fs = pre ++ (r, f) :: post
    ∧ Forall (λ rf, ∃ b, Python.call rf.2 state = inr b) pre
    ∧ Python.call f state = inl e.
Proof.
  induction fs as [|[r f] fs IH]; cbn [GPRConstrainedModel.active_reactions].
  - split; [done|]. intros (pre & ? & ? & ? & Heq & _). by destruct pre.
  - destruct (Python.call f state) as [e'|b] eqn:Hf.
    + split.
      * intros [= ->]. exists [], r, f, fs. by split_and!.
      * intros ([|[r0 f0] pre] & r1 & f1 & post & Heq & Hpre & Hcall);
          simplify_eq/=; [congruence|].
        apply Forall_cons in Hpre as [[b Hb] _]. cbn in Hb. congruence.
    + split.
      * destruct (GPRConstrainedModel.active_reactions fs state) as [e'|rs] eqn:Hfs;
          [|done].
        intros [= ->].
        destruct (proj1 IH eq_refl) as (pre & r1 & f1 & post & -> & Hpre & Hcall).
        exists ((r, f) :: pre), r1, f1, post. split_and!; [done| |done].
        constructor; [by exists b | done].
      * intros ([|[r0 f0] pre] & r1 & f1 & post & Heq & Hpre & Hcall);
          simplify_eq/=; [congruence|].
        apply Forall_cons in Hpre as [_ Hpre].
        rewrite (proj2 IH); [done|]. by exists pre, r1, f1, post.
Qed.

(** X3. [eval_GPR] never changes the model. It raises exactly when some
    predicate raises, with the exception of the first one that does (a
    NameError for a name that was no gene when the rule was compiled), and
    the predicates before it all return. *)
Theorem eval_GPR_raises m (active_genes : list string) (e : exn) m' :
  GPRConstrainedModel.eval_GPR active_genes m = Raised e m' ↔
  m' = m
  ∧ ∃ pre r f post,
      OrderedDict.items (rule_functions m) = pre ++ (r, f) :: post
      ∧ Forall (λ rf, ∃ b, Python.call rf.2
                             (GPRConstrainedModel.genes_state
                                (OrderedDict.keys (genes m)) active_genes) = inr b) pre
      ∧ Python.call f
          (GPRConstrainedModel.genes_state
             (OrderedDict.keys (genes m)) active_genes) = inl e.
Proof.
  unfold GPRConstrainedModel.eval_GPR, bind, self.
  destruct (GPRConstrainedModel.active_reactions _ _) as [e'|rs] eqn:Hact.
  - unfold raise. split.
    + intros [= <- <-]. split; [done|]. by apply active_reactions_raises.
    + intros [-> Hex]. apply active_reactions_raises in Hex. congruence.
  - split; [done|]. intros [_ Hex]. apply active_reactions_raises in Hex. congruence.
Qed.
End gene_rule_extras.

Lemma toy_gpr_compiled : compiled_rules toy_gpr.
Proof.
  intros r f Hin. cbn [rule_functions toy_gpr OrderedDict.items] in Hin.
  unfold compiled_from.
  repeat (apply elem_of_cons in Hin as [[= -> ->]|Hin];
          [exists ["g1"; "g2"; "g3"]; eexists;
           split; [vm_compute; reflexivity | vm_compute; reflexivity]|]).
  by apply elem_of_nil in Hin.
Defined.

Lemma toy_gpr_without_not (r text : string) :
  OrderedDict.get r (rules toy_gpr) = Some (Some text) → "not" ∉ rule_names text.
Proof.
  intros Hr%od_get_Some_items. cbn [rules toy_gpr] in Hr.
  apply elem_of_cons in Hr as [[= -> ->]|Hr].
  { apply (bool_decide_unpack _). vm_compute. exact I. }
  apply elem_of_cons in Hr as [[=]|Hr].
  by apply elem_of_nil in Hr.
Defined.

Lemma genes_state_le (ids A B : list string) :
  (∀ g, g ∈ A → g ∈ B) →
  ∀ k, GPRConstrainedModel.genes_state ids A !! k = Some true →
       GPRConstrainedModel.genes_state ids B !! k = Some true.
Proof.
  intros Hsub k. rewrite !genes_state_lookup. case_decide; [|done].
  intros [= HA%bool_decide_eq_true_1]. f_equal.
  apply bool_decide_eq_true_2. by apply Hsub.
Defined.



(** ** Dictionaries as lists of items *)

Section OrderedDict_items.
Context {K V : Type} `{EqDecision K}.
Implicit Types (k : K) (v : V) (d : list (K * V)).

Lemma od_elem_set k v k0 v0 d :
  (k, v) ∈ OrderedDict.set k0 v0 d → (k, v) = (k0, v0) ∨ (k, v) ∈ d.
Proof.
  induction d as [|[k' v'] d IH]; cbn [OrderedDict.set].
  - intros ->%list_elem_of_singleton. by left.
  - destruct (decide (k' = k0)) as [->|Hne].
    + intros [->|Hin]%elem_of_cons; [by left | right; by apply list_elem_of_further].
    + intros [->|Hin]%elem_of_cons; [right; apply list_elem_of_here|].
      destruct (IH Hin) as [?|?]; [by left | right; by apply list_elem_of_further].
Qed.

Lemma od_elem_del k v k0 d :
  (k, v) ∈ OrderedDict.del k0 d ↔ (k, v) ∈ d ∧ k ≠ k0.
Proof.
  unfold OrderedDict.del. rewrite !list_elem_of_In, filter_In. cbn [fst].
  rewrite negb_true_iff, bool_decide_eq_false. done.
Qed.

Lemma od_Forall_set (P : K * V → Prop) k v d :
  Forall P d → P (k, v) → Forall P (OrderedDict.set k v d).
Proof.
  rewrite !Forall_forall. intros Hd Hkv [k' v'] [->|Hin]%od_elem_set; [done|].
  by apply Hd.
Qed.

Lemma od_Forall_del (P : K * V → Prop) k d :
  Forall P d → Forall P (OrderedDict.del k d).
Proof.
  rewrite !Forall_forall. intros Hd [k' v'] [Hin _]%od_elem_del. by apply Hd.
Qed.

Lemma od_elem_get_is_Some k v d : (k, v) ∈ d → is_Some (OrderedDict.get k d).
Proof.
  intros Hin. destruct (OrderedDict.get k d) eqn:Hg; [by eexists|].
  apply od_get_None in Hg. exfalso. apply Hg.
  apply list_elem_of_fmap. by exists (k, v).
Qed.

Lemma od_mem_set k k0 v0 d :
  OrderedDict.mem k d = true → OrderedDict.mem k (OrderedDict.set k0 v0 d) = true.
Proof.
  rewrite !od_mem_get, od_get_set. case_decide; [by eexists | done].
Qed.

Lemma od_mem_set_eq k v d : OrderedDict.mem k (OrderedDict.set k v d) = true.
Proof. apply od_mem_get. rewrite od_get_set_eq. by eexists. Qed.

Lemma od_mem_del_ne k k0 d :
  k0 ≠ k → OrderedDict.mem k (OrderedDict.del k0 d) = OrderedDict.mem k d.
Proof. intros Hne. unfold OrderedDict.mem. by rewrite od_get_del_ne. Qed.
End OrderedDict_items.

(** ** One step of the transformation, state by state *)

Section split_run.
Context {num : Type} `{!Number num}.
Implicit Types m : model num.

Lemma foldl_with_reactions {A} (g : A → _ → _) (xs : list A) m :
  foldl (λ s x, with_reactions (g x) s) m xs
  = with_reactions (λ d, foldl (λ d x, g x d) d xs) m.
Proof.
  revert m. induction xs as [|x xs IH]; intros m; cbn [foldl];
    [by destruct m | by rewrite IH].
Qed.

Lemma foldl_with_stoichiometry {A} (g : A → _ → _) (xs : list A) m :
  foldl (λ s x, with_stoichiometry (g x) s) m xs
  = with_stoichiometry (λ d, foldl (λ d x, g x d) d xs) m.
Proof.
  revert m. induction xs as [|x xs IH]; intros m; cbn [foldl];
    [by destruct m | by rewrite IH].
Qed.

Lemma StoichiometricModel_remove_reactions_run (ids : list string) m :
  StoichiometricModel.remove_reactions ids m
  = Returned () (rewired m (drop_reactions ids (reactions m))
                   (drop_edges ids (stoichiometry m)) (bounds m)).
Proof.
  unfold StoichiometricModel.remove_reactions, bind.
  rewrite (for_each_update _ _ (λ r_id, with_reactions (OrderedDict.del r_id))).
  2:{ intros x s. unfold self, when, update, ret.
      destruct (OrderedDict.mem x (reactions s)) eqn:Hm; [done|].
      apply od_mem_false in Hm. destruct s. unfold with_reactions. model_simpl.
      by rewrite od_del_absent. }
  rewrite foldl_with_reactions. unfold self. model_simpl.
  rewrite (for_each_update _ _
    (λ e, with_stoichiometry
            (λ d, if bool_decide (e.2 ∈ ids) then OrderedDict.del e d else d))).
  2:{ intros [a k] s. unfold when, update, ret. cbn [snd].
      destruct (bool_decide (k ∈ ids)); [done | by destruct s]. }
  rewrite foldl_with_stoichiometry. by destruct m.
Qed.

Lemma remove_reaction_run (r : string) m :
  cls m ≠ GPRConstrained →
  (cls m = ConstraintBased → is_Some (OrderedDict.get r (bounds m))) →
  remove_reaction r m
  = Returned () (rewired m (OrderedDict.del r (reactions m))
                   (drop_edges [r] (stoichiometry m))
                   (if isinstance (cls m) ConstraintBased
                    then OrderedDict.del r (bounds m) else bounds m)).
Proof.
  intros Hcls Hb. unfold remove_reaction, remove_reactions, bind, self.
  destruct (cls m) eqn:Hc; [| |done]; model_simpl.
  - by rewrite StoichiometricModel_remove_reactions_run.
  - unfold ConstraintBasedModel.remove_reactions, bind.
    rewrite StoichiometricModel_remove_reactions_run.
    cbn [for_each]. unfold bind, self. model_simpl.
    destruct (Hb eq_refl) as [b Hbr]. unfold OrderedDict.mem. rewrite Hbr.
    by destruct m.
Qed.

Lemma install_edges_run (fwd bwd : string) (row : OrderedDict string num) m :
  for_each (OrderedDict.items row) (λ '(m_id, coeff),
    update (with_stoichiometry (OrderedDict.set (m_id, fwd) coeff)) ;;
    update (with_stoichiometry (OrderedDict.set (m_id, bwd) (neg coeff)))) m
  = Returned () (rewired m (reactions m)
                   (install_edges fwd bwd row (stoichiometry m)) (bounds m)).
Proof.
  rewrite (for_each_update _ _
    (λ ac, with_stoichiometry
             (λ st, OrderedDict.set (ac.1, bwd) (neg ac.2)
                      (OrderedDict.set (ac.1, fwd) ac.2 st)))).
  2:{ by intros [a c] s. }
  rewrite foldl_with_stoichiometry. by destruct m.
Qed.

Lemma split_reaction_run table (r : string) (rx : Reaction.t)
    (row : OrderedDict string num) (b : option num * option num) m :
  cls m ≠ GPRConstrained →
  Reaction.id rx = r →
  OrderedDict.get r table = Some row →
  (cls m = ConstraintBased → OrderedDict.get r (bounds m) = Some b) →
  split_reaction table r rx m
  = Returned (r +:+ "_f", r +:+ "_b")
      (rewired m (split_reactions r (Reaction.name rx) (reactions m))
         (split_edges r row (stoichiometry m))
         (if isinstance (cls m) ConstraintBased
          then split_bounds r b (bounds m) else bounds m)).
Proof.
  intros Hcls Hid Hrow Hb.
  assert (Hrf : r ≠ r +:+ "_f") by by apply id_ne_suffixed.
  assert (Hrb : r ≠ r +:+ "_b") by by apply id_ne_suffixed.
  assert (Hfb : r +:+ "_f" ≠ r +:+ "_b") by apply fwd_id_ne_bwd_id.
  unfold split_reaction. rewrite Hid.
  unfold bind at 1. rewrite add_reaction_spec by done.
  unfold bind at 1. rewrite add_reaction_spec by done.
  model_simpl.
  unfold bind at 1. unfold subscript at 1. rewrite Hrow. unfold ret at 1.
  unfold bind at 1. rewrite install_edges_run. model_simpl.
  unfold bind at 1. unfold self at 1. model_simpl.
  destruct (cls m) eqn:Hc; [| |done]; model_simpl.
  - unfold bind at 1. unfold ret at 1. unfold bind at 1. unfold ret at 1.
    unfold bind at 1. rewrite remove_reaction_run; model_simpl; rewrite ?Hc; try done.
  - specialize (Hb eq_refl).
    unfold bind at 1. unfold bind at 1. unfold self at 1. unfold bind at 1.
    model_simpl. unfold subscript at 1. rewrite !od_get_set_ne, Hb by done.
    unfold ret at 1.
    unfold ConstraintBasedModel.set_flux_bounds, bind, self, when, update, ret.
    model_simpl. rewrite od_mem_set by apply od_mem_set_eq. model_simpl.
    rewrite od_mem_set_eq. model_simpl.
    rewrite remove_reaction_run; model_simpl; rewrite ?Hc; try done.
    intros _. rewrite !od_get_set_ne by done. by eexists.
Qed.
End split_run.

(** ** The transformation keeps models well formed *)

Section split_invariants.
Context {num : Type} `{!Number num}.
Implicit Types m : model num.

Lemma install_edges_wf (fwd bwd : string) (row : OrderedDict string num) st :
  OrderedDict.wf st → OrderedDict.wf (install_edges fwd bwd row st).
Proof.
  unfold install_edges. revert st.
  induction row as [|[a c] row IH]; intros st Hwf; cbn [foldl]; [done|].
  apply IH. by do 2 apply od_wf_set.
Qed.

Lemma install_edges_elem (fwd bwd : string) (row : OrderedDict string num) st e c :
  (e, c) ∈ install_edges fwd bwd row st → (e, c) ∈ st ∨ e.2 = fwd ∨ e.2 = bwd.
Proof.
  unfold install_edges. revert st.
  induction row as [|[a c0] row IH]; intros st; cbn [foldl]; [by left|].
  intros [Hin|?]%IH; [|by right]. cbn [fst snd] in Hin.
  apply od_elem_set in Hin as [[= -> _]|Hin]; [by right; right|].
  apply od_elem_set in Hin as [[= -> _]|Hin]; [by right; left | by left].
Qed.

Lemma fold_del_wf {K V} `{EqDecision K} (P : K → bool) (ks : list K)
    (d : list (K * V)) :
  OrderedDict.wf d →
  OrderedDict.wf (foldl (λ d e, if P e then OrderedDict.del e d else d) d ks).
Proof.
  revert d. induction ks as [|k ks IH]; intros d Hwf; cbn [foldl]; [done|].
  apply IH. destruct (P k); [by apply od_wf_del | done].
Qed.

Lemma fold_del_elem {K V} `{EqDecision K} (P : K → bool) (ks : list K)
    (d : list (K * V)) k v :
  (k, v) ∈ foldl (λ d e, if P e then OrderedDict.del e d else d) d ks →
  (k, v) ∈ d ∧ (k ∈ ks → P k = false).
Proof.
  revert d. induction ks as [|k0 ks IH]; intros d; cbn [foldl].
  - intros Hin. split; [done|]. by intros ?%elem_of_nil.
  - intros [Hin Hks]%IH. destruct (P k0) eqn:HP.
    + apply od_elem_del in Hin as [Hin Hne]. split; [done|].
      intros [->|?]%elem_of_cons; [done | by apply Hks].
    + split; [done|]. intros [->|?]%elem_of_cons; [done | by apply Hks].
Qed.

Lemma drop_edges_wf (ids : list string) (st : OrderedDict (string * string) num) :
  OrderedDict.wf st → OrderedDict.wf (drop_edges ids st).
Proof. apply (fold_del_wf (λ e, bool_decide (e.2 ∈ ids))). Qed.

Lemma drop_edges_elem (ids : list string) (st : OrderedDict (string * string) num) e c :
  (e, c) ∈ drop_edges ids st → (e, c) ∈ st ∧ e.2 ∉ ids.
Proof.
  unfold drop_edges.
  intros [Hin Hks]%(fold_del_elem (λ e, bool_decide (e.2 ∈ ids))).
  split; [done|]. eapply bool_decide_eq_false, Hks.
  apply list_elem_of_fmap. by exists (e, c).
Qed.

Lemma split_reactions_elem (r : string) name rs k x :
  (k, x) ∈ split_reactions r name rs →
  k ≠ r ∧ ((k, x) ∈ rs ∨ (Reaction.reversible x = false ∧ Reaction.id x = k
                          ∧ (k = r +:+ "_f" ∨ k = r +:+ "_b"))).
Proof.
  unfold split_reactions. intros [Hin Hne]%od_elem_del. split; [done|].
  apply od_elem_set in Hin as [[= -> ->]|Hin]; [right; by split_and!; [..|right]|].
  apply od_elem_set in Hin as [[= -> ->]|Hin]; [right; by split_and!; [..|left]|].
  by left.
Qed.

Lemma split_reactions_mem (r : string) name rs k :
  k ≠ r →
  OrderedDict.mem k rs = true ∨ k = r +:+ "_f" ∨ k = r +:+ "_b" →
  OrderedDict.mem k (split_reactions r name rs) = true.
Proof.
  intros Hne Hk. unfold split_reactions.
  rewrite od_mem_del_ne by done.
  destruct Hk as [Hk | [-> | ->]].
  - by do 2 apply od_mem_set.
  - apply od_mem_set, od_mem_set_eq.
  - apply od_mem_set_eq.
Qed.

Lemma split_bounds_mem (r : string) b (bs : OrderedDict string (option num * option num)) k :
  k ≠ r →
  OrderedDict.mem k bs = true ∨ k = r +:+ "_f" ∨ k = r +:+ "_b" →
  OrderedDict.mem k (split_bounds r b bs) = true.
Proof.
  intros Hne Hk. unfold split_bounds.
  rewrite od_mem_del_ne by done.
  destruct Hk as [Hk | [-> | ->]].
  - by do 4 apply od_mem_set.
  - apply od_mem_set, od_mem_set_eq.
  - apply od_mem_set_eq.
Qed.

(** The state after one step is well formed when the state before is. *)
Lemma split_step_wf (r : string) name row b m :
  model_wf m →
  model_wf (rewired m (split_reactions r name (reactions m))
              (split_edges r row (stoichiometry m))
              (if isinstance (cls m) ConstraintBased
               then split_bounds r b (bounds m) else bounds m)).
Proof.
  intros (Hwfr & Hwfs & Hkeyed & Hedges & Hbounds).
  unfold model_wf, reactions_keyed, edges_bound, bounds_present in *.
  cbn [reactions stoichiometry bounds cls rewired].
  split_and!.
  - unfold split_reactions. apply od_wf_del. by do 2 apply od_wf_set.
  - unfold split_edges. by apply drop_edges_wf, install_edges_wf.
  - apply Forall_forall. intros [k x] [_ [Hin|(_ & ? & _)]]%split_reactions_elem;
      [|done]. rewrite Forall_forall in Hkeyed. by apply (Hkeyed (k, x)).
  - apply Forall_forall. intros [[a k] c] [Hin Hne]%drop_edges_elem.
    cbn [fst snd] in *. apply split_reactions_mem.
    + intros ->. apply Hne, list_elem_of_here.
    + apply install_edges_elem in Hin as [Hin|[?|?]]; [left|by right; left|by right; right].
      rewrite Forall_forall in Hedges. apply (Hedges (a, k, c) Hin).
  - intros Hc. rewrite Hc. apply Forall_forall.
    intros [k x] [Hne Hin]%split_reactions_elem. cbn [fst].
    apply split_bounds_mem; [done|].
    destruct Hin as [Hin|(_ & _ & ?)]; [left|by right].
    specialize (Hbounds Hc). rewrite Forall_forall in Hbounds.
    apply (Hbounds (k, x) Hin).
Qed.

Lemma loop_run table (l : list (string * Reaction.t)) : ∀ m acc,
  cls m ≠ GPRConstrained →
  model_wf m →
  NoDup l.*1 →
  Forall (λ kr, Reaction.id kr.2 = kr.1) l →
  (∀ r rx, (r, rx) ∈ l → is_Some (OrderedDict.get r table)) →
  (∀ r rx, (r, rx) ∈ l → OrderedDict.mem r (reactions m) = true) →
  (∀ k x, (k, x) ∈ reactions m → Reaction.reversible x = true → (k, x) ∈ l) →
  ∃ acc' rs st bs,
    for_fold l acc (loop_body table) m = Returned acc' (rewired m rs st bs)
    ∧ model_wf (rewired m rs st bs)
    ∧ Forall (λ kr, Reaction.reversible kr.2 = false) rs.
Proof.
  induction l as [|[r0 rx0] l IH];
    intros m acc Hcls Hwf Hnd Hkeyed Hrows Hstill Hrev.
  - exists acc, (reactions m), (stoichiometry m), (bounds m).
    assert (rewired m (reactions m) (stoichiometry m) (bounds m) = m) as ->
      by by destruct m.
    split_and!; [done..|]. apply Forall_forall. intros [k x] Hin.
    destruct (Reaction.reversible x) eqn:Hx; [|done].
    by apply Hrev, elem_of_nil in Hin.
  - rewrite fmap_cons in Hnd. apply NoDup_cons in Hnd as [Hr0 Hnd].
    apply Forall_cons in Hkeyed as [Hid0 Hkeyed]. cbn [fst snd] in *.
    assert (Hne_tail : ∀ r rx, (r, rx) ∈ l → r ≠ r0).
    { intros r rx Hin ->. apply Hr0. apply list_elem_of_fmap. by exists (r0, rx). }
    cbn [for_fold]. unfold bind at 1. unfold loop_body at 1.
    destruct (Reaction.reversible rx0) eqn:Hrev0.
    + destruct (Hrows r0 rx0) as [row0 Hrow0]; [apply list_elem_of_here|].
      assert (∃ b, cls m = ConstraintBased →
                   OrderedDict.get r0 (bounds m) = Some b) as [b Hb].
      { destruct Hwf as (_ & _ & _ & _ & Hbounds).
        unfold bounds_present in Hbounds.
        specialize (Hstill r0 rx0 (list_elem_of_here _ _)).
        destruct (cls m) eqn:Hc; [exists (None, None); by intros ?| |done].
        specialize (Hbounds eq_refl). rewrite Forall_forall in Hbounds.
        apply od_mem_get in Hstill as [x Hx]. apply od_get_Some_items in Hx.
        specialize (Hbounds (r0, x) Hx). apply od_mem_get in Hbounds as [b Hb].
        by exists b. }
      unfold bind at 1.
      rewrite (split_reaction_run table r0 rx0 row0 b m) by done.
      unfold ret at 1.
      destruct (IH (rewired m (split_reactions r0 (Reaction.name rx0) (reactions m))
                      (split_edges r0 row0 (stoichiometry m))
                      (if isinstance (cls m) ConstraintBased
                       then split_bounds r0 b (bounds m) else bounds m))
                  (<[r0 := (r0 +:+ "_f", r0 +:+ "_b")]> acc))
        as (acc' & rs & st & bs & Hrun & Hwf' & Hirr); try done.
      * by apply split_step_wf.
      * intros r rx Hin. eapply Hrows. by apply list_elem_of_further.
      * intros r rx Hin. cbn [reactions rewired].
        apply split_reactions_mem; [by eapply Hne_tail|]. left.
        eapply Hstill. by apply list_elem_of_further.
      * intros k x [Hne [Hin|(Hx & _)]]%split_reactions_elem Hxrev; [|congruence].
        apply Hrev in Hin as [[= ? _]|Hin]%elem_of_cons; done.
      * by exists acc', rs, st, bs.
    + unfold ret at 1.
      destruct (IH m acc) as (acc' & rs & st & bs & Hrun & Hwf' & Hirr); try done.
      * intros r rx Hin. eapply Hrows. by apply list_elem_of_further.
      * intros r rx Hin. eapply Hstill. by apply list_elem_of_further.
      * intros k x Hin Hx.
        apply Hrev in Hin as [[= -> ->]|Hin]%elem_of_cons; [congruence|done..].
      * by exists acc', rs, st, bs.
Qed.

(** The lookup table is built whenever every edge ends in a reaction. *)
Lemma table_fold_returns (es : OrderedDict (string * string) num)
    (table : OrderedDict string (OrderedDict string num)) m :
  Forall (λ e : string * string * num, is_Some (OrderedDict.get e.1.2 table)) es →
  ∃ table',
    for_fold (OrderedDict.items es) table
      (λ table '((m_id, r_id), coeff),
        row <- subscript table r_id ;;
        ret (OrderedDict.set r_id (OrderedDict.set m_id coeff row) table)) m
    = Returned table' m
    ∧ ∀ r, is_Some (OrderedDict.get r table) → is_Some (OrderedDict.get r table').
Proof.
  unfold OrderedDict.items. revert table.
  induction es as [|[[a0 r0] c0] es IH]; intros table Hdom.
  - exists table. by split.
  - apply Forall_cons in Hdom as [[row0 Hrow0] Hdom]. cbn [fst snd] in Hrow0.
    destruct (IH (OrderedDict.set r0 (OrderedDict.set a0 c0 row0) table))
      as (table' & Hrun & Hkeep).
    { eapply Forall_impl; [exact Hdom|]. intros [[a r] c] [row Hrow].
      cbn [fst snd] in *. rewrite od_get_set. case_decide; by eexists. }
    exists table'. split.
    + cbn [for_fold]. unfold bind at 1. unfold bind at 1. unfold subscript.
      rewrite Hrow0. unfold ret at 1. unfold ret at 1. apply Hrun.
    + intros r Hr. apply Hkeep. rewrite od_get_set. case_decide; [by eexists|done].
Qed.

Lemma reaction_metabolite_lookup_table_returns m :
  edges_bound m →
  ∃ table,
    StoichiometricModel.reaction_metabolite_lookup_table m = Returned table m
    ∧ ∀ r, OrderedDict.mem r (reactions m) = true →
           is_Some (OrderedDict.get r table).
Proof.
  intros Hedges.
  unfold StoichiometricModel.reaction_metabolite_lookup_table, bind, self.
  set (table0 := OrderedDict.of_list _).
  assert (Ht0 : ∀ r, OrderedDict.mem r (reactions m) = true →
                     is_Some (OrderedDict.get r table0)).
  { intros r [x Hx]%od_mem_get. unfold table0.
    rewrite od_get_of_list_const, decide_True; [by eexists|].
    by eapply od_get_Some_keys. }
  destruct (table_fold_returns (stoichiometry m) table0 m) as (table & Hrun & Hkeep).
  - eapply Forall_impl; [exact Hedges|]. intros [[a r] c] Hm. by apply Ht0.
  - exists table. split; [exact Hrun|]. intros r Hr. by apply Hkeep, Ht0.
Qed.

Lemma make_irreversible_run m :
  cls m ≠ GPRConstrained → model_wf m →
  ∃ mapping rs st bs,
    make_irreversible m = Returned mapping (rewired m rs st bs)
    ∧ model_wf (rewired m rs st bs)
    ∧ Forall (λ kr, Reaction.reversible kr.2 = false) rs.
Proof.
  intros Hcls Hwf. pose proof Hwf as (Hwfr & Hwfs & Hkeyed & Hedges & Hbounds).
  destruct (reaction_metabolite_lookup_table_returns m Hedges)
    as (table & Htable & Hrows).
  unfold make_irreversible. unfold bind at 1. rewrite Htable.
  unfold bind at 1. unfold self at 1. unfold OrderedDict.items.
  change (for_fold (reactions m) ∅ _ m)
    with (for_fold (reactions m) ∅ (loop_body table) m).
  apply loop_run; try done.
  - intros r rx Hin. apply Hrows, od_mem_get. by eapply od_elem_get_is_Some.
  - intros r rx Hin. apply od_mem_get. by eapply od_elem_get_is_Some.
Qed.

(** A model without reversible reactions is left as it is, whatever its
    class. *)
Lemma loop_skip table (l : list (string * Reaction.t)) m acc :
  Forall (λ kr, Reaction.reversible kr.2 = false) l →
  for_fold l acc (loop_body table) m = Returned acc m.
Proof.
  induction 1 as [|[r rx] l Hrx _ IH]; cbn [for_fold]; [done|].
  unfold bind at 1. unfold loop_body at 1. cbn [snd] in Hrx. rewrite Hrx.
  unfold ret at 1. exact IH.
Qed.

Lemma make_irreversible_skip m :
  edges_bound m →
  Forall (λ kr, Reaction.reversible kr.2 = false) (reactions m) →
  make_irreversible m = Returned ∅ m.
Proof.
  intros Hedges Hirr.
  destruct (reaction_metabolite_lookup_table_returns m Hedges) as (table & Htable & _).
  unfold make_irreversible. unfold bind at 1. rewrite Htable.
  unfold bind at 1. unfold self at 1. unfold OrderedDict.items.
  change (for_fold (reactions m) ∅ _ m)
    with (for_fold (reactions m) ∅ (loop_body table) m).
  by apply loop_skip.
Qed.
End split_invariants.

(** * Further properties of make_irreversible *)

Section transformation_extras.
Context {num : Type} `{!Number num}.
Implicit Types m : model num.

(** X4. On every well-formed model of the stoichiometric or
    constraint-based layer [make_irreversible] returns, whether or not the
    ids [<r>_f] and [<r>_b] are already taken; the model it leaves is well
    formed again and has no reversible reaction, which is what the unit
    test asserts after the call. Metabolites, compartments and the class of
    the model are as before. *)
Theorem make_irreversible_leaves_no_reversible m :
  cls m ≠ GPRConstrained → model_wf m →
  ∃ mapping m',
    make_irreversible m = Returned mapping m'
    ∧ model_wf m'
    ∧ Forall (λ kr, Reaction.reversible kr.2 = false) (reactions m')
    ∧ cls m' = cls m
    ∧ metabolites m' = metabolites m
    ∧ compartments m' = compartments m.
Proof.
  intros Hcls Hwf.
  destruct (make_irreversible_run m Hcls Hwf)
    as (mapping & rs & st & bs & Hrun & Hwf' & Hirr).
  by exists mapping, (rewired m rs st bs).
Qed.

(** X5. A model without reversible reactions, of any class, is a fixed
    point: when every edge ends in a reaction of the model,
    [make_irreversible] returns the empty mapping and leaves the model as
    it was. *)
Theorem make_irreversible_without_reversible m :
  edges_bound m →
  Forall (λ kr, Reaction.reversible kr.2 = false) (reactions m) →
  make_irreversible m = Returned ∅ m.
Proof. apply make_irreversible_skip. Qed.

(** X6. [make_irreversible] is idempotent on the two lower layers: run on
    the model that a first call left, it returns the empty mapping and
    changes nothing. *)
Theorem make_irreversible_idempotent m mapping m' :
  cls m ≠ GPRConstrained → model_wf m →
  make_irreversible m = Returned mapping m' →
  make_irreversible m' = Returned ∅ m'.
Proof.
  intros Hcls Hwf Hfirst.
  destruct (make_irreversible_run m Hcls Hwf)
    as (mapping0 & rs & st & bs & Hrun & Hwf' & Hirr).
  rewrite Hrun in Hfirst. injection Hfirst as _ <-.
  apply make_irreversible_skip; [|exact Hirr].
  by destruct Hwf' as (_ & _ & _ & ? & _).
Qed.
End transformation_extras.

(** X4, an instance: the constraint-based example. *)
Lemma make_irreversible_leaves_no_reversible_witness :
  cls toy_constrained ≠ GPRConstrained ∧ model_wf toy_constrained
  ∧ ∃ mapping m',
      make_irreversible toy_constrained = Returned mapping m'
      ∧ Forall (λ kr, Reaction.reversible kr.2 = false) (reactions m').
Proof.
  split_and!; [done | exact toy_constrained_wf |].
  destruct (make_irreversible_leaves_no_reversible toy_constrained)
    as (mapping & m' & Hrun & _ & Hirr & _);
    [done | exact toy_constrained_wf |].
  by exists mapping, m'.
Defined.

(** X5, an instance: the example with its reaction R made irreversible. *)
Lemma make_irreversible_without_reversible_witness :
  let m := with_reactions
             (OrderedDict.set "R" (Reaction.Reaction "R" (Some "conversion") false))
             toy_gpr in
  edges_bound m
  ∧ Forall (λ kr, Reaction.reversible kr.2 = false) (reactions m)
  ∧ make_irreversible m = Returned ∅ m.
Proof.
  intros m.
  assert (He : edges_bound m)
    by (unfold edges_bound; apply (bool_decide_unpack _); vm_compute; exact I).
  assert (Hi : Forall (λ kr, Reaction.reversible kr.2 = false) (reactions m))
    by (apply (bool_decide_unpack _); vm_compute; exact I).
  split_and!; [exact He | exact Hi |].
  exact (make_irreversible_without_reversible m He Hi).
Defined.

(** X6, an instance: two calls on the constraint-based example. *)
Lemma make_irreversible_idempotent_witness :
  cls toy_constrained ≠ GPRConstrained ∧ model_wf toy_constrained
  ∧ ∃ mapping m',
      make_irreversible toy_constrained = Returned mapping m'
      ∧ make_irreversible m' = Returned ∅ m'.
Proof.
  split_and!; [done | exact toy_constrained_wf |].
  eexists _, _. split; [vm_compute; reflexivity|].
  eapply make_irreversible_idempotent with (m := toy_constrained);
    [done | exact toy_constrained_wf | vm_compute; reflexivity].
Defined.

(** ** The transformation on the gene-rule layer *)

Section gpr_split.
Context {num : Type} `{!Number num}.
Implicit Types m : model num.

Lemma eval_true : Python.eval ("lambda x: " +:+ "True") = Some (Python.Const true).
Proof. vm_compute. reflexivity. Qed.

Lemma gpr_add_reaction_run (rx : Reaction.t) m :
  cls m = GPRConstrained →
  add_reaction rx m
  = Returned ()
      (with_rule_functions (OrderedDict.set (Reaction.id rx) (Python.Const true))
         (with_rules (OrderedDict.set (Reaction.id rx) None)
            (with_bounds (OrderedDict.set (Reaction.id rx) (None, None))
               (with_reactions (OrderedDict.set (Reaction.id rx) rx) m)))).
Proof.
  intros Hc. unfold add_reaction, bind, self. rewrite Hc.
  unfold GPRConstrainedModel.add_reaction, ConstraintBasedModel.add_reaction,
    StoichiometricModel.add_reaction, GPRConstrainedModel.set_rule,
    GPRConstrainedModel._rule_to_function, bind, self, update, when, ret.
  model_simpl. rewrite od_mem_set_eq.
  cbn [GPRConstrainedModel.rule_source]. rewrite eval_true. done.
Qed.

Lemma split_reaction_gpr_raises table (r : string) (rx : Reaction.t)
    (row : OrderedDict string num) m :
  cls m = GPRConstrained →
  OrderedDict.get r table = Some row →
  is_Some (OrderedDict.get r (bounds m)) →
  ∃ m',
    split_reaction table r rx m = Raised AttributeError m'
    ∧ reactions m'
      = OrderedDict.set (Reaction.id rx +:+ "_b")
          (Reaction.Reaction (Reaction.id rx +:+ "_b") (Reaction.name rx) false)
          (OrderedDict.set (Reaction.id rx +:+ "_f")
             (Reaction.Reaction (Reaction.id rx +:+ "_f") (Reaction.name rx) false)
             (reactions m))
    ∧ rules m'
      = OrderedDict.set (Reaction.id rx +:+ "_b") None
          (OrderedDict.set (Reaction.id rx +:+ "_f") None (rules m))
    ∧ stoichiometry m'
      = install_edges (Reaction.id rx +:+ "_f") (Reaction.id rx +:+ "_b") row
          (stoichiometry m).
Proof.
  intros Hc Hrow [b Hb].
  destruct m as [c i me rs co st bs gs rl rf]. cbn in Hc, Hb. subst c.
  unfold split_reaction.
  unfold bind at 1. rewrite gpr_add_reaction_run by done.
  unfold bind at 1. rewrite gpr_add_reaction_run by done.
  model_simpl.
  unfold bind at 1. unfold subscript at 1. rewrite Hrow. unfold ret at 1.
  unfold bind at 1. rewrite install_edges_run. model_simpl.
  unfold bind at 1. unfold self at 1. model_simpl.
  unfold bind at 1. unfold bind at 1. unfold self at 1. unfold bind at 1.
  model_simpl. unfold subscript at 1.
  assert (∃ b', OrderedDict.get r
            (OrderedDict.set (Reaction.id rx +:+ "_b") (None, None)
               (OrderedDict.set (Reaction.id rx +:+ "_f") (None, None) bs))
            = Some b') as [b' Hb'].
  { rewrite !od_get_set. repeat case_decide; by eexists. }
  rewrite Hb'. unfold ret at 1.
  unfold ConstraintBasedModel.set_flux_bounds, bind, self, when, update, ret, raise.
  model_simpl. rewrite od_mem_set by apply od_mem_set_eq. model_simpl.
  rewrite od_mem_set_eq. model_simpl.
  eexists. split; [reflexivity|]. by model_simpl.
Qed.

Lemma loop_skip_prefix table (pre l : list (string * Reaction.t)) m acc :
  Forall (λ kr, Reaction.reversible kr.2 = false) pre →
  for_fold (pre ++ l) acc (loop_body table) m
  = for_fold l acc (loop_body table) m.
Proof.
  induction 1 as [|[r rx] pre Hrx _ IH]; [done|].
  rewrite <- app_comm_cons. cbn [for_fold].
  unfold bind at 1. unfold loop_body at 1. cbn [snd] in Hrx. rewrite Hrx.
  unfold ret at 1. exact IH.
Qed.

Lemma first_reversible (l : list (string * Reaction.t)) :
  Exists (λ kr, Reaction.reversible kr.2 = true) l →
  ∃ pre r rx post,
    l = pre ++ (r, rx) :: post
    ∧ Forall (λ kr, Reaction.reversible kr.2 = false) pre
    ∧ Reaction.reversible rx = true.
Proof.
  induction l as [|[k x] l IH]; intros Hex; [by apply Exists_nil in Hex|].
  destruct (Reaction.reversible x) eqn:Hx.
  - by exists [], k, x, l.
  - apply Exists_cons in Hex as [Hex|Hex]; [cbn [snd] in Hex; congruence|].
    destruct (IH Hex) as (pre & r & rx & post & -> & Hpre & Hrx).
    exists ((k, x) :: pre), r, rx, post. split_and!; [done| |done].
    by apply Forall_cons.
Qed.

(** X7. On the gene-rule layer the transformation fails on every
    well-formed model that has a reversible reaction: it raises
    AttributeError at [model.add_rule] for the first reversible reaction
    [r], and by then the model has changed: [r] is still a reaction, and
    [<r>_f] and [<r>_b] are reactions whose rule is the empty rule that
    [add_reaction] stored, not the rule of [r]. *)
Theorem make_irreversible_gpr_raises m :
  cls m = GPRConstrained → model_wf m →
  Exists (λ kr, Reaction.reversible kr.2 = true) (reactions m) →
  ∃ m' r rx,
    make_irreversible m = Raised AttributeError m'
    ∧ OrderedDict.get r (reactions m) = Some rx
    ∧ Reaction.reversible rx = true
    ∧ OrderedDict.mem r (reactions m') = true
    ∧ OrderedDict.mem (r +:+ "_f") (reactions m') = true
    ∧ OrderedDict.mem (r +:+ "_b") (reactions m') = true
    ∧ OrderedDict.get (r +:+ "_f") (rules m') = Some None
    ∧ OrderedDict.get (r +:+ "_b") (rules m') = Some None.
Proof.
  intros Hcls (Hwfr & _ & Hkeyed & Hedges & Hbounds) Hex.
  destruct (first_reversible _ Hex) as (pre & r & rx & post & Hl & Hpre & Hrx).
  assert (Hin : (r, rx) ∈ reactions m).
  { rewrite Hl. apply elem_of_app. right. apply list_elem_of_here. }
  assert (Hid : Reaction.id rx = r).
  { unfold reactions_keyed in Hkeyed. rewrite Forall_forall in Hkeyed.
    apply (Hkeyed (r, rx) Hin). }
  assert (Hget : OrderedDict.get r (reactions m) = Some rx)
    by by apply od_items_get.
  destruct (reaction_metabolite_lookup_table_returns m Hedges)
    as (table & Htable & Hrows).
  destruct (Hrows r) as [row Hrow]; [apply od_mem_get; by eexists|].
  assert (Hb : is_Some (OrderedDict.get r (bounds m))).
  { unfold bounds_present in Hbounds. rewrite Hcls in Hbounds.
    specialize (Hbounds eq_refl). rewrite Forall_forall in Hbounds.
    apply od_mem_get, (Hbounds (r, rx) Hin). }
  destruct (split_reaction_gpr_raises table r rx row m Hcls Hrow Hb)
    as (m' & Hrun & Hrs & Hrl & _).
  rewrite Hid in Hrs, Hrl.
  exists m', r, rx. split_and!; [|done|done|..].
  - unfold make_irreversible. unfold bind at 1. rewrite Htable.
    unfold bind at 1. unfold self at 1. unfold OrderedDict.items.
    change (for_fold (reactions m) ∅ _ m)
      with (for_fold (reactions m) ∅ (loop_body table) m).
    rewrite Hl, loop_skip_prefix by done. cbn [for_fold].
    unfold bind at 1. unfold loop_body at 1. rewrite Hrx.
    unfold bind at 1. by rewrite Hrun.
  - rewrite Hrs. do 2 apply od_mem_set. apply od_mem_get. by eexists.
  - rewrite Hrs. apply od_mem_set, od_mem_set_eq.
  - rewrite Hrs. apply od_mem_set_eq.
  - rewrite Hrl, od_get_set_ne, od_get_set_eq; [done|].
    intros Heq. by apply (fwd_id_ne_bwd_id r r).
  - by rewrite Hrl, od_get_set_eq.
Qed.
End gpr_split.

(** X7, an instance: the gene-rule example, whose first reversible
    reaction is R. *)
Lemma make_irreversible_gpr_raises_witness :
  cls toy_gpr = GPRConstrained ∧ model_wf toy_gpr
  ∧ Exists (λ kr, Reaction.reversible kr.2 = true) (reactions toy_gpr)
  ∧ ∃ m', make_irreversible toy_gpr = Raised AttributeError m'.
Proof.
  assert (Hwf : model_wf toy_gpr) by by_computation.
  assert (Hex : Exists (λ kr, Reaction.reversible kr.2 = true) (reactions toy_gpr))
    by (apply (bool_decide_unpack _); vm_compute; exact I).
  split_and!; [done | exact Hwf | exact Hex |].
  destruct (make_irreversible_gpr_raises toy_gpr eq_refl Hwf Hex)
    as (m' & _ & _ & Hrun & _).
  by exists m'.
Defined.

(** * Removal as filtering *)

Section filters.
Context {K V : Type} `{EqDecision K}.
Implicit Types d : list (K * V).

Lemma filter_filter {A} (p q : A → bool) (l : list A) :
  List.filter q (List.filter p l) = List.filter (λ x, p x && q x) l.
Proof.
  induction l as [|x l IH]; [done|]. cbn [List.filter].
  destruct (p x) eqn:Hp; cbn [andb List.filter]; [|done].
  destruct (q x); by rewrite IH.
Qed.

Lemma fold_del_filter (P : K → bool) (ks : list K) : ∀ d,
  foldl (λ d k, if P k then OrderedDict.del k d else d) d ks
  = List.filter (λ kv, negb (P kv.1 && bool_decide (kv.1 ∈ ks))) d.
Proof.
  induction ks as [|k ks IH]; intros d; cbn [foldl].
  - symmetry. rewrite <- (filter_ext (λ _, true)).
    + induction d as [|x d IHd]; [done|]. cbn [List.filter]. by rewrite IHd.
    + intros kv. rewrite (bool_decide_eq_false_2 (kv.1 ∈ [])), andb_false_r; [done|].
      by intros ?%elem_of_nil.
  - rewrite IH. destruct (P k) eqn:HP.
    + unfold OrderedDict.del. rewrite filter_filter. apply filter_ext.
      intros kv. destruct (decide (kv.1 = k)) as [->|Hne].
      * rewrite (bool_decide_eq_true_2 (k = k)), HP by done.
        rewrite (bool_decide_eq_true_2 (k ∈ k :: ks)); [done|apply list_elem_of_here].
      * rewrite (bool_decide_eq_false_2 (kv.1 = k)) by done. cbn [negb andb].
        do 2 f_equal. apply bool_decide_ext. rewrite elem_of_cons.
        split; [by right | by intros [?|?]].
    + apply filter_ext. intros kv. destruct (decide (kv.1 = k)) as [->|Hne].
      * by rewrite HP.
      * do 2 f_equal. apply bool_decide_ext. rewrite elem_of_cons.
        split; [by right | by intros [?|?]].
Qed.

Lemma fold_del_keys_filter (P : K → bool) d :
  foldl (λ d k, if P k then OrderedDict.del k d else d) d (OrderedDict.keys d)
  = List.filter (λ kv, negb (P kv.1)) d.
Proof.
  rewrite fold_del_filter. apply filter_ext_in. intros kv Hin%list_elem_of_In.
  rewrite (bool_decide_eq_true_2 (kv.1 ∈ OrderedDict.keys d)), andb_true_r; [done|].
  apply list_elem_of_fmap. by exists kv.
Qed.

Lemma fold_del_all_filter (ks : list K) d :
  foldl (λ d k, OrderedDict.del k d) d ks
  = List.filter (λ kv, negb (bool_decide (kv.1 ∈ ks))) d.
Proof. apply (fold_del_filter (λ _, true)). Qed.

Lemma od_get_filter_keys (P : K → bool) k d :
  OrderedDict.get k (List.filter (λ kv, P kv.1) d)
  = if P k then OrderedDict.get k d else None.
Proof.
  induction d as [|[k' v] d IH]; cbn [List.filter OrderedDict.get fst].
  - by destruct (P k).
  - destruct (P k') eqn:HP'; cbn [OrderedDict.get].
    + case_decide; [subst; by rewrite HP'|done].
    + case_decide; [subst; by rewrite HP' in IH |- *|done].
Qed.

Lemma od_mem_filter_keys (P : K → bool) k d :
  OrderedDict.mem k (List.filter (λ kv, P kv.1) d) = P k && OrderedDict.mem k d.
Proof. unfold OrderedDict.mem. rewrite od_get_filter_keys. by destruct (P k). Qed.
End filters.

Section removal_runs.
Context {num : Type}.
Implicit Types m : model num.

Lemma foldl_with_metabolites {A} (g : A → _ → _) (xs : list A) m :
  foldl (λ s x, with_metabolites (g x) s) m xs
  = with_metabolites (λ d, foldl (λ d x, g x d) d xs) m.
Proof.
  revert m. induction xs as [|x xs IH]; intros m; cbn [foldl];
    [by destruct m | by rewrite IH].
Qed.

Lemma foldl_with_stoichiometry' {A} (g : A → _ → _) (xs : list A) m :
  foldl (λ s x, with_stoichiometry (g x) s) m xs
  = with_stoichiometry (λ d, foldl (λ d x, g x d) d xs) m.
Proof.
  revert m. induction xs as [|x xs IH]; intros m; cbn [foldl];
    [by destruct m | by rewrite IH].
Qed.

Lemma foldl_with_reactions' {A} (g : A → _ → _) (xs : list A) m :
  foldl (λ s x, with_reactions (g x) s) m xs
  = with_reactions (λ d, foldl (λ d x, g x d) d xs) m.
Proof.
  revert m. induction xs as [|x xs IH]; intros m; cbn [foldl];
    [by destruct m | by rewrite IH].
Qed.

Lemma remove_reactions_run (ids : list string) m :
  StoichiometricModel.remove_reactions ids m
  = Returned () (without_reactions ids m).
Proof.
  unfold StoichiometricModel.remove_reactions, bind.
  rewrite (for_each_update _ _ (λ r_id, with_reactions (OrderedDict.del r_id))).
  2:{ intros x s. unfold self, when, update, ret.
      destruct (OrderedDict.mem x (reactions s)) eqn:Hm; [done|].
      apply od_mem_false in Hm. destruct s. unfold with_reactions. model_simpl.
      by rewrite od_del_absent. }
  rewrite foldl_with_reactions'. unfold self. model_simpl.
  rewrite (for_each_update _ _
    (λ e, with_stoichiometry
            (λ d, if bool_decide (e.2 ∈ ids) then OrderedDict.del e d else d))).
  2:{ intros [a k] s. unfold when, update, ret. cbn [snd].
      destruct (bool_decide (k ∈ ids)); [done | by destruct s]. }
  rewrite foldl_with_stoichiometry'.
  unfold without_reactions, with_stoichiometry, with_reactions.
  destruct m. model_simpl. f_equal. f_equal.
  - apply fold_del_all_filter.
  - apply (fold_del_keys_filter (λ e, bool_decide (e.2 ∈ ids))).
Qed.

Lemma remove_metabolites_run (ids : list string) m :
  StoichiometricModel.remove_metabolites ids m
  = Returned () (without_metabolites ids m).
Proof.
  unfold StoichiometricModel.remove_metabolites, bind.
  rewrite (for_each_update _ _ (λ m_id, with_metabolites (OrderedDict.del m_id))).
  2:{ intros x s. unfold self, when, update, ret.
      destruct (OrderedDict.mem x (metabolites s)) eqn:Hm; [done|].
      apply od_mem_false in Hm. destruct s. unfold with_metabolites. model_simpl.
      by rewrite od_del_absent. }
  rewrite foldl_with_metabolites. unfold self. model_simpl.
  rewrite (for_each_update _ _
    (λ e, with_stoichiometry
            (λ d, if bool_decide (e.1 ∈ ids) then OrderedDict.del e d else d))).
  2:{ intros [a k] s. unfold when, update, ret. cbn [fst].
      destruct (bool_decide (a ∈ ids)); [done | by destruct s]. }
  rewrite foldl_with_stoichiometry'.
  unfold without_metabolites, with_stoichiometry, with_metabolites.
  destruct m. model_simpl. f_equal. f_equal.
  - apply fold_del_all_filter.
  - apply (fold_del_keys_filter (λ e, bool_decide (e.1 ∈ ids))).
Qed.
End removal_runs.

(** * Removal of reactions on the upper layers *)

Section removal_layers.
Context {num : Type}.
Implicit Types m : model num.

Lemma filter_all {A} (p : A → bool) (l : list A) :
  (∀ x, p x = true) → List.filter p l = l.
Proof.
  intros Hp. induction l as [|x l IH]; [done|].
  cbn [List.filter]. by rewrite Hp, IH.
Qed.

Lemma od_mem_del {K V} `{EqDecision K} (k r : K) (d : list (K * V)) :
  OrderedDict.mem k (OrderedDict.del r d)
  = negb (bool_decide (k = r)) && OrderedDict.mem k d.
Proof.
  exact (od_mem_filter_keys (λ k' : K, negb (bool_decide (k' = r))) k d).
Qed.

Lemma del_then_filter {K V} `{EqDecision K} (r : K) (ids : list K) (d : list (K * V)) :
  List.filter (λ kv, negb (bool_decide (kv.1 ∈ ids))) (OrderedDict.del r d)
  = List.filter (λ kv, negb (bool_decide (kv.1 ∈ r :: ids))) d.
Proof.
  unfold OrderedDict.del. rewrite filter_filter. apply filter_ext. intros kv.
  destruct (decide (kv.1 = r)) as [->|Hne].
  - rewrite (bool_decide_eq_true_2 (r = r)) by done.
    by rewrite (bool_decide_eq_true_2 (r ∈ r :: ids)) by apply list_elem_of_here.
  - rewrite (bool_decide_eq_false_2 (kv.1 = r)) by done. cbn [negb andb].
    f_equal. apply bool_decide_ext. rewrite elem_of_cons.
    split; [by right | by intros [?|?]].
Qed.

(** Whether the ids of a list can be deleted one after the other from a
    dictionary: each one is a key, and none comes twice. *)
Lemma deletable_cons {K V} `{EqDecision K} (r : K) (ids : list K) (d : list (K * V)) :
  OrderedDict.mem r d = true →
  (NoDup (r :: ids) ∧ Forall (λ k, OrderedDict.mem k d = true) (r :: ids))
  ↔ (NoDup ids ∧ Forall (λ k, OrderedDict.mem k (OrderedDict.del r d) = true) ids).
Proof.
  intros Hr. rewrite NoDup_cons, Forall_cons, !Forall_forall. split.
  - intros [[Hnotin Hnd] [_ Hall]]. split; [done|]. intros k Hk.
    rewrite od_mem_del, (Hall k Hk), bool_decide_eq_false_2; [done|].
    by intros ->.
  - intros [Hnd Hall]. split_and!; [|done|done|].
    + intros Hin. specialize (Hall r Hin).
      by rewrite od_mem_del, bool_decide_eq_true_2 in Hall.
    + intros k Hk. specialize (Hall k Hk). rewrite od_mem_del in Hall.
      by apply andb_true_iff in Hall as [_ ?].
Qed.

Lemma bounds_loop_run (ids : list string) : ∀ m,
  (NoDup ids ∧ Forall (λ r, OrderedDict.mem r (bounds m) = true) ids →
   for_each ids (λ r_id,
     m <- self ;;
     if OrderedDict.mem r_id (bounds m)
     then update (with_bounds (OrderedDict.del r_id))
     else raise KeyError) m
   = Returned ()
       (with_bounds (List.filter (λ kv, negb (bool_decide (kv.1 ∈ ids)))) m))
  ∧ (¬ (NoDup ids ∧ Forall (λ r, OrderedDict.mem r (bounds m) = true) ids) →
     ∃ bs,
       for_each ids (λ r_id,
         m <- self ;;
         if OrderedDict.mem r_id (bounds m)
         then update (with_bounds (OrderedDict.del r_id))
         else raise KeyError) m
       = Raised KeyError (with_bounds (λ _, bs) m)).
Proof.
  induction ids as [|r ids IH]; intros m.
  - split.
    + intros _. cbn [for_each]. unfold ret, with_bounds.
      rewrite filter_all; [by destruct m|]. intros kv.
      rewrite bool_decide_eq_false_2; [done|]. by intros ?%elem_of_nil.
    + intros []. split; constructor.
  - destruct (IH (with_bounds (OrderedDict.del r) m)) as [IHok IHko].
    cbn [for_each]. split.
    + intros Hok. pose proof Hok as [_ [Hr _]%Forall_cons].
      apply (deletable_cons r ids _ Hr) in Hok.
      unfold bind at 1. unfold bind at 1. unfold self at 1. rewrite Hr.
      unfold update at 1.
      etrans; [exact (IHok Hok)|]. unfold with_bounds. model_simpl.
      by rewrite del_then_filter.
    + intros Hko. unfold bind at 1. unfold bind at 1. unfold self at 1.
      destruct (OrderedDict.mem r (bounds m)) eqn:Hr.
      * unfold update at 1. destruct IHko as [bs Hbs].
        { intros Hok. by apply Hko, (deletable_cons r ids _ Hr). }
        exists bs. etrans; [exact Hbs|]. unfold with_bounds. by model_simpl.
      * exists (bounds m). unfold raise, with_bounds. by destruct m.
Qed.

Lemma rules_loop_run (ids : list string) : ∀ m,
  NoDup ids →
  Forall (λ r, OrderedDict.mem r (rules m) = true) ids →
  Forall (λ r, OrderedDict.mem r (rule_functions m) = true) ids →
  for_each ids (λ r_id,
    m <- self ;;
    (if OrderedDict.mem r_id (rules m)
     then update (with_rules (OrderedDict.del r_id))
     else raise KeyError) ;;
    m <- self ;;
    if OrderedDict.mem r_id (rule_functions m)
    then update (with_rule_functions (OrderedDict.del r_id))
    else raise KeyError) m
  = Returned ()
      (with_rule_functions (List.filter (λ kv, negb (bool_decide (kv.1 ∈ ids))))
         (with_rules (List.filter (λ kv, negb (bool_decide (kv.1 ∈ ids)))) m)).
Proof.
  induction ids as [|r ids IH]; intros m Hnd Hrl Hrf.
  - cbn [for_each]. unfold ret, with_rules, with_rule_functions. model_simpl.
    rewrite !filter_all; [by destruct m|..]; intros kv;
      (rewrite bool_decide_eq_false_2; [done|]; by intros ?%elem_of_nil).
  - cbn [for_each]. unfold bind at 1. unfold bind at 1. unfold self at 1.
    apply Forall_cons in Hrl as [Hr1 Hrl]. apply Forall_cons in Hrf as [Hr2 Hrf].
    unfold bind at 1. rewrite Hr1. unfold update at 1.
    unfold bind at 1. unfold self at 1. model_simpl. rewrite Hr2.
    unfold update at 1.
    apply NoDup_cons in Hnd as [Hnotin Hnd].
    rewrite IH; [|done|..].
    + unfold with_rules, with_rule_functions. model_simpl.
      by rewrite !del_then_filter.
    + model_simpl. rewrite Forall_forall in Hrl |- *. intros k Hk.
      rewrite od_mem_del, (Hrl k Hk), bool_decide_eq_false_2; [done|].
      by intros ->.
    + model_simpl. rewrite Forall_forall in Hrf |- *. intros k Hk.
      rewrite od_mem_del, (Hrf k Hk), bool_decide_eq_false_2; [done|].
      by intros ->.
Qed.

(** X8. [remove_reactions] of the stoichiometric layer never raises,
    whatever the ids: it filters the listed ids out of the reactions and
    the edges on them out of the stoichiometry, keeping the order of what
    stays; ids that are no reactions and repeated ids are ignored. *)
Theorem stoichiometric_remove_reactions_filters (id_list : list string) m :
  StoichiometricModel.remove_reactions id_list m
  = Returned () (without_reactions id_list m).
Proof. apply remove_reactions_run. Qed.

(** X9. [remove_metabolites] never raises: it filters the listed ids out
    of the metabolites and the edges on them out of the stoichiometry,
    keeping the order of what stays. *)
Theorem remove_metabolites_filters (id_list : list string) m :
  StoichiometricModel.remove_metabolites id_list m
  = Returned () (without_metabolites id_list m).
Proof. apply remove_metabolites_run. Qed.

(** X10. On the constraint-based layer [remove_reactions] returns when the
    ids are distinct and each has a bounds entry; the reactions, their
    edges and their bounds are then filtered out, in order. *)
Theorem constraint_based_remove_reactions_returns (id_list : list string) m :
  NoDup id_list →
  Forall (λ r, OrderedDict.mem r (bounds m) = true) id_list →
  ConstraintBasedModel.remove_reactions id_list m
  = Returned ()
      (with_bounds (List.filter (λ kv, negb (bool_decide (kv.1 ∈ id_list))))
         (without_reactions id_list m)).
Proof.
  intros Hnd Hall. unfold ConstraintBasedModel.remove_reactions.
  unfold bind at 1. rewrite remove_reactions_run.
  by apply (bounds_loop_run id_list (without_reactions id_list m)).
Qed.

(** X11. In every other case, an id without bounds entry or an id listed
    twice, [remove_reactions] of the constraint-based layer raises
    KeyError, and by then every listed reaction and every edge on one is
    already gone; only the bounds differ from what a completed removal
    leaves. *)
Theorem constraint_based_remove_reactions_raises (id_list : list string) m :
  ¬ (NoDup id_list
     ∧ Forall (λ r, OrderedDict.mem r (bounds m) = true) id_list) →
  ∃ bs,
    ConstraintBasedModel.remove_reactions id_list m
    = Raised KeyError (with_bounds (λ _, bs) (without_reactions id_list m)).
Proof.
  intros Hko. unfold ConstraintBasedModel.remove_reactions.
  unfold bind at 1. rewrite remove_reactions_run.
  by apply (bounds_loop_run id_list (without_reactions id_list m)).
Qed.

(** X12. On the gene-rule layer [remove_reactions] returns when the ids
    are distinct and each has a bounds entry, a rule and a compiled
    predicate; reactions, edges, bounds, rules and predicates are then
    filtered out, in order. *)
Theorem gpr_remove_reactions_returns (id_list : list string) m :
  NoDup id_list →
  Forall (λ r, OrderedDict.mem r (bounds m) = true) id_list →
  Forall (λ r, OrderedDict.mem r (rules m) = true) id_list →
  Forall (λ r, OrderedDict.mem r (rule_functions m) = true) id_list →
  GPRConstrainedModel.remove_reactions id_list m
  = Returned ()
      (with_rule_functions
         (List.filter (λ kv, negb (bool_decide (kv.1 ∈ id_list))))
         (with_rules (List.filter (λ kv, negb (bool_decide (kv.1 ∈ id_list))))
            (with_bounds (List.filter (λ kv, negb (bool_decide (kv.1 ∈ id_list))))
               (without_reactions id_list m)))).
Proof.
  intros Hnd Hb Hrl Hrf. unfold GPRConstrainedModel.remove_reactions.
  unfold bind at 1. unfold ConstraintBasedModel.remove_reactions.
  unfold bind at 1. rewrite remove_reactions_run.
  rewrite (proj1 (bounds_loop_run id_list (without_reactions id_list m))) by done.
  by apply rules_loop_run.
Qed.
End removal_layers.

(** X10, an instance: R and EX_B removed from the constraint-based
    example. *)
Lemma constraint_based_remove_reactions_returns_witness :
  NoDup ["EX_B"; "R"]
  ∧ Forall (λ r, OrderedDict.mem r (bounds toy_constrained) = true) ["EX_B"; "R"]
  ∧ ∃ m', ConstraintBasedModel.remove_reactions ["EX_B"; "R"] toy_constrained
          = Returned () m'
          ∧ reactions m' = [] ∧ stoichiometry m' = [] ∧ bounds m' = [].
Proof.
  assert (Hnd : NoDup ["EX_B"; "R"])
    by (apply (bool_decide_unpack _); vm_compute; exact I).
  assert (Hall : Forall (λ r, OrderedDict.mem r (bounds toy_constrained) = true)
                   ["EX_B"; "R"]) by (repeat constructor).
  split_and!; [exact Hnd | exact Hall |].
  eexists. split;
    [exact (constraint_based_remove_reactions_returns _ toy_constrained Hnd Hall)|].
  split_and!; vm_compute; reflexivity.
Defined.

(** X11, an instance: an id listed twice. *)
Lemma constraint_based_remove_reactions_raises_witness :
  ¬ (NoDup ["R"; "R"]
     ∧ Forall (λ r, OrderedDict.mem r (bounds toy_constrained) = true) ["R"; "R"])
  ∧ ∃ m', ConstraintBasedModel.remove_reactions ["R"; "R"] toy_constrained
          = Raised KeyError m'.
Proof.
  assert (Hko : ¬ (NoDup ["R"; "R"]
     ∧ Forall (λ r, OrderedDict.mem r (bounds toy_constrained) = true) ["R"; "R"])).
  { intros [Hnd _]. apply NoDup_cons in Hnd as [Hnotin _].
    apply Hnotin, list_elem_of_here. }
  split; [exact Hko|].
  destruct (constraint_based_remove_reactions_raises _ toy_constrained Hko)
    as [bs Hrun].
  by eexists.
Defined.

(** X12, an instance: R removed from the gene-rule example. *)
Lemma gpr_remove_reactions_returns_witness :
  NoDup ["R"]
  ∧ ∃ m', GPRConstrainedModel.remove_reactions ["R"] toy_gpr = Returned () m'
          ∧ OrderedDict.keys (reactions m') = ["EX_B"]
          ∧ OrderedDict.keys (rules m') = ["EX_B"]
          ∧ OrderedDict.keys (rule_functions m') = ["EX_B"].
Proof.
  assert (Hnd : NoDup ["R"])
    by (apply (bool_decide_unpack _); vm_compute; exact I).
  split; [exact Hnd|].
  eexists. split.
  - apply (gpr_remove_reactions_returns _ toy_gpr Hnd); repeat constructor.
  - split_and!; vm_compute; reflexivity.
Defined.

(** * Invariants of the model's methods *)

Section invariant_rules.
Context {num : Type}.
Implicit Types (m : model num) (P : model num → Prop).

Lemma preserves_ret {A} P (a : A) : preserves P (ret a).
Proof. by intros m. Qed.

Lemma preserves_raise {A} P (e : exn) : preserves (A := A) P (raise e).
Proof. by intros m. Qed.

Lemma preserves_update P (f : model num → model num) :
  (∀ m, P m → P (f m)) → preserves P (update f).
Proof. intros Hf m Hm. by apply Hf. Qed.

Lemma preserves_bind {A B} P (c : method (model num) A)
    (k : A → method (model num) B) :
  preserves P c → (∀ a, preserves P (k a)) → preserves P (bind c k).
Proof.
  intros Hc Hk m Hm. specialize (Hc m Hm). unfold bind.
  destruct (c m) as [a m'|e m'|]; [by apply Hk | done | done].
Qed.

Lemma preserves_self {B} P (k : model num → method (model num) B) :
  (∀ m, P m → leaves P (k m m)) → preserves P (bind self k).
Proof. intros Hk m Hm. by apply Hk. Qed.

Lemma preserves_when P (b : bool) (c : method (model num) unit) :
  preserves P c → preserves P (when b c).
Proof. intros Hc. destruct b; [done | apply preserves_ret]. Qed.

Lemma preserves_for_each_in {A} P (xs : list A)
    (body : A → method (model num) unit) :
  (∀ x, x ∈ xs → preserves P (body x)) → preserves P (for_each xs body).
Proof.
  induction xs as [|x xs IH]; intros Hbody; cbn [for_each].
  - apply preserves_ret.
  - apply preserves_bind; [apply Hbody, list_elem_of_here|].
    intros _. apply IH. intros y Hy. by apply Hbody, list_elem_of_further.
Qed.

Lemma preserves_for_each {A} P (xs : list A)
    (body : A → method (model num) unit) :
  (∀ x, preserves P (body x)) → preserves P (for_each xs body).
Proof. intros Hbody. apply preserves_for_each_in. intros x _. apply Hbody. Qed.

Lemma leaves_impl {A} P (Q : model num → Prop) (o : outcome (model num) A) :
  (∀ m, P m → Q m) → leaves P o → leaves Q o.
Proof. intros HPQ. destruct o; cbn [leaves]; auto. Qed.
End invariant_rules.

(** ** Every edge joins a metabolite and a reaction of the model *)

Section edges_resolved_invariant.
Context {num : Type}.
Implicit Types m : model num.

Lemma od_mem_filter_out {V} (ids : list string) (k : string) (d : list (string * V)) :
  OrderedDict.mem k (List.filter (λ kv, negb (bool_decide (kv.1 ∈ ids))) d)
  = negb (bool_decide (k ∈ ids)) && OrderedDict.mem k d.
Proof.
  exact (od_mem_filter_keys (λ k' : string, negb (bool_decide (k' ∈ ids))) k d).
Qed.

Lemma edges_resolved_grow m m' :
  (∀ k, OrderedDict.mem k (metabolites m) = true →
        OrderedDict.mem k (metabolites m') = true) →
  (∀ k, OrderedDict.mem k (reactions m) = true →
        OrderedDict.mem k (reactions m') = true) →
  stoichiometry m' = stoichiometry m →
  edges_resolved m → edges_resolved m'.
Proof.
  unfold edges_resolved. intros Hme Hrs -> Hm.
  eapply Forall_impl; [exact Hm|].
  intros e [? ?]. split; [by apply Hme | by apply Hrs].
Qed.

Lemma edges_resolved_add_metabolite (x : Metabolite.t) :
  preserves (num := num) edges_resolved (StoichiometricModel.add_metabolite x).
Proof.
  apply preserves_self. intros m Hm. apply preserves_when; [|done].
  apply preserves_update. intros m0. apply edges_resolved_grow; [|done..].
  intros k. apply od_mem_set.
Qed.

Lemma edges_resolved_with_reactions_set (r : string) (x : Reaction.t) m :
  edges_resolved m → edges_resolved (with_reactions (OrderedDict.set r x) m).
Proof.
  apply edges_resolved_grow; [done| |done]. intros k. apply od_mem_set.
Qed.

Lemma edges_resolved_frame m m' :
  metabolites m' = metabolites m → reactions m' = reactions m →
  stoichiometry m' = stoichiometry m →
  edges_resolved m → edges_resolved m'.
Proof. unfold edges_resolved. by intros -> -> ->. Qed.

Lemma edges_resolved_set_rule (r : string) (rule : option string) :
  preserves (num := num) edges_resolved (GPRConstrainedModel.set_rule r rule).
Proof.
  apply preserves_self. intros m Hm. apply preserves_when; [|done].
  apply preserves_bind.
  { apply preserves_update. intros m0. by apply edges_resolved_frame. }
  intros _. apply preserves_bind.
  - unfold GPRConstrainedModel._rule_to_function. apply preserves_self.
    intros m0 Hm0. by destruct (Python.eval _).
  - intros f. apply preserves_update. intros m0. by apply edges_resolved_frame.
Qed.

Lemma edges_resolved_add_reaction (x : Reaction.t) :
  preserves (num := num) edges_resolved (add_reaction x).
Proof.
  apply preserves_self. intros m Hm.
  assert (Hbase : preserves (num := num) edges_resolved
                    (StoichiometricModel.add_reaction x)).
  { apply preserves_update. intros m0. apply edges_resolved_with_reactions_set. }
  assert (Hcb : ∀ lb ub, preserves (num := num) edges_resolved
                           (ConstraintBasedModel.add_reaction x lb ub)).
  { intros lb ub. apply preserves_bind; [done|]. intros _.
    apply preserves_update. intros m0. by apply edges_resolved_frame. }
  destruct (cls m); [by apply Hbase | by apply Hcb |].
  apply preserves_bind; [apply Hcb | intros _; apply edges_resolved_set_rule | done].
Qed.

Lemma edges_resolved_add_stoichiometry (es : list (string * string * num)) :
  preserves edges_resolved (StoichiometricModel.add_stoichiometry es).
Proof.
  apply preserves_for_each. intros [[a r] c]. apply preserves_self.
  intros m Hm. destruct (OrderedDict.mem a (metabolites m)) eqn:Ha;
    destruct (OrderedDict.mem r (reactions m)) eqn:Hr; cbn [andb when]; try done.
  unfold update, leaves, edges_resolved. cbn [stoichiometry metabolites reactions
    with_stoichiometry]. by apply od_Forall_set.
Qed.

Lemma edges_resolved_without_metabolites (ids : list string) m :
  edges_resolved m → edges_resolved (without_metabolites ids m).
Proof.
  unfold edges_resolved, without_metabolites. model_simpl.
  rewrite !Forall_forall. intros Hm e [He Hk]%list_elem_of_In%filter_In.
  apply list_elem_of_In in He. destruct (Hm e He) as [Ha Hr]. split; [|done].
  rewrite od_mem_filter_out. cbn [fst snd] in Hk. by rewrite Hk, Ha.
Qed.

Lemma edges_resolved_without_reactions (ids : list string) m :
  edges_resolved m → edges_resolved (without_reactions ids m).
Proof.
  unfold edges_resolved, without_reactions. model_simpl.
  rewrite !Forall_forall. intros Hm e [He Hk]%list_elem_of_In%filter_In.
  apply list_elem_of_In in He. destruct (Hm e He) as [Ha Hr]. split; [done|].
  rewrite od_mem_filter_out. cbn [fst snd] in Hk. by rewrite Hk, Hr.
Qed.

Lemma edges_resolved_remove_metabolites (ids : list string) :
  preserves (num := num) edges_resolved (StoichiometricModel.remove_metabolites ids).
Proof.
  intros m Hm. rewrite remove_metabolites_run.
  by apply edges_resolved_without_metabolites.
Qed.

Lemma edges_resolved_remove_reactions (ids : list string) :
  preserves (num := num) edges_resolved (remove_reactions ids).
Proof.
  assert (Hbase : preserves (num := num) edges_resolved
                    (StoichiometricModel.remove_reactions ids)).
  { intros m Hm. rewrite remove_reactions_run.
    by apply edges_resolved_without_reactions. }
  assert (Hcb : preserves (num := num) edges_resolved
                  (ConstraintBasedModel.remove_reactions ids)).
  { apply preserves_bind; [done|]. intros _. apply preserves_for_each.
    intros r. apply preserves_self. intros m Hm.
    destruct (OrderedDict.mem r (bounds m)); [|done].
    by apply (edges_resolved_frame m). }
  apply preserves_self. intros m Hm.
  destruct (cls m); [by apply Hbase | by apply Hcb |].
  apply preserves_bind; [done| |done]. intros _. apply preserves_for_each.
  intros r. apply preserves_self. intros m0 Hm0. apply preserves_bind.
  - destruct (OrderedDict.mem r (rules m0)); [|apply preserves_raise].
    apply preserves_update. intros m1. by apply edges_resolved_frame.
  - intros _. apply preserves_self. intros m1 Hm1.
    destruct (OrderedDict.mem r (rule_functions m1)); [|done].
    by apply (edges_resolved_frame m1).
  - by apply (edges_resolved_frame m0).
Qed.

Lemma edges_resolved_remove_compartment (c : string) (delete_metabolites : bool) :
  preserves (num := num) edges_resolved
    (StoichiometricModel.remove_compartment c delete_metabolites).
Proof.
  apply preserves_self. intros m Hm. apply preserves_when; [|done].
  apply preserves_bind.
  { apply preserves_update. intros m0. by apply edges_resolved_frame. }
  intros _. apply preserves_when. apply preserves_self. intros m0 Hm0.
  by apply edges_resolved_remove_metabolites.
Qed.

(** X13. That every edge joins a metabolite and a reaction of the model
    is an invariant of the model's methods: it holds after [add_metabolite],
    [add_metabolites], [add_reaction], [add_reactions], [add_compartment],
    [add_stoichiometry], [remove_metabolites], [remove_reactions] and
    [remove_compartment] when it held before, in every class and also
    when the call raised. *)
Theorem edges_resolved_invariant :
  (∀ x, preserves (num := num) edges_resolved (StoichiometricModel.add_metabolite x))
  ∧ (∀ xs, preserves (num := num) edges_resolved
             (StoichiometricModel.add_metabolites xs))
  ∧ (∀ x, preserves (num := num) edges_resolved (add_reaction x))
  ∧ (∀ xs, preserves (num := num) edges_resolved (add_reactions xs))
  ∧ (∀ x, preserves (num := num) edges_resolved
            (StoichiometricModel.add_compartment x))
  ∧ (∀ es, preserves (num := num) edges_resolved
             (StoichiometricModel.add_stoichiometry es))
  ∧ (∀ ids, preserves (num := num) edges_resolved
              (StoichiometricModel.remove_metabolites ids))
  ∧ (∀ ids, preserves (num := num) edges_resolved (remove_reactions ids))
  ∧ (∀ c b, preserves (num := num) edges_resolved
              (StoichiometricModel.remove_compartment c b)).
Proof.
  split_and!.
  - apply edges_resolved_add_metabolite.
  - intros xs. apply preserves_for_each, edges_resolved_add_metabolite.
  - apply edges_resolved_add_reaction.
  - intros xs. apply preserves_for_each, edges_resolved_add_reaction.
  - intros x. apply preserves_update. intros m. by apply edges_resolved_frame.
  - apply edges_resolved_add_stoichiometry.
  - apply edges_resolved_remove_metabolites.
  - apply edges_resolved_remove_reactions.
  - apply edges_resolved_remove_compartment.
Qed.
End edges_resolved_invariant.

(** ** Every metabolite names a compartment of the model *)

Section compartments_invariant.
Context {num : Type}.
Implicit Types m : model num.

Lemma compartments_resolved_add_metabolite (x : Metabolite.t) :
  preserves (num := num) compartments_resolved
    (StoichiometricModel.add_metabolite x).
Proof.
  apply preserves_self. intros m Hm.
  destruct (_ || _) eqn:Hcond; [|done].
  unfold when, update, leaves, compartments_resolved in *. model_simpl.
  apply od_Forall_set; [done|]. cbn [snd]. intros Htruthy.
  rewrite Htruthy, orb_false_r in Hcond.
  destruct (Metabolite.compartment x) as [c|]; [by exists c | done].
Qed.

Lemma compartments_resolved_add_compartment (x : Compartment.t) :
  preserves (num := num) compartments_resolved
    (StoichiometricModel.add_compartment x).
Proof.
  apply preserves_update. intros m Hm.
  unfold compartments_resolved in *. model_simpl.
  eapply Forall_impl; [exact Hm|]. intros kv Hkv Htruthy.
  destruct (Hkv Htruthy) as (c & Hc & Hmem). exists c. split; [done|].
  by apply od_mem_set.
Qed.

Lemma compartments_resolved_without_metabolites (ids : list string) m :
  compartments_resolved m → compartments_resolved (without_metabolites ids m).
Proof.
  unfold compartments_resolved, without_metabolites. model_simpl.
  rewrite !Forall_forall. intros Hm kv [Hkv _]%list_elem_of_In%filter_In.
  by apply Hm, list_elem_of_In.
Qed.

Lemma compartments_resolved_remove_compartment (c : string) :
  preserves (num := num) compartments_resolved
    (StoichiometricModel.remove_compartment c true).
Proof.
  apply preserves_self. intros m Hm.
  destruct (OrderedDict.mem c (compartments m)) eqn:Hc; [|done].
  unfold when, bind, update, self. rewrite remove_metabolites_run.
  unfold leaves, compartments_resolved, without_metabolites in *. model_simpl.
  rewrite !Forall_forall in *.
  intros kv [Hkv Hout]%list_elem_of_In%filter_In Htruthy.
  apply list_elem_of_In in Hkv.
  destruct (Hm kv Hkv Htruthy) as (c0 & Hc0 & Hmem). exists c0. split; [done|].
  rewrite od_mem_del_ne; [done|]. intros <-.
  apply negb_true_iff, bool_decide_eq_false in Hout. apply Hout.
  apply list_elem_of_fmap. exists kv. split; [done|].
  apply list_elem_of_In, filter_In. split; [by apply list_elem_of_In|].
  by apply bool_decide_eq_true.
Qed.

(** X14. That every metabolite with a compartment names a compartment of
    the model is an invariant of [add_metabolite], [add_metabolites],
    [add_compartment], [add_compartments], [remove_metabolites] and of
    [remove_compartment] with its default [delete_metabolites=True]. *)
Theorem compartments_resolved_invariant :
  (∀ x, preserves (num := num) compartments_resolved
          (StoichiometricModel.add_metabolite x))
  ∧ (∀ xs, preserves (num := num) compartments_resolved
             (StoichiometricModel.add_metabolites xs))
  ∧ (∀ x, preserves (num := num) compartments_resolved
            (StoichiometricModel.add_compartment x))
  ∧ (∀ xs, preserves (num := num) compartments_resolved
             (StoichiometricModel.add_compartments xs))
  ∧ (∀ ids, preserves (num := num) compartments_resolved
              (StoichiometricModel.remove_metabolites ids))
  ∧ (∀ c, preserves (num := num) compartments_resolved
            (StoichiometricModel.remove_compartment c true)).
Proof.
  split_and!.
  - apply compartments_resolved_add_metabolite.
  - intros xs. apply preserves_for_each, compartments_resolved_add_metabolite.
  - apply compartments_resolved_add_compartment.
  - intros xs. apply preserves_for_each, compartments_resolved_add_compartment.
  - intros ids m Hm. rewrite remove_metabolites_run.
    by apply compartments_resolved_without_metabolites.
  - apply compartments_resolved_remove_compartment.
Qed.
End compartments_invariant.

(** ** Every reaction has bounds *)

Section bounds_invariant.
Context {num : Type}.
Implicit Types m : model num.

Lemma bounds_present_grow m m' :
  cls m' = cls m → reactions m' = reactions m →
  (∀ k, OrderedDict.mem k (bounds m) = true →
        OrderedDict.mem k (bounds m') = true) →
  bounds_present m → bounds_present m'.
Proof.
  unfold bounds_present. intros -> -> Hb Hm Hc.
  eapply Forall_impl; [exact (Hm Hc)|]. intros kr. apply Hb.
Qed.

Lemma bounds_present_set_rule (r : string) (rule : option string) :
  preserves (num := num) bounds_present (GPRConstrainedModel.set_rule r rule).
Proof.
  apply preserves_self. intros m Hm. apply preserves_when; [|done].
  apply preserves_bind.
  { apply preserves_update. intros m0. by apply bounds_present_grow. }
  intros _. apply preserves_bind.
  - unfold GPRConstrainedModel._rule_to_function. apply preserves_self.
    intros m0 Hm0. by destruct (Python.eval _).
  - intros f. apply preserves_update. intros m0. by apply bounds_present_grow.
Qed.

Lemma bounds_present_add_reaction (x : Reaction.t) :
  preserves (num := num) bounds_present (add_reaction x).
Proof.
  assert (Hcb : ∀ lb ub m, bounds_present m →
            leaves bounds_present (ConstraintBasedModel.add_reaction x lb ub m)).
  { intros lb ub m Hm. unfold ConstraintBasedModel.add_reaction,
      StoichiometricModel.add_reaction, bind, update, leaves, bounds_present in *.
    model_simpl. intros Hc. apply Forall_forall.
    intros [k v] [[= -> ->]|Hin]%od_elem_set; cbn [fst].
    - apply od_mem_set_eq.
    - apply od_mem_set. specialize (Hm Hc). rewrite Forall_forall in Hm.
      apply (Hm (k, v) Hin). }
  apply preserves_self. intros m Hm. destruct (cls m) eqn:Hcls.
  - unfold StoichiometricModel.add_reaction, update, leaves, bounds_present.
    model_simpl. by rewrite Hcls.
  - by apply Hcb.
  - unfold GPRConstrainedModel.add_reaction, bind.
    specialize (Hcb None None m Hm).
    destruct (ConstraintBasedModel.add_reaction x None None m) as [[] m1|e m1|];
      [|done..].
    by apply bounds_present_set_rule.
Qed.

Lemma bounds_present_set_flux_bounds (r : string) (lb ub : option num) :
  preserves bounds_present (ConstraintBasedModel.set_flux_bounds r lb ub).
Proof.
  apply preserves_self. intros m Hm. apply preserves_when; [|done].
  apply preserves_update. intros m0. apply bounds_present_grow; [done..|].
  intros k. apply od_mem_set.
Qed.

Lemma bounds_present_set_lower_bound (r : string) (lb : option num) :
  preserves bounds_present (ConstraintBasedModel.set_lower_bound r lb).
Proof.
  apply preserves_self. intros m Hm. apply preserves_when; [|done].
  unfold subscript. apply preserves_bind.
  - destruct (OrderedDict.get r (bounds m));
      [apply preserves_ret | apply preserves_raise].
  - intros old. apply preserves_update. intros m0.
    apply bounds_present_grow; [done..|]. intros k. apply od_mem_set.
Qed.

Lemma bounds_present_set_upper_bound (r : string) (ub : option num) :
  preserves bounds_present (ConstraintBasedModel.set_upper_bound r ub).
Proof.
  apply preserves_self. intros m Hm. apply preserves_when; [|done].
  unfold subscript. apply preserves_bind.
  - destruct (OrderedDict.get r (bounds m));
      [apply preserves_ret | apply preserves_raise].
  - intros old. apply preserves_update. intros m0.
    apply bounds_present_grow; [done..|]. intros k. apply od_mem_set.
Qed.

Lemma bounds_present_outside_without (ids : list string) m :
  bounds_present m → bounds_present_outside ids (without_reactions ids m).
Proof.
  unfold bounds_present_outside, bounds_present, without_reactions. model_simpl.
  intros Hm. split.
  - intros Hc. specialize (Hm Hc). rewrite !Forall_forall in *.
    intros kr [Hkr _]%list_elem_of_In%filter_In. by apply Hm, list_elem_of_In.
  - apply Forall_forall. intros kr [_ Hout]%list_elem_of_In%filter_In.
    by apply negb_true_iff, bool_decide_eq_false in Hout.
Qed.

Lemma bounds_present_outside_del (ids : list string) (r : string) m :
  r ∈ ids → bounds_present_outside ids m →
  bounds_present_outside ids (with_bounds (OrderedDict.del r) m).
Proof.
  unfold bounds_present_outside, bounds_present. model_simpl.
  intros Hr [Hm Hout]. split; [|done]. intros Hc. specialize (Hm Hc).
  rewrite !Forall_forall in *. intros kr Hkr.
  rewrite od_mem_del_ne; [by apply Hm|]. intros ->. by apply (Hout kr Hkr).
Qed.

Lemma bounds_present_outside_frame (ids : list string) m m' :
  cls m' = cls m → reactions m' = reactions m → bounds m' = bounds m →
  bounds_present_outside ids m → bounds_present_outside ids m'.
Proof.
  unfold bounds_present_outside, bounds_present. by intros -> -> ->.
Qed.

Lemma bounds_present_remove_reactions (ids : list string) :
  preserves (num := num) bounds_present (remove_reactions ids).
Proof.
  assert (Hcb : ∀ m, bounds_present m →
            leaves (bounds_present_outside ids)
              (ConstraintBasedModel.remove_reactions ids m)).
  { intros m Hm. unfold ConstraintBasedModel.remove_reactions, bind.
    rewrite remove_reactions_run.
    apply preserves_for_each_in; [|by apply bounds_present_outside_without].
    intros r Hr. apply preserves_self. intros m0 Hm0.
    destruct (OrderedDict.mem r (bounds m0)); [|done].
    by apply bounds_present_outside_del. }
  apply preserves_self. intros m Hm. destruct (cls m) eqn:Hcls.
  - rewrite remove_reactions_run. unfold leaves, bounds_present, without_reactions.
    model_simpl. by rewrite Hcls.
  - eapply leaves_impl; [|by apply Hcb]. by intros m0 [? _].
  - unfold GPRConstrainedModel.remove_reactions, bind. specialize (Hcb m Hm).
    destruct (ConstraintBasedModel.remove_reactions ids m) as [[] m1|e m1|];
      [|by destruct Hcb|done].
    apply (leaves_impl (bounds_present_outside ids)); [by intros m0 [? _]|].
    apply preserves_for_each; [|exact Hcb].
    intros r. apply preserves_self. intros m0 Hm0. apply preserves_bind.
    + destruct (OrderedDict.mem r (rules m0)); [|apply preserves_raise].
      apply preserves_update. intros m2. by apply bounds_present_outside_frame.
    + intros _. apply preserves_self. intros m2 Hm2.
      destruct (OrderedDict.mem r (rule_functions m2)); [|done].
      by apply (bounds_present_outside_frame ids m2).
    + by apply (bounds_present_outside_frame ids m0).
Qed.

(** X15. From the constraint-based layer downwards, that every reaction
    has a bounds entry is an invariant of [add_reaction], [add_reactions],
    [set_flux_bounds], [set_bounds], [set_lower_bound], [set_upper_bound]
    and [remove_reactions], also when the call raised KeyError. *)
Theorem bounds_present_invariant :
  (∀ x, preserves (num := num) bounds_present (add_reaction x))
  ∧ (∀ xs, preserves (num := num) bounds_present (add_reactions xs))
  ∧ (∀ r lb ub, preserves (num := num) bounds_present
                  (ConstraintBasedModel.set_flux_bounds r lb ub))
  ∧ (∀ bl, preserves (num := num) bounds_present
             (ConstraintBasedModel.set_bounds bl))
  ∧ (∀ r lb, preserves (num := num) bounds_present
               (ConstraintBasedModel.set_lower_bound r lb))
  ∧ (∀ r ub, preserves (num := num) bounds_present
               (ConstraintBasedModel.set_upper_bound r ub))
  ∧ (∀ ids, preserves (num := num) bounds_present (remove_reactions ids)).
Proof.
  split_and!.
  - apply bounds_present_add_reaction.
  - intros xs. apply preserves_for_each, bounds_present_add_reaction.
  - apply bounds_present_set_flux_bounds.
  - intros bl. apply preserves_for_each. intros [[r lb] ub].
    apply bounds_present_set_flux_bounds.
  - apply bounds_present_set_lower_bound.
  - apply bounds_present_set_upper_bound.
  - apply bounds_present_remove_reactions.
Qed.
End bounds_invariant.

(** ** Every rule has its compiled predicate *)

Section rules_invariant.
Context {num : Type}.
Implicit Types m : model num.

Lemma rules_in_sync_frame m m' :
  rules m' = rules m → rule_functions m' = rule_functions m →
  rules_in_sync m → rules_in_sync m'.
Proof. unfold rules_in_sync. by intros -> ->. Qed.

Lemma rules_in_sync_set_rule (r : string) (rule : option string) :
  preserves (num := num) rules_in_sync (GPRConstrainedModel.set_rule r rule).
Proof.
  intros m Hm.
  destruct (GPRConstrainedModel.set_rule r rule m) as [[] m'|e m'|] eqn:Hrun;
    cbn [leaves]; [by apply (set_rule_in_sync m r rule) | | done].
  exfalso. revert Hrun.
  unfold GPRConstrainedModel.set_rule, GPRConstrainedModel._rule_to_function,
    bind, self, when, update, ret.
  destruct (OrderedDict.mem r (reactions m)); [|done].
  model_simpl. by destruct (Python.eval _).
Qed.

Lemma rules_in_sync_constraint_based_add_reaction (x : Reaction.t)
    (lb ub : option num) :
  preserves rules_in_sync (ConstraintBasedModel.add_reaction x lb ub).
Proof.
  apply preserves_bind; [|intros _]; apply preserves_update; intros m;
    by apply rules_in_sync_frame.
Qed.

Lemma rules_in_sync_gpr_add_reaction (x : Reaction.t) (lb ub : option num)
    (rule : option string) :
  preserves rules_in_sync (GPRConstrainedModel.add_reaction x lb ub rule).
Proof.
  apply preserves_bind; [apply rules_in_sync_constraint_based_add_reaction|].
  intros _. apply rules_in_sync_set_rule.
Qed.

Lemma rules_in_sync_add_reaction (x : Reaction.t) :
  preserves (num := num) rules_in_sync (add_reaction x).
Proof.
  apply preserves_self. intros m Hm. destruct (cls m).
  - by apply (rules_in_sync_frame m).
  - by apply rules_in_sync_constraint_based_add_reaction.
  - by apply rules_in_sync_gpr_add_reaction.
Qed.

Lemma rules_in_sync_constraint_based_remove_reactions (ids : list string) :
  preserves (num := num) rules_in_sync (ConstraintBasedModel.remove_reactions ids).
Proof.
  apply preserves_bind.
  - intros m Hm. rewrite remove_reactions_run. by apply (rules_in_sync_frame m).
  - intros _. apply preserves_for_each. intros r. apply preserves_self.
    intros m Hm. destruct (OrderedDict.mem r (bounds m)); [|done].
    by apply (rules_in_sync_frame m).
Qed.

Lemma rules_in_sync_forget (r : string) m :
  rules_in_sync m → rules_in_sync (with_rules (OrderedDict.del r) m).
Proof.
  unfold rules_in_sync. model_simpl. intros Hm r0 rule.
  rewrite od_get_del. case_decide; [done|]. apply Hm.
Qed.

Lemma rules_in_sync_forget_both (r : string) m :
  rules_in_sync m →
  rules_in_sync (with_rule_functions (OrderedDict.del r)
                   (with_rules (OrderedDict.del r) m)).
Proof.
  unfold rules_in_sync. model_simpl. intros Hm r0 rule.
  rewrite !od_get_del. case_decide; [done|]. apply Hm.
Qed.

Lemma rules_in_sync_gpr_remove_reactions (ids : list string) :
  preserves (num := num) rules_in_sync (GPRConstrainedModel.remove_reactions ids).
Proof.
  apply preserves_bind; [apply rules_in_sync_constraint_based_remove_reactions|].
  intros _. apply preserves_for_each. intros r m Hm.
  unfold bind, self. destruct (OrderedDict.mem r (rules m)); [|done].
  unfold update at 1. model_simpl.
  destruct (OrderedDict.mem r (rule_functions m)); cbn [leaves update raise].
  - by apply rules_in_sync_forget_both.
  - by apply rules_in_sync_forget.
Qed.

(** X16. That every stored rule has the predicate it was compiled to is
    an invariant of [set_rule], [set_rules], [add_gene], [add_genes], the
    [add_reaction] of every class and the [remove_reactions] of every
    class, also when [remove_reactions] raised KeyError half way. *)
Theorem rules_in_sync_invariant :
  (∀ r rule, preserves (num := num) rules_in_sync
               (GPRConstrainedModel.set_rule r rule))
  ∧ (∀ rl, preserves (num := num) rules_in_sync (GPRConstrainedModel.set_rules rl))
  ∧ (∀ gs, preserves (num := num) rules_in_sync (GPRConstrainedModel.add_genes gs))
  ∧ (∀ x lb ub rule, preserves (num := num) rules_in_sync
                       (GPRConstrainedModel.add_reaction x lb ub rule))
  ∧ (∀ x, preserves (num := num) rules_in_sync (add_reaction x))
  ∧ (∀ ids, preserves (num := num) rules_in_sync (remove_reactions ids)).
Proof.
  split_and!.
  - apply rules_in_sync_set_rule.
  - intros rl. apply preserves_for_each. intros [r rule].
    apply rules_in_sync_set_rule.
  - intros gs. apply preserves_for_each. intros g. apply preserves_update.
    intros m. by apply rules_in_sync_frame.
  - apply rules_in_sync_gpr_add_reaction.
  - apply rules_in_sync_add_reaction.
  - intros ids. apply preserves_self. intros m Hm. destruct (cls m).
    + rewrite remove_reactions_run. by apply (rules_in_sync_frame m).
    + by apply rules_in_sync_constraint_based_remove_reactions.
    + by apply rules_in_sync_gpr_remove_reactions.
Qed.
End rules_invariant.

(** * The lookup tables and the matrix *)

Section fold_facts.
Context {S A A' B : Type}.

Lemma for_fold_fmap (f : A → A') (xs : list A) (acc : B)
    (body : B → A' → method S B) (s : S) :
  for_fold (f <$> xs) acc body s = for_fold xs acc (λ acc x, body acc (f x)) s.
Proof.
  revert acc s. induction xs as [|x xs IH]; intros acc s; [done|].
  rewrite fmap_cons. cbn [for_fold]. unfold bind.
  destruct (body acc (f x) s); [apply IH | done..].
Qed.

Lemma for_fold_ext (xs : list A) (acc : B) (body body' : B → A → method S B) (s : S) :
  (∀ acc x s, body acc x s = body' acc x s) →
  for_fold xs acc body s = for_fold xs acc body' s.
Proof.
  intros Hext. revert acc s. induction xs as [|x xs IH]; intros acc s; [done|].
  cbn [for_fold]. unfold bind. rewrite Hext.
  destruct (body' acc x s); [apply IH | done..].
Qed.
End fold_facts.

Section tables.
Context {num : Type}.
Implicit Types m : model num.

(** The fold of the lookup tables stops with KeyError at the first edge
    whose row is missing. *)
Lemma table_fold_raises (es : OrderedDict (string * string) num)
    (table : OrderedDict string (OrderedDict string num)) m :
  ¬ Forall (λ e : string * string * num, is_Some (OrderedDict.get e.1.2 table)) es →
  for_fold (OrderedDict.items es) table
    (λ table '((m_id, r_id), coeff),
      row <- subscript table r_id ;;
      ret (OrderedDict.set r_id (OrderedDict.set m_id coeff row) table)) m
  = Raised KeyError m.
Proof.
  unfold OrderedDict.items. revert table.
  induction es as [|[[a0 r0] c0] es IH]; intros table Hko.
  - destruct Hko. constructor.
  - cbn [for_fold]. unfold bind at 1. unfold bind at 1. unfold subscript.
    destruct (OrderedDict.get r0 table) as [row0|] eqn:Hrow0; [|done].
    unfold ret at 1. unfold ret at 1. apply IH. intros Hall. apply Hko.
    constructor; [by eexists|].
    eapply Forall_impl; [exact Hall|]. intros [[a r] c]. cbn [fst snd].
    rewrite od_get_set. case_decide; [subst; by eexists | done].
Qed.

(** The fold of the lookup tables adds no row and drops none. *)
Lemma table_fold_keys (es : OrderedDict (string * string) num)
    (table table' : OrderedDict string (OrderedDict string num)) m (r : string) :
  for_fold (OrderedDict.items es) table
    (λ table '((m_id, r_id), coeff),
      row <- subscript table r_id ;;
      ret (OrderedDict.set r_id (OrderedDict.set m_id coeff row) table)) m
  = Returned table' m →
  is_Some (OrderedDict.get r table) ↔ is_Some (OrderedDict.get r table').
Proof.
  unfold OrderedDict.items. revert table.
  induction es as [|[[a0 r0] c0] es IH]; intros table.
  - by intros [= ->].
  - cbn [for_fold]. unfold bind at 1. unfold bind at 1. unfold subscript.
    destruct (OrderedDict.get r0 table) as [row0|] eqn:Hrow0; [|done].
    unfold ret at 1. unfold ret at 1. intros Hrun%IH. rewrite <- Hrun.
    rewrite od_get_set. case_decide; [subst|done].
    split; intros _; by eexists.
Qed.

Lemma mem_keys {V} (k : string) (d : list (string * V)) :
  OrderedDict.mem k d = true ↔ k ∈ OrderedDict.keys d.
Proof.
  rewrite od_mem_get. split.
  - intros [v Hv]. by eapply od_get_Some_keys.
  - intros Hk. destruct (OrderedDict.get k d) eqn:Hg; [by eexists|].
    by apply od_get_None in Hg.
Qed.

#[local] Instance edges_bound_dec m : Decision (edges_bound m).
Proof. unfold edges_bound. apply _. Defined.

(** X17. [reaction_metabolite_lookup_table] returns exactly when every
    edge ends in a reaction of the model, and raises KeyError, leaving the
    model as it was, exactly when some edge does not. *)
Theorem reaction_metabolite_lookup_table_outcome m :
  ((∃ table, StoichiometricModel.reaction_metabolite_lookup_table m
             = Returned table m) ↔ edges_bound m)
  ∧ (StoichiometricModel.reaction_metabolite_lookup_table m = Raised KeyError m
     ↔ ¬ edges_bound m).
Proof.
  assert (Hko : ¬ edges_bound m →
            StoichiometricModel.reaction_metabolite_lookup_table m
            = Raised KeyError m).
  { intros Hko.
    unfold StoichiometricModel.reaction_metabolite_lookup_table, bind, self.
    apply table_fold_raises. intros Hall. apply Hko.
    eapply Forall_impl; [exact Hall|]. intros [[a r] c]. cbn [fst snd].
    rewrite od_get_of_list_const. case_decide; [|by intros []].
    intros _. by apply mem_keys. }
  split; split.
  - intros [table Hrun]. destruct (decide (edges_bound m)) as [|Hno]; [done|].
    rewrite (Hko Hno) in Hrun. done.
  - intros Hok.
    destruct (reaction_metabolite_lookup_table_returns m Hok) as (table & Hrun & _).
    by exists table.
  - intros Hrun Hok.
    destruct (reaction_metabolite_lookup_table_returns m Hok) as (table & Hrun' & _).
    rewrite Hrun in Hrun'. done.
  - exact Hko.
Qed.

Lemma get_transposed (a r : string) (es : list (string * string * num)) :
  OrderedDict.get (r, a) (transposed <$> es) = OrderedDict.get (a, r) es.
Proof.
  induction es as [|[[a0 r0] c0] es IH]; [done|].
  rewrite fmap_cons. cbn [OrderedDict.get transposed fst snd]. rewrite IH.
  destruct (decide ((r0, a0) = (r, a))) as [[= -> ->]|Hne].
  - by rewrite decide_True.
  - rewrite decide_False; [done|]. intros [= -> ->]. done.
Qed.

Lemma wf_transposed (es : list (string * string * num)) :
  OrderedDict.wf es → OrderedDict.wf (transposed <$> es).
Proof.
  unfold OrderedDict.wf, OrderedDict.keys. rewrite <- list_fmap_compose.
  intros Hnd.
  replace (fst ∘ transposed <$> es)
    with ((λ k : string * string, (k.2, k.1)) <$> es.*1)
    by (rewrite <- list_fmap_compose; by apply list_fmap_ext).
  apply NoDup_fmap_2; [|done]. intros [a r] [a' r'] [= -> ->]. done.
Qed.

Lemma metabolite_fold_transposed (es : list (string * string * num))
    (table : OrderedDict string (OrderedDict string num)) m :
  for_fold es table
    (λ table '((m_id, r_id), coeff),
      row <- subscript table m_id ;;
      ret (OrderedDict.set m_id (OrderedDict.set r_id coeff row) table)) m
  = for_fold (transposed <$> es) table
      (λ table '((m_id, r_id), coeff),
        row <- subscript table r_id ;;
        ret (OrderedDict.set r_id (OrderedDict.set m_id coeff row) table)) m.
Proof.
  rewrite for_fold_fmap. apply for_fold_ext. by intros acc [[a r] c] s.
Qed.

Lemma metabolite_reaction_lookup_table_spec m :
  OrderedDict.wf (stoichiometry m) →
  Forall (λ e, OrderedDict.mem e.1.1 (metabolites m) = true) (stoichiometry m) →
  ∃ table,
    StoichiometricModel.metabolite_reaction_lookup_table m = Returned table m
    ∧ ∀ a, is_Some (OrderedDict.get a (metabolites m)) →
        ∃ col, OrderedDict.get a table = Some col ∧ OrderedDict.wf col
          ∧ ∀ r, OrderedDict.get r col = OrderedDict.get (a, r) (stoichiometry m).
Proof.
  intros Hwf Hedges.
  unfold StoichiometricModel.metabolite_reaction_lookup_table, bind, self.
  set (table0 := OrderedDict.of_list _).
  assert (Ht0 : ∀ a, OrderedDict.get a table0
                     = if decide (a ∈ OrderedDict.keys (metabolites m))
                       then Some [] else None).
  { intros a. apply od_get_of_list_const. }
  destruct (table_fold_spec (transposed <$> stoichiometry m) table0 m)
    as (table & Hrun & Hspec).
  - by apply wf_transposed.
  - apply Forall_fmap. eapply Forall_impl; [exact Hedges|].
    intros [[a r] c] Hm. cbn [fst snd transposed compose] in *.
    rewrite Ht0, decide_True; [by eexists | by apply mem_keys].
  - intros a col. rewrite Ht0. case_decide; [|done]. intros [= <-].
    apply NoDup_nil_2.
  - exists table. split.
    + unfold OrderedDict.items in *. by rewrite metabolite_fold_transposed.
    + intros a [x Hx]. destruct (Hspec a []) as (col & Hcol & Hwfc & Hget).
      { rewrite Ht0, decide_True; [done | by eapply od_get_Some_keys]. }
      exists col. split_and!; [done..|]. intros r.
      rewrite Hget, get_transposed.
      by destruct (OrderedDict.get (a, r) (stoichiometry m)).
Qed.

(** X18. The two lookup tables are transposes of each other: on a model
    whose stoichiometry has one entry per edge and whose edges join
    metabolites and reactions of the model, both tables are built, and the
    coefficient stored for an edge is the entry of the metabolite in the
    row of the reaction, and the entry of the reaction in the row of the
    metabolite. *)
Theorem lookup_tables_transposed m :
  OrderedDict.wf (stoichiometry m) → edges_resolved m →
  ∃ by_reaction by_metabolite,
    StoichiometricModel.reaction_metabolite_lookup_table m
    = Returned by_reaction m
    ∧ StoichiometricModel.metabolite_reaction_lookup_table m
      = Returned by_metabolite m
    ∧ ∀ a r c,
        (OrderedDict.get (a, r) (stoichiometry m) = Some c
         ↔ ∃ row, OrderedDict.get r by_reaction = Some row
                  ∧ OrderedDict.get a row = Some c)
        ∧ (OrderedDict.get (a, r) (stoichiometry m) = Some c
           ↔ ∃ col, OrderedDict.get a by_metabolite = Some col
                    ∧ OrderedDict.get r col = Some c).
Proof.
  intros Hwf Hres.
  assert (Hr : edges_bound m).
  { eapply Forall_impl; [exact Hres|]. by intros e [_ ?]. }
  assert (Ha : Forall (λ e, OrderedDict.mem e.1.1 (metabolites m) = true)
                 (stoichiometry m)).
  { eapply Forall_impl; [exact Hres|]. by intros e [? _]. }
  destruct (reaction_metabolite_lookup_table_spec m Hwf Hr) as (t1 & Hrun1 & Hspec1).
  destruct (metabolite_reaction_lookup_table_spec m Hwf Ha) as (t2 & Hrun2 & Hspec2).
  destruct (reaction_metabolite_lookup_table_returns m Hr) as (t1' & Hrun1' & _).
  exists t1, t2. split_and!; [done..|]. intros a r c.
  unfold edges_resolved in Hres. rewrite Forall_forall in Hres.
  split; split.
  - intros Hc. destruct (Hres (a, r, c)) as [_ Hmem];
      [by apply od_get_Some_items|]. cbn [fst snd] in Hmem.
    destruct (Hspec1 r) as (row & Hrow & _ & Hget); [by apply od_mem_get|].
    exists row. by rewrite Hget.
  - intros (row & Hrow & Hc).
    destruct (OrderedDict.get r (reactions m)) as [x|] eqn:Hx.
    + destruct (Hspec1 r) as (row' & Hrow' & _ & Hget); [by eexists|].
      rewrite Hrow in Hrow'. injection Hrow' as <-. by rewrite <- Hget.
    + exfalso. clear Hspec2 Hrun2. revert Hrun1 Hrow.
      unfold StoichiometricModel.reaction_metabolite_lookup_table, bind, self.
      intros Hrun1 Hrow.
      destruct (table_fold_keys (stoichiometry m) _ t1 m r Hrun1) as [_ Hback].
      destruct Hback as [row0 Hrow0]; [by eexists|].
      rewrite od_get_of_list_const in Hrow0. case_decide as Hk; [|done].
      apply mem_keys, od_mem_get in Hk as [? ?]. congruence.
  - intros Hc. destruct (Hres (a, r, c)) as [Hmem _];
      [by apply od_get_Some_items|]. cbn [fst snd] in Hmem.
    destruct (Hspec2 a) as (col & Hcol & _ & Hget); [by apply od_mem_get|].
    exists col. by rewrite Hget.
  - intros (col & Hcol & Hc).
    destruct (OrderedDict.get a (metabolites m)) as [x|] eqn:Hx.
    + destruct (Hspec2 a) as (col' & Hcol' & _ & Hget); [by eexists|].
      rewrite Hcol in Hcol'. injection Hcol' as <-. by rewrite <- Hget.
    + exfalso. clear Hspec1 Hrun1 Hrun1'. revert Hrun2 Hcol.
      unfold StoichiometricModel.metabolite_reaction_lookup_table, bind, self.
      unfold OrderedDict.items. intros Hrun2 Hcol.
      rewrite metabolite_fold_transposed in Hrun2.
      destruct (table_fold_keys (transposed <$> stoichiometry m) _ t2 m a Hrun2)
        as [_ Hback].
      destruct Hback as [row0 Hrow0]; [by eexists|].
      rewrite od_get_of_list_const in Hrow0. case_decide as Hk; [|done].
      apply mem_keys, od_mem_get in Hk as [? ?]. congruence.
Qed.
End tables.

Section matrix.
Context {num : Type} `{!Number num}.
Implicit Types m : model num.

(** X19. [stoichiometric_matrix] always returns, with one row per
    metabolite and one column per reaction, in the order of the two
    dictionaries; on a model whose stoichiometry has one entry per edge and
    whose edges end in reactions, the entry of metabolite [a] and reaction
    [r] is the coefficient that the lookup table has for [a] in the row of
    [r], and [0] where the table has none. *)
Theorem stoichiometric_matrix_entries m :
  OrderedDict.wf (stoichiometry m) → edges_bound m →
  ∃ table rows,
    StoichiometricModel.reaction_metabolite_lookup_table m = Returned table m
    ∧ StoichiometricModel.stoichiometric_matrix m = Returned rows m
    ∧ length rows = length (metabolites m)
    ∧ ∀ (i j : nat) (a r : string),
        OrderedDict.keys (metabolites m) !! i = Some a →
        OrderedDict.keys (reactions m) !! j = Some r →
        ∃ line row,
          rows !! i = Some line
          ∧ length line = length (reactions m)
          ∧ OrderedDict.get r table = Some row
          ∧ line !! j = Some (default zero (OrderedDict.get a row)).
Proof.
  intros Hwf Hedges.
  destruct (reaction_metabolite_lookup_table_spec m Hwf Hedges)
    as (table & Hrun & Hspec).
  exists table. eexists. split; [exact Hrun|].
  unfold StoichiometricModel.stoichiometric_matrix, bind, self, ret.
  split; [reflexivity|]. unfold OrderedDict.keys. split.
  { by rewrite !length_fmap. }
  intros i j a r Hi Hj.
  destruct (Hspec r) as (row & Hrow & _ & Hget).
  { apply od_mem_get, mem_keys. by eapply list_elem_of_lookup_2. }
  eexists _, row. rewrite list_lookup_fmap, Hi. cbn [fmap option_fmap option_map].
  split_and!; [reflexivity | by rewrite !length_fmap | exact Hrow |].
  rewrite list_lookup_fmap, Hj. cbn [fmap option_fmap option_map]. f_equal.
  rewrite Hget. unfold OrderedDict.mem.
  by destruct (OrderedDict.get (a, r) (stoichiometry m)).
Qed.
End matrix.

(** X18, an instance: the stoichiometric example. *)
Lemma lookup_tables_transposed_witness :
  OrderedDict.wf (stoichiometry toy_stoichiometric)
  ∧ edges_resolved toy_stoichiometric
  ∧ ∃ by_reaction by_metabolite,
      StoichiometricModel.reaction_metabolite_lookup_table toy_stoichiometric
      = Returned by_reaction toy_stoichiometric
      ∧ StoichiometricModel.metabolite_reaction_lookup_table toy_stoichiometric
        = Returned by_metabolite toy_stoichiometric
      ∧ (∃ row, OrderedDict.get "R" by_reaction = Some row
                ∧ OrderedDict.get "B" row = Some 1%Z)
      ∧ (∃ col, OrderedDict.get "B" by_metabolite = Some col
                ∧ OrderedDict.get "R" col = Some 1%Z).
Proof.
  assert (Hwf : OrderedDict.wf (stoichiometry toy_stoichiometric)).
  { unfold OrderedDict.wf. apply (bool_decide_unpack _). vm_compute. exact I. }
  assert (Hres : edges_resolved toy_stoichiometric).
  { unfold edges_resolved. apply (bool_decide_unpack _). vm_compute. exact I. }
  split_and!; [exact Hwf | exact Hres |].
  destruct (lookup_tables_transposed toy_stoichiometric Hwf Hres)
    as (t1 & t2 & Hrun1 & Hrun2 & Hboth).
  exists t1, t2. destruct (Hboth "B" "R" 1%Z) as [[Hrow _] [Hcol _]].
  split_and!; [exact Hrun1 | exact Hrun2 | by apply Hrow | by apply Hcol].
Defined.

(** X19, an instance: the entry of metabolite B and reaction R. *)
Lemma stoichiometric_matrix_entries_witness :
  OrderedDict.wf (stoichiometry toy_stoichiometric)
  ∧ edges_bound toy_stoichiometric
  ∧ StoichiometricModel.stoichiometric_matrix toy_stoichiometric
    = Returned [[(-1)%Z; 0%Z]; [1%Z; (-1)%Z]] toy_stoichiometric
  ∧ ∃ table rows,
      StoichiometricModel.reaction_metabolite_lookup_table toy_stoichiometric
      = Returned table toy_stoichiometric
      ∧ StoichiometricModel.stoichiometric_matrix toy_stoichiometric
        = Returned rows toy_stoichiometric
      ∧ length rows = 2%nat.
Proof.
  assert (Hwf : OrderedDict.wf (stoichiometry toy_stoichiometric)).
  { unfold OrderedDict.wf. apply (bool_decide_unpack _). vm_compute. exact I. }
  assert (Hb : edges_bound toy_stoichiometric).
  { unfold edges_bound. apply (bool_decide_unpack _). vm_compute. exact I. }
  split_and!; [exact Hwf | exact Hb | vm_compute; reflexivity |].
  destruct (stoichiometric_matrix_entries toy_stoichiometric Hwf Hb)
    as (table & rows & Hrun & Hmat & Hlen & _).
  by exists table, rows.
Defined.

(** ** The invariants on the examples *)

(** X13, an instance: metabolite A removed from the stoichiometric
    example. *)
Lemma edges_resolved_invariant_witness :
  edges_resolved toy_stoichiometric
  ∧ leaves edges_resolved
      (StoichiometricModel.remove_metabolites ["A"] toy_stoichiometric).
Proof.
  assert (H : edges_resolved toy_stoichiometric).
  { unfold edges_resolved. apply (bool_decide_unpack _). vm_compute. exact I. }
  split; [exact H|].
  destruct (edges_resolved_invariant (num := Z))
    as (_ & _ & _ & _ & _ & _ & Hrm & _).
  exact (Hrm ["A"] toy_stoichiometric H).
Defined.

(** X14, an instance: the cytosol removed together with its metabolites. *)
Lemma compartments_resolved_invariant_witness :
  compartments_resolved toy_compartment
  ∧ leaves compartments_resolved
      (StoichiometricModel.remove_compartment "cytosol" true toy_compartment).
Proof.
  assert (H : compartments_resolved toy_compartment).
  { unfold compartments_resolved. repeat constructor. intros _.
    exists "cytosol". by split. }
  split; [exact H|].
  destruct (compartments_resolved_invariant (num := Z))
    as (_ & _ & _ & _ & _ & Hrm).
  exact (Hrm "cytosol" toy_compartment H).
Defined.

(** X15, an instance: the removal that raises KeyError on the unknown id
    X leaves a model in which every reaction has bounds. *)
Lemma bounds_present_invariant_witness :
  bounds_present toy_constrained
  ∧ (∃ m', remove_reactions ["R"; "X"] toy_constrained = Raised KeyError m')
  ∧ leaves bounds_present (remove_reactions ["R"; "X"] toy_constrained).
Proof.
  assert (H : bounds_present toy_constrained).
  { by destruct toy_constrained_wf as (_ & _ & _ & _ & ?). }
  split_and!; [exact H | eexists; vm_compute; reflexivity |].
  destruct (bounds_present_invariant (num := Z))
    as (_ & _ & _ & _ & _ & _ & Hrm).
  exact (Hrm ["R"; "X"] toy_constrained H).
Defined.

(** X16, an instance: the same removal on the gene-rule example. *)
Lemma rules_in_sync_invariant_witness :
  rules_in_sync toy_gpr
  ∧ (∃ m', remove_reactions ["R"; "X"] toy_gpr = Raised KeyError m')
  ∧ leaves rules_in_sync (remove_reactions ["R"; "X"] toy_gpr).
Proof.
  split_and!; [exact toy_gpr_in_sync | eexists; vm_compute; reflexivity |].
  destruct (rules_in_sync_invariant (num := Z))
    as (_ & _ & _ & _ & _ & Hrm).
  exact (Hrm ["R"; "X"] toy_gpr toy_gpr_in_sync).
Defined.

(** X17, an instance: an edge on a reaction that the model does not
    have. *)
Lemma reaction_metabolite_lookup_table_outcome_witness :
  let m := with_stoichiometry (OrderedDict.set ("A", "Q") 1%Z) toy_stoichiometric in
  ¬ edges_bound m
  ∧ StoichiometricModel.reaction_metabolite_lookup_table m = Raised KeyError m
  ∧ ∃ table,
      StoichiometricModel.reaction_metabolite_lookup_table toy_stoichiometric
      = Returned table toy_stoichiometric.
Proof.
  intros m.
  assert (Hno : ¬ edges_bound m).
  { unfold edges_bound. apply (bool_decide_unpack _). vm_compute. exact I. }
  assert (Hok : edges_bound toy_stoichiometric).
  { unfold edges_bound. apply (bool_decide_unpack _). vm_compute. exact I. }
  split_and!; [exact Hno | |].
  - by apply (reaction_metabolite_lookup_table_outcome m).
  - by apply (reaction_metabolite_lookup_table_outcome toy_stoichiometric).
Defined.
